(** * smart-media-organizer: a shallow embedding of the scanning, retry,
      rate-limiting and atomic-transfer code, with its specification settled

    Sources embedded here:
      - [utils/rate_limiter.py]  (module [RateLimiter])
      - [utils/retry.py]         (module [Retry])
      - [core/scanner.py], [models/config.py], the extension predicates of
        [utils/file_ops.py]      (module [Scanner])
      - [utils/file_ops.py]      (module [FileOps])

    Conventions.
      - Python [float] and [int] quantities of the limiters (tokens, rates,
        clock readings, delays) are exact rationals [Q]; only order,
        [min]/[max] and field arithmetic are used by the code.  Where the
        retry delays leave the range of the float format and Python raises,
        the model raises too (see [Retry.float_pow]).
      - [time.time()] is an input of every operation that reads the clock.
      - A Python exception is a value of a result type; state changes made
        before the exception was raised persist. *)

From stdpp Require Import gmap strings list fin_maps.
From Stdlib Require Import QArith Qminmax Qabs Qpower Lqa ZArith Lia Ascii String.
From Stdlib Require Import Permutation Sorted.

Local Open Scope Z_scope.

(* ===================================================================== *)
(** * Rational arithmetic helpers (Python [<], [<=], [min], [max])        *)
(* ===================================================================== *)

Definition Qlt_bool (x y : Q) : bool := negb (Qle_bool y x).

(* ===================================================================== *)
(** * utils/rate_limiter.py                                               *)
(* ===================================================================== *)

Module RateLimiter.

(** What a call on a limiter produces: it returns, it raises
    [RateLimitExceeded(retry_after)], or it raises one of the built-in errors
    the arithmetic and indexing of the code can raise. *)
Inductive outcome : Type :=
| Granted
| RateLimitExceeded (retry_after : Q)
| ZeroDivisionError
| IndexError.

(** What an [acquire_wait] call did: how it ended ([Granted], or the error
    that left its loop), the clock reading of its last [acquire], the sleeps
    it asked for in order, and the limiter it leaves. *)
Record waited (S : Type) : Type := mk_waited {
  ended : outcome;
  ended_at : Q;
  naps : list Q;
  limiter : S
}.
Arguments mk_waited {S}.
Arguments ended {S}.
Arguments ended_at {S}.
Arguments naps {S}.
Arguments limiter {S}.

(** ** class TokenBucketRateLimiter *)
Module TokenBucket.

Record t : Type := mk {
    capacity : Q;
    refill_rate : Q;
    tokens : Q;
    last_refill : Q
  }.

  (** [__init__(capacity, refill_rate, *, initial_tokens=None)], the clock
      reading [now] being the value of [time.time()]. *)
Definition init (now capacity refill_rate : Q) (initial_tokens : option Q) : t :=
    {| capacity := capacity;
       refill_rate := refill_rate;
       tokens := match initial_tokens with
                 | Some k => k
                 | None => capacity
                 end;
       last_refill := now |}.

  (** [_refill]: only a strictly positive elapsed time refills. *)
Definition _refill (now : Q) (self : t) : t :=
    let elapsed := (now - last_refill self)%Q in
    if Qlt_bool 0 elapsed then
      let tokens_to_add := (elapsed * refill_rate self)%Q in
      {| capacity := capacity self;
         refill_rate := refill_rate self;
         tokens := Qmin (capacity self) (tokens self + tokens_to_add)%Q;
         last_refill := now |}
    else self.

  (** [acquire(tokens=n)]. *)
Definition acquire (now n : Q) (self : t) : outcome * t :=
    let self := _refill now self in
    if Qle_bool n (tokens self) then
      (Granted,
       {| capacity := capacity self;
          refill_rate := refill_rate self;
          tokens := (tokens self - n)%Q;
          last_refill := last_refill self |})
    else
      let tokens_needed := (n - tokens self)%Q in
      if Qeq_bool (refill_rate self) 0 then (ZeroDivisionError, self)
      else (RateLimitExceeded (tokens_needed / refill_rate self)%Q, self).

  (** [reset()]. *)
Definition reset (now : Q) (self : t) : t :=
    {| capacity := capacity self;
       refill_rate := refill_rate self;
       tokens := capacity self;
       last_refill := now |}.

  (** The operations the outside can perform on a bucket. *)
Inductive op : Type :=
  | OpAcquire (now n : Q)
  | OpRefill (now : Q)
  | OpReset (now : Q).

Definition step (o : op) (self : t) : t :=
    match o with
    | OpAcquire now n => snd (acquire now n self)
    | OpRefill now => _refill now self
    | OpReset now => reset now self
    end.

Definition run (ops : list op) (self : t) : t :=
    fold_left (fun s o => step o s) ops self.

  (** The state invariant of a bucket, and the requests that keep it: the
      bucket holds between 0 and [capacity] tokens and does not drain by
      itself; a request asks for a non-negative number of tokens. *)
Definition bucket_inv (s : t) : Prop :=
    (0 <= tokens s)%Q /\ (tokens s <= capacity s)%Q /\ (0 <= refill_rate s)%Q.

Definition nonneg_request (o : op) : Prop :=
    match o with
    | OpAcquire _ n => (0 <= n)%Q
    | _ => True
    end.

  (** [acquire_wait(tokens=n)]: the [while True] loop around [acquire], run
      by one task with no other user of the bucket in between.  [now] is the
      clock reading of the coming [acquire]; [asyncio.sleep(d)] is over
      [late k] seconds after its [d] seconds have gone by (at once for
      [d <= 0]), [k] counting the sleeps made so far.  A [retry_after] of 0
      is falsy and sleeps the fallback second.  Only [RateLimitExceeded] is
      caught.  [fuel] bounds the iterations unfolded, [None] meaning that
      more are needed. *)
Fixpoint acquire_wait (fuel : nat) (late : nat -> Q) (now : Q) (slept : list Q)
      (n : Q) (self : t) : option (waited t) :=
    match fuel with
    | O => None
    | S fuel' =>
        match acquire now n self with
        | (RateLimitExceeded retry_after, self') =>
            let d := if Qeq_bool retry_after 0 then 1%Q else retry_after in
            acquire_wait fuel' late (now + Qmax 0 d + late (List.length slept))%Q
              (slept ++ [d]) n self'
        | (o, self') => Some (mk_waited o now slept self')
        end
    end.

  (** A series of [acquire(n)] calls, each with its clock reading: the
      tokens handed out in all, and the bucket left. *)
Fixpoint serve (calls : list (Q * Q)) (self : t) : Q * t :=
    match calls with
    | [] => (0%Q, self)
    | (now, n) :: rest =>
        let '(o, self1) := acquire now n self in
        let '(handed, self2) := serve rest self1 in
        (match o with
         | Granted => (n + handed)%Q
         | _ => handed
         end, self2)
    end.

End TokenBucket.

(** ** class SlidingWindowRateLimiter *)
Module SlidingWindow.

Record t : Type := mk {
    max_requests : Z;
    window_seconds : Q;
    requests : list Q      (* the deque, oldest at the head *)
  }.

Definition init (max_requests : Z) (window_seconds : Q) : t :=
    {| max_requests := max_requests;
       window_seconds := window_seconds;
       requests := [] |}.

  (** [_cleanup_old_requests]: pop from the left while the head is at or
      before the cutoff. *)
Fixpoint popleft_while (cutoff : Q) (reqs : list Q) : list Q :=
    match reqs with
    | r :: rest => if Qle_bool r cutoff then popleft_while cutoff rest else reqs
    | [] => []
    end.

Definition _cleanup_old_requests (now : Q) (self : t) : t :=
    let cutoff := (now - window_seconds self)%Q in
    {| max_requests := max_requests self;
       window_seconds := window_seconds self;
       requests := popleft_while cutoff (requests self) |}.

  (** [acquire()]. *)
Definition acquire (now : Q) (self : t) : outcome * t :=
    let self := _cleanup_old_requests now self in
    if max_requests self <=? Z.of_nat (List.length (requests self)) then
      match requests self with
      | oldest_request :: _ =>
          (RateLimitExceeded (oldest_request + window_seconds self - now)%Q, self)
      | [] => (IndexError, self)
      end
    else
      (Granted,
       {| max_requests := max_requests self;
          window_seconds := window_seconds self;
          requests := requests self ++ [now] |}).

  (** [k] calls of [acquire] at the same clock reading; the outcomes are
      collected in call order. *)
Fixpoint burst (k : nat) (now : Q) (self : t) : list outcome * t :=
    match k with
    | O => ([], self)
    | S k' =>
        let '(o, self1) := acquire now self in
        let '(os, self2) := burst k' now self1 in
        (o :: os, self2)
    end.

  (** [acquire_wait()]: as for the bucket; a [retry_after] that is zero or
      negative sleeps the fallback tenth of a second. *)
Fixpoint acquire_wait (fuel : nat) (late : nat -> Q) (now : Q) (slept : list Q)
      (self : t) : option (waited t) :=
    match fuel with
    | O => None
    | S fuel' =>
        match acquire now self with
        | (RateLimitExceeded retry_after, self') =>
            let d := if negb (Qeq_bool retry_after 0) && Qlt_bool 0 retry_after
                     then retry_after else (1 # 10)%Q in
            acquire_wait fuel' late (now + Qmax 0 d + late (List.length slept))%Q
              (slept ++ [d]) self'
        | (o, self') => Some (mk_waited o now slept self')
        end
    end.

  (** A series of [acquire()] calls at the given clock readings: the
      readings of the calls that were granted, in call order. *)
Fixpoint grants (clock : list Q) (self : t) : list Q :=
    match clock with
    | [] => []
    | now :: rest =>
        match acquire now self with
        | (Granted, self') => now :: grants rest self'
        | (_, self') => grants rest self'
        end
    end.

  (** [g] lies in the window of [W] seconds that ends at [t]. *)
Definition in_window (W t g : Q) : bool :=
    Qlt_bool (t - W) g && Qle_bool g t.

End SlidingWindow.

(** ** class AdaptiveRateLimiter *)
Module Adaptive.

Record t : Type := mk {
    current_rate : Q;
    min_rate : Q;
    max_rate : Q;
    increase_factor : Q;
    decrease_factor : Q;
    last_request : Q;
    consecutive_successes : Z
  }.

  (** [__init__(initial_rate, *, min_rate, max_rate, increase_factor,
      decrease_factor)]. *)
Definition init (initial_rate min_rate max_rate increase_factor decrease_factor : Q) : t :=
    {| current_rate := initial_rate;
       min_rate := min_rate;
       max_rate := max_rate;
       increase_factor := increase_factor;
       decrease_factor := decrease_factor;
       last_request := 0;
       consecutive_successes := 0 |}.

  (** The keyword defaults of [__init__]. *)
Definition default_min_rate : Q := 1 # 10.
Definition default_max_rate : Q := 100.
Definition default_increase_factor : Q := 11 # 10.
Definition default_decrease_factor : Q := 1 # 2.

Definition init_default (initial_rate : Q) : t :=
    init initial_rate default_min_rate default_max_rate
         default_increase_factor default_decrease_factor.

Definition set_rate (self : t) (rate : Q) (streak : Z) : t :=
    {| current_rate := rate;
       min_rate := min_rate self;
       max_rate := max_rate self;
       increase_factor := increase_factor self;
       decrease_factor := decrease_factor self;
       last_request := last_request self;
       consecutive_successes := streak |}.

  (** [acquire()]: [now] is the clock on entry, [after] the clock once the
      pacing sleep (if any) is over.  The result carries the time slept. *)
Definition acquire (now after : Q) (self : t) : outcome * Q * t :=
    let time_since_last := (now - last_request self)%Q in
    if Qeq_bool (current_rate self) 0 then (ZeroDivisionError, 0%Q, self)
    else
      let required_delay := (1 / current_rate self)%Q in
      let remaining_delay := (required_delay - time_since_last)%Q in
      let slept := if Qlt_bool 0 remaining_delay then remaining_delay else 0%Q in
      (Granted, slept,
       {| current_rate := current_rate self;
          min_rate := min_rate self;
          max_rate := max_rate self;
          increase_factor := increase_factor self;
          decrease_factor := decrease_factor self;
          last_request := after;
          consecutive_successes := consecutive_successes self |}).

  (** [report_success()]. *)
Definition report_success (self : t) : t :=
    let streak := consecutive_successes self + 1 in
    if 10 <=? streak then
      set_rate self (Qmin (max_rate self) (current_rate self * increase_factor self)%Q) 0
    else
      set_rate self (current_rate self) streak.

  (** [report_rate_limited()]. *)
Definition report_rate_limited (self : t) : t :=
    set_rate self (Qmax (min_rate self) (current_rate self * decrease_factor self)%Q) 0.

Inductive op : Type :=
  | OpAcquire (now after : Q)
  | OpReportSuccess
  | OpReportRateLimited.

Definition step (o : op) (self : t) : t :=
    match o with
    | OpAcquire now after => snd (acquire now after self)
    | OpReportSuccess => report_success self
    | OpReportRateLimited => report_rate_limited self
    end.

Definition run (ops : list op) (self : t) : t :=
    fold_left (fun s o => step o s) ops self.

  (** The invariant on the rate, and the parameters that keep it: the
      bounds are ordered and non-negative, a success never lowers the rate
      and a rate-limit report never raises it. *)
Definition rate_inv (s : t) : Prop :=
    (min_rate s <= current_rate s)%Q /\ (current_rate s <= max_rate s)%Q.

Definition well_formed (s : t) : Prop :=
    (0 <= min_rate s)%Q /\ (min_rate s <= max_rate s)%Q /\
    (1 <= increase_factor s)%Q /\ (decrease_factor s <= 1)%Q.

End Adaptive.

(** ** class RateLimitedClient *)
Module Client.

  (** The limiters a client can wrap. *)
Inductive any_limiter : Type :=
  | Bucket (b : TokenBucket.t)
  | Window (s : SlidingWindow.t)
  | Adapting (a : Adaptive.t).

Record t : Type := mk {
    rate_limiter : any_limiter;
    auto_retry : bool;
    max_retries : Z
  }.

  (** [__init__(rate_limiter, *, auto_retry=True, max_retries=3)]. *)
Definition init (rate_limiter : any_limiter) (auto_retry : option bool)
      (max_retries : option Z) : t :=
    mk rate_limiter (default true auto_retry) (default 3%Z max_retries).

  (** How one awaited call of the wrapped function ends: with a result,
      with a [RateLimitExceeded] of its own, or with another exception. *)
Inductive response (A : Type) : Type :=
  | Answer (a : A)
  | RateLimited (retry_after : option Q)
  | Failure (message : string).
Arguments Answer {A} a.
Arguments RateLimited {A} retry_after.
Arguments Failure {A} message.

  (** What [call] raises: a [RateLimitExceeded] of the limiter or of the
      function, re-raised; the [RateLimitExceeded("Max retries exceeded")] of
      its last line; an error of the limiter other than [RateLimitExceeded];
      an exception of the function. *)
Inductive call_error : Type :=
  | Limited (retry_after : option Q)
  | MaxRetriesExceeded
  | LimiterError (o : outcome)
  | FunctionError (message : string).

  (** The environment of one [call]: the clock reading at the [acquire] of
      each turn of the loop and, for the adaptive limiter, after its pacing
      sleep; for [acquire_wait], how late its sleeps end and how many of its
      iterations are unfolded. *)
Record Env : Type := mk_env {
    clock : nat -> Q;
    after : nat -> Q;
    late : nat -> Q;
    patience : nat
  }.

  (** [hasattr(self.rate_limiter, "acquire_wait")]. *)
Definition has_acquire_wait (l : any_limiter) : bool :=
    match l with
    | Adapting _ => false
    | _ => true
    end.

  (** The first statement of the [try] block: [acquire_wait()] or
      [acquire()], with the default of one token for the bucket.  [None]: the
      [acquire_wait] needs more iterations. *)
Definition permission (env : Env) (turn : nat) (auto_retry : bool)
      (l : any_limiter) : option (outcome * any_limiter) :=
    match l with
    | Bucket b =>
        if has_acquire_wait l && auto_retry then
          match TokenBucket.acquire_wait (patience env) (late env) (clock env turn) [] 1 b with
          | Some w => Some (ended w, Bucket (limiter w))
          | None => None
          end
        else
          let '(o, b') := TokenBucket.acquire (clock env turn) 1 b in
          Some (o, Bucket b')
    | Window s =>
        if has_acquire_wait l && auto_retry then
          match SlidingWindow.acquire_wait (patience env) (late env) (clock env turn) [] s with
          | Some w => Some (ended w, Window (limiter w))
          | None => None
          end
        else
          let '(o, s') := SlidingWindow.acquire (clock env turn) s in
          Some (o, Window s')
    | Adapting a =>
        let '(o, _, a') := Adaptive.acquire (clock env turn) (after env turn) a in
        Some (o, Adapting a')
    end.

  (** The reports, made to an adaptive limiter only. *)
Definition report_success (l : any_limiter) : any_limiter :=
    match l with
    | Adapting a => Adapting (Adaptive.report_success a)
    | _ => l
    end.

Definition report_rate_limited (l : any_limiter) : any_limiter :=
    match l with
    | Adapting a => Adapting (Adaptive.report_rate_limited a)
    | _ => l
    end.

  (** What [call] did: how it ended, how many times it called the function,
      the back-off sleeps it made in order, and the limiter it leaves. *)
Record called (A : Type) : Type := mk_called {
    answer : A + call_error;
    calls : nat;
    backoff : list Z;
    limiter_left : any_limiter
  }.
Arguments mk_called {A}.
Arguments answer {A}.
Arguments calls {A}.
Arguments backoff {A}.
Arguments limiter_left {A}.

  (** The loop [while retries <= self.max_retries] and the [raise] after
      it.  [func k] is the outcome of the call of the function made after [k]
      earlier ones.  [fuel] bounds the turns unfolded. *)
Fixpoint call_loop {A : Type} (fuel : nat) (env : Env) (func : nat -> response A)
      (auto_retry : bool) (max_retries : Z) (retries : nat) (l : any_limiter)
      (made : nat) (slept : list Z) : option (called A) :=
    match fuel with
    | O => None
    | S fuel' =>
        if (Z.of_nat retries <=? max_retries)%Z then
          let on_rate_limit (retry_after : option Q) (l : any_limiter) (made : nat) :=
            if negb auto_retry || (max_retries <=? Z.of_nat retries)%Z then
              Some (mk_called (inr (Limited retry_after)) made slept l)
            else
              call_loop fuel' env func auto_retry max_retries (S retries)
                (report_rate_limited l) made
                (slept ++ [(2 ^ Z.of_nat (S retries))%Z]) in
          match permission env retries auto_retry l with
          | None => None
          | Some (Granted, l1) =>
              match func made with
              | Answer a =>
                  Some (mk_called (inl a) (S made) slept (report_success l1))
              | RateLimited retry_after => on_rate_limit retry_after l1 (S made)
              | Failure message =>
                  Some (mk_called (inr (FunctionError message)) (S made) slept l1)
              end
          | Some (RateLimitExceeded retry_after, l1) =>
              on_rate_limit (Some retry_after) l1 made
          | Some (o, l1) => Some (mk_called (inr (LimiterError o)) made slept l1)
          end
        else Some (mk_called (inr MaxRetriesExceeded) made slept l)
    end.

  (** [call(func)]. *)
Definition call {A : Type} (fuel : nat) (env : Env) (func : nat -> response A)
      (self : t) : option (called A) :=
    call_loop fuel env func (auto_retry self) (max_retries self) 0
      (rate_limiter self) 0 [].

  (** The account of the loop from any of its turns: the sleeps made from
      there on, the calls of the function, and what the way it ends tells. *)
Definition loop_account {A : Type} (func : nat -> response A) (ar : bool) (mr : Z)
      (retries made : nat) (slept : list Z) (r : called A) : Prop :=
    exists k : nat,
      backoff r
      = (slept ++ map (fun i => (2 ^ Z.of_nat (S (retries + i)))%Z) (seq 0 k))%list /\
      (k = 0%nat \/ (ar = true /\ (Z.of_nat (retries + k) <= mr)%Z)) /\
      (made <= calls r <= made + S k)%nat /\
      (answer r = inr MaxRetriesExceeded ->
       (mr < Z.of_nat retries)%Z /\ calls r = made /\ k = 0%nat) /\
      (forall a, answer r = inl a -> exists j, func j = Answer a /\ calls r = S j) /\
      (forall ra, answer r = inr (Limited ra) -> ar = true ->
                  Z.of_nat (retries + k) = mr).

  (** The back-off sleeps of [k] retries: 2, 4, ..., [2 ** k] seconds. *)
Definition powers_of_two (k : nat) : list Z :=
    map (fun i => (2 ^ Z.of_nat (S i))%Z) (seq 0 k).

End Client.

End RateLimiter.

(* ===================================================================== *)
(** * Python values shared by the modules: [str], [pathlib.Path], errors  *)
(* ===================================================================== *)

Module Py.

Local Open Scope string_scope.
Local Open Scope nat_scope.

  (** ** [str] (ASCII) *)

  (** [c.lower()] on one character. *)
Definition lower_ascii (c : ascii) : ascii :=
    let n := nat_of_ascii c in
    if (65 <=? n) && (n <=? 90) then ascii_of_nat (n + 32) else c.

  (** [s.lower()]. *)
Fixpoint lower (s : string) : string :=
    match s with
    | EmptyString => EmptyString
    | String c s' => String (lower_ascii c) (lower s')
    end.

  (** [s.startswith(p)]. *)
Fixpoint startswith (p s : string) : bool :=
    match p, s with
    | EmptyString, _ => true
    | String a p', String b s' => Ascii.eqb a b && startswith p' s'
    | String _ _, EmptyString => false
    end.

  (** [p in s]. *)
Fixpoint contains (p s : string) : bool :=
    startswith p s ||
    match s with
    | EmptyString => false
    | String _ s' => contains p s'
    end.

  (** [s[:n]] and [s[n:]] for [0 <= n]. *)
Fixpoint slice_to (n : nat) (s : string) : string :=
    match n, s with
    | S n', String c s' => String c (slice_to n' s')
    | _, _ => EmptyString
    end.

Fixpoint slice_from (n : nat) (s : string) : string :=
    match n, s with
    | S n', String _ s' => slice_from n' s'
    | _, _ => s
    end.

  (** [s.rfind(c)], scanned from index [i]; [None] is Python's [-1]. *)
Fixpoint rfind_from (c : ascii) (s : string) (i : nat) : option nat :=
    match s with
    | EmptyString => None
    | String d s' =>
        match rfind_from c s' (S i) with
        | Some j => Some j
        | None => if Ascii.eqb d c then Some i else None
        end
    end.

Definition rfind (c : ascii) (s : string) : option nat := rfind_from c s 0.

  (** [c in chars] for one character. *)
Fixpoint char_in (c : ascii) (chars : string) : bool :=
    match chars with
    | EmptyString => false
    | String d chars' => Ascii.eqb c d || char_in c chars'
    end.

  (** [s.replace(old, new)] for a one-character [old]. *)
Fixpoint replace (old : ascii) (new s : string) : string :=
    match s with
    | EmptyString => EmptyString
    | String c s' =>
        if Ascii.eqb c old then new ++ replace old new s'
        else String c (replace old new s')
    end.

  (** [s.lstrip(chars)], [s.rstrip(chars)] and [s.strip(chars)]. *)
Fixpoint lstrip (chars s : string) : string :=
    match s with
    | EmptyString => EmptyString
    | String c s' => if char_in c chars then lstrip chars s' else s
    end.

Fixpoint rstrip (chars s : string) : string :=
    match s with
    | EmptyString => EmptyString
    | String c s' =>
        match rstrip chars s' with
        | EmptyString => if char_in c chars then EmptyString else String c EmptyString
        | rest => String c rest
        end
    end.

Definition strip (chars s : string) : string := rstrip chars (lstrip chars s).

  (** [x in xs] for a collection of strings. *)
Definition str_in (x : string) (xs : list string) : bool :=
    existsb (String.eqb x) xs.

  (** ** [pathlib.Path]: the list of components, the last one being the
      file name. *)
Definition Path : Type := list string.

Definition name (p : Path) : string := List.last p "".
Definition parent (p : Path) : Path := removelast p.
Definition with_name (p : Path) (n : string) : Path := (removelast p ++ [n])%list.

  (** [PurePath.suffix]: the text from the last dot of the name, unless
      that dot is the first or the last character. *)
Definition suffix (p : Path) : string :=
    let nm := name p in
    match rfind "." nm with
    | Some i => if (0 <? i) && (i <? String.length nm - 1) then slice_from i nm else ""
    | None => ""
    end.

  (** [PurePath.with_suffix(suffix)]; [None] is the [ValueError] raised for
      an empty name or an invalid suffix. *)
Definition with_suffix (p : Path) (sfx : string) : option Path :=
    let nm := name p in
    if contains "/" sfx then None
    else if (negb (String.eqb sfx "") && negb (startswith "." sfx)) || String.eqb sfx "."
    then None
    else if String.eqb nm "" then None
    else
      let old_suffix := suffix p in
      let nm' := if String.eqb old_suffix "" then nm ++ sfx
                 else slice_to (String.length nm - String.length old_suffix) nm ++ sfx in
      Some (with_name p nm').

End Py.

(* ===================================================================== *)
(** * utils/retry.py                                                      *)
(* ===================================================================== *)

Module Retry.

  (** The exception classes the module and its predefined strategies name,
      with the bases of each (its method resolution order, [Exception]
      last).  [IOError] is [OSError]. *)
Inductive exc_class : Type :=
  | Exception
  | OSError
  | PermissionError
  | ConnectionError
  | TimeoutError
  | ValueError
  | RuntimeError
  | ClientError      (* aiohttp *)
  | HTTPError.       (* httpx *)

Definition exc_class_eqb (a b : exc_class) : bool :=
    match a, b with
    | Exception, Exception | OSError, OSError
    | PermissionError, PermissionError | ConnectionError, ConnectionError
    | TimeoutError, TimeoutError | ValueError, ValueError
    | RuntimeError, RuntimeError | ClientError, ClientError
    | HTTPError, HTTPError => true
    | _, _ => false
    end.

Definition mro (c : exc_class) : list exc_class :=
    match c with
    | Exception => [Exception]
    | OSError => [OSError; Exception]
    | PermissionError => [PermissionError; OSError; Exception]
    | ConnectionError => [ConnectionError; OSError; Exception]
    | TimeoutError => [TimeoutError; OSError; Exception]
    | ValueError => [ValueError; Exception]
    | RuntimeError => [RuntimeError; Exception]
    | ClientError => [ClientError; Exception]
    | HTTPError => [HTTPError; Exception]
    end.

  (** A raised exception: its class and its message. *)
Record exn : Type := mk_exn { exn_class : exc_class; exn_message : string }.

Definition issubclass (c d : exc_class) : bool := existsb (exc_class_eqb d) (mro c).

  (** [isinstance(e, classes)] for a tuple of classes. *)
Definition isinstance (e : exn) (classes : list exc_class) : bool :=
    existsb (issubclass (exn_class e)) classes.

  (** ** The strategy classes.  [retryable_exceptions or (Exception,)]
      replaces [None] and the empty tuple by [(Exception,)]. *)
Definition or_exception (retryable_exceptions : option (list exc_class)) : list exc_class :=
    match retryable_exceptions with
    | None | Some [] => [Exception]
    | Some classes => classes
    end.

Inductive RetryStrategy : Type :=
  | ExponentialBackoffStrategy
      (max_attempts : Z) (base_delay max_delay exponential_base : Q)
      (jitter : bool) (retryable_exceptions : list exc_class)
  | LinearBackoffStrategy
      (max_attempts : Z) (base_delay increment max_delay : Q)
      (retryable_exceptions : list exc_class)
  | FixedDelayStrategy
      (max_attempts : Z) (delay : Q) (retryable_exceptions : list exc_class).

  (** The constructors with their keyword defaults ([None] where the caller
      leaves an argument out). *)
Definition new_exponential (max_attempts : option Z) (base_delay max_delay : option Q)
      (retryable_exceptions : option (list exc_class)) : RetryStrategy :=
    ExponentialBackoffStrategy
      (default 3 max_attempts) (default 1%Q base_delay) (default 60%Q max_delay)
      2%Q true (or_exception retryable_exceptions).

Definition max_attempts (s : RetryStrategy) : Z :=
    match s with
    | ExponentialBackoffStrategy n _ _ _ _ _ => n
    | LinearBackoffStrategy n _ _ _ _ => n
    | FixedDelayStrategy n _ _ => n
    end.

Definition retryable_exceptions (s : RetryStrategy) : list exc_class :=
    match s with
    | ExponentialBackoffStrategy _ _ _ _ _ r => r
    | LinearBackoffStrategy _ _ _ _ r => r
    | FixedDelayStrategy _ _ r => r
    end.

  (** [should_retry(attempt, exception)]: the three classes share the body. *)
Definition should_retry (s : RetryStrategy) (attempt : Z) (exception : exn) : bool :=
    if max_attempts s <=? attempt then false
    else isinstance exception (retryable_exceptions s).

  (** ** Float arithmetic.  A float is modelled by the rational it stands
      for, rounding left out.  What is kept of the format is its range: a
      result of magnitude [2^1024 - 2^970] or more is beyond the largest
      double, and where Python raises for it, so does the model: [x ** n]
      and the conversion of an [int] raise [OverflowError], and [0.0 ** n]
      for a negative [n] raises [ZeroDivisionError]. *)
Inductive arith_error : Type :=
  | OverflowError
  | ZeroDivisionError.

Definition float_limit : Q := inject_Z (2 ^ 1024 - 2 ^ 970).

Definition out_of_range (x : Q) : bool := Qle_bool float_limit (Qabs x).

  (** [float(n)], the conversion [float * int] and [float ** int] apply to
      the [int]. *)
Definition int_to_float (n : Z) : arith_error + Q :=
    if out_of_range (inject_Z n) then inl OverflowError else inr (inject_Z n).

  (** [x ** n] for a float [x] and an int [n]. *)
Definition float_pow (x : Q) (n : Z) : arith_error + Q :=
    match int_to_float n with
    | inl err => inl err
    | inr _ =>
        if (n =? 0)%Z then inr 1%Q
        else if Qeq_bool x 0 && (n <? 0)%Z then inl ZeroDivisionError
        else if out_of_range (x ^ n) then inl OverflowError
        else inr (x ^ n)%Q
    end.

  (** [get_delay(attempt, exception)].  [u] in [[0, 1]] is the sample behind
      [random.uniform(a, b) = a + (b - a) * u].  The power is computed before
      the cap of [max_delay] is applied, so that it can raise however small
      the cap. *)
Definition get_delay (s : RetryStrategy) (attempt : Z) (exception : exn) (u : Q)
    : arith_error + Q :=
    match s with
    | ExponentialBackoffStrategy _ base_delay max_delay exponential_base jitter _ =>
        match float_pow exponential_base attempt with
        | inl err => inl err
        | inr power =>
            let delay := (base_delay * power)%Q in
            let delay := Qmin delay max_delay in
            let delay :=
              if jitter then
                let jitter_range := (delay * (1 # 4))%Q in
                (delay + (- jitter_range + (jitter_range - - jitter_range) * u))%Q
              else delay in
            inr (Qmax 0 delay)
        end
    | LinearBackoffStrategy _ base_delay increment max_delay _ =>
        match int_to_float attempt with
        | inl err => inl err
        | inr attempt =>
            let delay := (base_delay + increment * attempt)%Q in
            inr (Qmin delay max_delay)
        end
    | FixedDelayStrategy _ delay _ => inr delay
    end.

  (** The predefined strategies. *)
Definition create_file_operation_retry_strategy : RetryStrategy :=
    ExponentialBackoffStrategy 3 (1 # 2) 10 2 true [OSError; OSError; PermissionError].

Definition create_network_retry_strategy : RetryStrategy :=
    ExponentialBackoffStrategy 5 1 60 2 true [ConnectionError; TimeoutError; OSError].

Definition create_api_retry_strategy : RetryStrategy :=
    ExponentialBackoffStrategy 3 1 30 2 true
      [ConnectionError; TimeoutError; ClientError; HTTPError].

  (** ** class RetryContext *)
Record RetryContext : Type := mk_ctx {
    strategy : RetryStrategy;
    attempt : Z;
    exceptions : list exn;
    total_delay : Q
  }.

Definition new_context (s : RetryStrategy) : RetryContext :=
    {| strategy := s; attempt := 0; exceptions := []; total_delay := 0 |}.

  (** [RetryContext.should_retry(exception)]: the decision, the time slept
      ([asyncio.sleep(delay)]) and the updated context; or the error
      [get_delay] raised, with the context as it is then, the exception
      recorded and nothing else changed. *)
Definition context_should_retry (u : Q) (exception : exn) (ctx : RetryContext)
    : arith_error * RetryContext + bool * Q * RetryContext :=
    let exceptions' := exceptions ctx ++ [exception] in
    if should_retry (strategy ctx) (attempt ctx) exception then
      match get_delay (strategy ctx) (attempt ctx) exception u with
      | inl err =>
          inl (err,
               {| strategy := strategy ctx;
                  attempt := attempt ctx;
                  exceptions := exceptions';
                  total_delay := total_delay ctx |})
      | inr delay =>
          inr (true, delay,
               {| strategy := strategy ctx;
                  attempt := attempt ctx + 1;
                  exceptions := exceptions';
                  total_delay := (total_delay ctx + delay)%Q |})
      end
    else
      inr (false, 0%Q,
           {| strategy := strategy ctx;
              attempt := attempt ctx;
              exceptions := exceptions';
              total_delay := total_delay ctx |}).

  (** [RetryError(attempts, last_exception)]. *)
Record RetryError : Type := mk_retry_error {
    attempts : Z;
    last_exception : exn
  }.

Definition get_final_exception (ctx : RetryContext) : RetryError :=
    {| attempts := attempt ctx;
       last_exception :=
         List.last (exceptions ctx) (mk_exn Exception "Unknown error") |}.

  (** ** [retry_async] *)

  (** One awaited call of the wrapped function. *)
Inductive call_result (A : Type) : Type :=
  | Returned (a : A)
  | Raised (e : exn).
Arguments Returned {A} a.
Arguments Raised {A} e.

  (** What [retry_async] did: how it ended, how many times it called the
      function, the sleeps it made in order, and the final context. *)
Record run (A : Type) : Type := mk_run {
    result : A + RetryError;
    invocations : nat;
    sleeps : list Q;
    context : RetryContext
  }.
Arguments mk_run {A}.
Arguments result {A}.
Arguments invocations {A}.
Arguments sleeps {A}.
Arguments context {A}.

  (** How a call of [retry_async] ends: as the function is written, with a
      value or a [RetryError]; or with the error of a delay computation,
      which is raised inside the [except] clause and which nothing catches,
      after the given number of calls and the given sleeps. *)
Inductive ending (A : Type) : Type :=
  | Finished (r : run A)
  | Escaped (err : arith_error) (invocations : nat) (sleeps : list Q)
      (context : RetryContext).
Arguments Finished {A} r.
Arguments Escaped {A} err invocations sleeps context.

  (** The [while True] loop.  [func k] is the outcome of the call made after
      [k] earlier calls, [rnd k] the jitter sample drawn after it.  The loop is
      unbounded in the source; [fuel] bounds the number of iterations
      unfolded, [None] meaning that more are needed. *)
Fixpoint retry_loop {A : Type} (fuel : nat) (func : nat -> call_result A)
      (rnd : nat -> Q) (calls : nat) (slept : list Q) (ctx : RetryContext)
    : option (ending A) :=
    match fuel with
    | O => None
    | S fuel' =>
        match func calls with
        | Returned a =>
            Some (Finished (mk_run (inl a) (S calls) slept ctx))
        | Raised e =>
            match context_should_retry (rnd calls) e ctx with
            | inl (err, ctx') => Some (Escaped err (S calls) slept ctx')
            | inr (again, delay, ctx') =>
                if again then
                  retry_loop fuel' func rnd (S calls) (slept ++ [delay]) ctx'
                else
                  Some (Finished
                          (mk_run (inr (get_final_exception ctx')) (S calls) slept ctx'))
            end
        end
    end.

  (** [retry_async(func, strategy=None)]. *)
Definition retry_async {A : Type} (fuel : nat) (func : nat -> call_result A)
      (rnd : nat -> Q) (strategy : option RetryStrategy) : option (ending A) :=
    let strategy :=
      match strategy with
      | Some s => s
      | None => new_exponential None None None None
      end in
    retry_loop fuel func rnd 0 [] (new_context strategy).

  (** The time slept in all. *)
Definition total (delays : list Q) : Q := fold_right Qplus 0%Q delays.

End Retry.

(* ===================================================================== *)
(** * core/scanner.py with models/config.py                               *)
(* ===================================================================== *)

Module Scanner.

Import Py.
Local Open Scope string_scope.

  (** ** The extension predicates of utils/file_ops.py *)
Definition VIDEO_EXTENSIONS : list string :=
    [".mp4"; ".mkv"; ".avi"; ".mov"; ".wmv"; ".flv"; ".webm"; ".m4v";
     ".mpg"; ".mpeg"; ".3gp"; ".ogv"; ".rm"; ".rmvb"; ".asf"; ".ts"].

Definition SUBTITLE_EXTENSIONS : list string :=
    [".srt"; ".ass"; ".ssa"; ".vtt"; ".sub"; ".idx"; ".sup"].

Definition IMAGE_EXTENSIONS : list string :=
    [".jpg"; ".jpeg"; ".png"; ".gif"; ".bmp"; ".tiff"; ".webp"].

Definition is_video_file (file_path : Path) : bool :=
    str_in (lower (suffix file_path)) VIDEO_EXTENSIONS.

Definition is_subtitle_file (file_path : Path) : bool :=
    str_in (lower (suffix file_path)) SUBTITLE_EXTENSIONS.

Definition is_image_file (file_path : Path) : bool :=
    str_in (lower (suffix file_path)) IMAGE_EXTENSIONS.

  (** ** class Settings: the fields the scanner reads, with the declared
      defaults.  The class declares [max_concurrent]; it declares no
      attribute named [max_concurrent_api_calls]. *)
Record Settings : Type := mk_settings {
    max_concurrent : Z;
    video_extensions : list string;
    min_file_size_mb : Z;
    max_file_size_gb : Z;
    skip_patterns : list string
  }.

Definition default_settings : Settings :=
    {| max_concurrent := 10;
       video_extensions :=
         [".mp4"; ".mkv"; ".avi"; ".mov"; ".wmv"; ".flv"; ".webm"; ".m4v"];
       min_file_size_mb := 10;
       max_file_size_gb := 0;
       skip_patterns := [".sample"; ".trailer"; ".extras"] |}.

  (** The field constraints ([ge], [le]) pydantic validates. *)
Definition valid_settings (s : Settings) : Prop :=
    (1 <= max_concurrent s <= 50)%Z /\ (0 <= min_file_size_mb s)%Z
    /\ (0 <= max_file_size_gb s)%Z.

  (** [Settings.should_skip_file]. *)
Definition should_skip_file (s : Settings) (file_path : Path) : bool :=
    let filename := lower (name file_path) in
    existsb (fun pattern => contains (lower pattern) filename) (skip_patterns s).

  (** [Settings.get_file_size_limits]. *)
Definition get_file_size_limits (s : Settings) : Z * option Z :=
    let min_size := (min_file_size_mb s * 1024 * 1024)%Z in
    let max_size :=
      if (0 <? max_file_size_gb s)%Z
      then Some (max_file_size_gb s * 1024 * 1024 * 1024)%Z
      else None in
    (min_size, max_size).

  (** ** The file system as the scanner observes it.  A regular file
      answers [stat] with its size and a read of 2048 bytes with its first
      bytes; either call can raise an [OSError] ([None]). *)
Record FileEntry : Type := mk_file {
    st_size : option Z;
    header : option (list Byte.byte)
  }.

Inductive entry : Type :=
  | File (f : FileEntry)
  | Dir.

Abbreviation FileSystem := (gmap (list string) entry).

Definition exists_ (fs : FileSystem) (p : Path) : bool :=
    match fs !! p with Some _ => true | None => false end.

Definition isdir (fs : FileSystem) (p : Path) : bool :=
    match fs !! p with Some Dir => true | _ => false end.

Definition isfile (fs : FileSystem) (p : Path) : bool :=
    match fs !! p with Some (File _) => true | _ => false end.

  (** [d] is a proper ancestor of [p]. *)
Fixpoint is_below (d p : Path) : bool :=
    match d, p with
    | [], _ :: _ => true
    | a :: d', b :: p' => String.eqb a b && is_below d' p'
    | _, [] => false
    end.

  (** [directory.rglob("*")] and [directory.glob("*")]: every path below the
      directory, respectively every path directly inside it, in the order
      [listing] in which the operating system enumerates them. *)
Definition rglob (listing : list Path -> list Path) (fs : FileSystem)
      (directory : Path) : list Path :=
    listing (filter (fun p => is_below directory p = true) (fst <$> map_to_list fs)).

Definition glob (listing : list Path -> list Path) (fs : FileSystem)
      (directory : Path) : list Path :=
    listing (filter (fun p => is_below directory p = true /\ parent p = directory)
                    (fst <$> map_to_list fs)).

  (** ** models/media_file.py: the fields the scanner sets.  The timestamps
      and the technical fields keep their defaults and are left out. *)
Inductive ProcessingStatus : Type :=
  | PENDING | SCANNING | IDENTIFYING | FETCHING_METADATA
  | ORGANIZING | COMPLETED | FAILED | SKIPPED.

Record MediaFileInfo : Type := mk_info {
    file_path : Path;
    file_size : Z;
    file_extension : string
  }.

Record MediaFile : Type := mk_media {
    info : MediaFileInfo;
    processing_status : ProcessingStatus
  }.

  (** ** class MediaFileScanner.  [magic_mime] is
      [magic.Magic(mime=True).from_buffer], [None] when it raises. *)
Record MediaFileScanner : Type := mk_scanner {
    settings : Settings;
    magic_mime : list Byte.byte -> option string
  }.

Definition _is_potential_media_file (file_path : Path) : bool :=
    is_video_file file_path || is_subtitle_file file_path || is_image_file file_path.

Definition media_mimes : list string :=
    ["video/"; "audio/"; "image/"; "application/ogg"; "application/x-matroska"].

  (** [_verify_media_file]. *)
Definition _verify_media_file (self : MediaFileScanner) (fs : FileSystem)
      (file_path : Path) : bool :=
    match fs !! file_path with
    | Some (File f) =>
        match header f with
        | Some hdr =>
            match hdr with
            | [] => false
            | _ =>
                match magic_mime self hdr with
                | Some mime_type =>
                    existsb (fun prefix => startswith prefix mime_type) media_mimes
                | None => is_video_file file_path
                end
            end
        | None => false
        end
    | _ => false
    end.

  (** [get_file_info], reduced to the key [_analyze_file] reads. *)
Definition get_file_info (fs : FileSystem) (file_path : Path) : option Z :=
    match fs !! file_path with
    | Some (File f) => st_size f
    | _ => None
    end.

  (** [_analyze_file]: [None] is the Python [None] (also returned when an
      exception was caught). *)
Definition _analyze_file (self : MediaFileScanner) (fs : FileSystem)
      (file_path : Path) : option MediaFile :=
    if should_skip_file (settings self) file_path then None
    else if negb (_is_potential_media_file file_path) then None
    else
      match get_file_info fs file_path with
      | None => None
      | Some file_size =>
          let '(min_size, max_size) := get_file_size_limits (settings self) in
          if (file_size <? min_size)%Z then None
          else if match max_size with
                  | Some m => negb (m =? 0)%Z && (m <? file_size)%Z
                  | None => false
                  end then None
          else if negb (_verify_media_file self fs file_path) then None
          else
            Some {| info := {| file_path := file_path;
                               file_size := file_size;
                               file_extension := lower (suffix file_path) |};
                    processing_status := SCANNING |}
      end.

  (** [_discover_files]. *)
Definition _discover_files (listing : list Path -> list Path) (fs : FileSystem)
      (directory : Path) (recursive : bool) : list Path :=
    if recursive
    then filter (fun p => isfile fs p = true) (rglob listing fs directory)
    else filter (fun p => isfile fs p = true) (glob listing fs directory).

  (** How [scan_directory] ends before it yields anything. *)
Inductive scan_error : Type :=
  | InvalidDirectoryError (message : string)
  | AttributeError (attribute : string)
  | ValueError (message : string).

  (** [self.settings.max_concurrent_api_calls]. *)
Definition max_concurrent_api_calls (s : Settings) : scan_error + Z :=
    inl (AttributeError "max_concurrent_api_calls").

  (** The environment of one scan: the order in which directory entries are
      enumerated and the order in which the analysis tasks complete
      ([asyncio.as_completed]). *)
Record Schedule : Type := mk_schedule {
    listing : list Path -> list Path;
    as_completed : list (option MediaFile) -> list (option MediaFile)
  }.

Definition fair (sch : Schedule) : Prop :=
    (forall l, Permutation (listing sch l) l) /\
    (forall l, Permutation (as_completed sch l) l).

  (** [scan_directory(directory, recursive, max_concurrent)]: the error
      raised, or the media files yielded, in the order yielded. *)
Definition scan_directory (self : MediaFileScanner) (sch : Schedule)
      (fs : FileSystem) (directory : Path) (recursive : bool)
      (max_concurrent : option Z) : scan_error + list MediaFile :=
    if negb (exists_ fs directory) then
      inl (InvalidDirectoryError "Directory not found")
    else if negb (isdir fs directory) then
      inl (InvalidDirectoryError "Path is not a directory")
    else
      let limit :=
        match max_concurrent with
        | Some n => if (n =? 0)%Z then max_concurrent_api_calls (settings self) else inr n
        | None => max_concurrent_api_calls (settings self)
        end in
      match limit with
      | inl e => inl e
      | inr n =>
          if (n <? 0)%Z then inl (ValueError "Semaphore initial value must be >= 0")
          else
            let file_paths := _discover_files (listing sch) fs directory recursive in
            let tasks := _analyze_file self fs <$> file_paths in
            inr (omap id (as_completed sch tasks))
      end.


  (** [get_directory_stats]: the dictionary it returns has these six
      keys. *)
Record DirectoryStats : Type := mk_stats {
    total_files : Z;
    video_files : Z;
    subtitle_files : Z;
    image_files : Z;
    other_files : Z;
    total_size : Z
  }.

  (** The body of its loop for one discovered file; when [get_file_info]
      raises, the error is logged and the file is left out. *)
Definition count_file (fs : FileSystem) (stats : DirectoryStats)
      (file_path : Path) : DirectoryStats :=
    match get_file_info fs file_path with
    | None => stats
    | Some size =>
        let total := (total_files stats + 1)%Z in
        let bytes := (total_size stats + size)%Z in
        if is_video_file file_path then
          mk_stats total (video_files stats + 1) (subtitle_files stats)
                   (image_files stats) (other_files stats) bytes
        else if is_subtitle_file file_path then
          mk_stats total (video_files stats) (subtitle_files stats + 1)
                   (image_files stats) (other_files stats) bytes
        else if is_image_file file_path then
          mk_stats total (video_files stats) (subtitle_files stats)
                   (image_files stats + 1) (other_files stats) bytes
        else
          mk_stats total (video_files stats) (subtitle_files stats)
                   (image_files stats) (other_files stats + 1) bytes
    end.

Definition get_directory_stats (listing : list Path -> list Path)
      (fs : FileSystem) (directory : Path) : scan_error + DirectoryStats :=
    if negb (exists_ fs directory) then
      inl (InvalidDirectoryError "Directory not found")
    else
      inr (fold_left (count_file fs) (_discover_files listing fs directory true)
             (mk_stats 0 0 0 0 0 0)).

  (** The counts of the kinds add up to the total, and none is negative. *)
Definition stats_inv (st : DirectoryStats) : Prop :=
    (total_files st
     = video_files st + subtitle_files st + image_files st + other_files st)%Z /\
    (0 <= video_files st)%Z /\ (0 <= subtitle_files st)%Z /\
    (0 <= image_files st)%Z /\ (0 <= other_files st)%Z.

  (** The file answers [stat]. *)
Definition answers_stat (fs : FileSystem) (p : Path) : bool :=
    match get_file_info fs p with Some _ => true | None => false end.

  (** The module-level [scan_for_media] and [get_media_file_count]: both
      build a scanner from the settings and run [scan_directory] without
      [max_concurrent]. *)
Definition scan_for_media (magic : list Byte.byte -> option string)
      (sch : Schedule) (fs : FileSystem) (directory : Path) (s : Settings)
      (recursive : bool) : scan_error + list MediaFile :=
    let scanner := {| settings := s; magic_mime := magic |} in
    match scan_directory scanner sch fs directory recursive None with
    | inl e => inl e
    | inr yielded => inr yielded
    end.

Definition get_media_file_count (magic : list Byte.byte -> option string)
      (sch : Schedule) (fs : FileSystem) (directory : Path) (s : Settings)
      : scan_error + Z :=
    let scanner := {| settings := s; magic_mime := magic |} in
    match scan_directory scanner sch fs directory true None with
    | inl e => inl e
    | inr yielded => inr (Z.of_nat (List.length yielded))
    end.

  (** ** What the scan is specified to yield *)

  (** The regular files [scan_directory] looks at: below the directory,
      directly inside it when the scan is not recursive. *)
Definition in_scope (fs : FileSystem) (directory : Path) (recursive : bool)
      (p : Path) : Prop :=
    isfile fs p = true /\ is_below directory p = true /\
    (recursive = false -> parent p = directory).

  (** The file at [p], of [size] bytes, passes every gate of the analysis:
      it is not skip-matched, its extension is a recognized media extension,
      [stat] answers with a size within the configured window, and its
      content is verified as media. *)
Definition accepted (self : MediaFileScanner) (fs : FileSystem) (p : Path)
      (size : Z) : Prop :=
    should_skip_file (settings self) p = false /\
    _is_potential_media_file p = true /\
    get_file_info fs p = Some size /\
    (min_file_size_mb (settings self) * 1024 * 1024 <= size)%Z /\
    ((0 < max_file_size_gb (settings self))%Z ->
     (size <= max_file_size_gb (settings self) * 1024 * 1024 * 1024)%Z) /\
    _verify_media_file self fs p = true.

  (** The record yielded for an accepted file. *)
Definition record_of (p : Path) (size : Z) : MediaFile :=
    {| info := {| file_path := p; file_size := size;
                  file_extension := lower (suffix p) |};
       processing_status := SCANNING |}.

  (** A sample of what libmagic answers, for the examples: the EBML magic
      number opens a Matroska file; anything else here is plain text. *)
Definition sample_magic (hdr : list Byte.byte) : option string :=
    match hdr with
    | Byte.x1a :: Byte.x45 :: Byte.xdf :: Byte.xa3 :: _ => Some "video/x-matroska"
    | _ => Some "text/plain"
    end.

  (** Two schedules for the examples. *)
Definition in_order : Schedule :=
    {| listing := fun l => l; as_completed := fun l => l |}.

Definition reversed : Schedule :=
    {| listing := @rev Path; as_completed := @rev (option MediaFile) |}.

  (** ** Inputs of the examples *)

Definition mkv_header : list Byte.byte :=
    [Byte.x1a; Byte.x45; Byte.xdf; Byte.xa3; Byte.x01; Byte.x00].

  (** "hello" *)
Definition text_header : list Byte.byte :=
    [Byte.x68; Byte.x65; Byte.x6c; Byte.x6c; Byte.x6f].

Definition sample_scanner : MediaFileScanner :=
    {| settings := default_settings; magic_mime := sample_magic |}.

  (** The directory of the end-to-end scenario: [movie.mkv] of [size]
      bytes with video magic bytes, [movie.sample.mkv], [readme.txt]. *)
Definition scenario_fs (movie sample readme : FileEntry) : FileSystem :=
    {[ ["library"] := Dir;
       ["library"; "movie.mkv"] := File movie;
       ["library"; "movie.sample.mkv"] := File sample;
       ["library"; "readme.txt"] := File readme ]}.

Definition two_mib : Z := 2 * 1024 * 1024.
Definition twenty_mib : Z := 20 * 1024 * 1024.

  (** A 20 MiB [movie.mkv] holding text, and a 20 MiB [clip.bin] holding a
      Matroska stream. *)
Definition mismatch_fs : FileSystem :=
    {[ ["library"] := Dir;
       ["library"; "movie.mkv"] :=
         File {| st_size := Some twenty_mib; header := Some text_header |};
       ["library"; "clip.bin"] :=
         File {| st_size := Some twenty_mib; header := Some mkv_header |} ]}.

End Scanner.

(* ===================================================================== *)
(** * utils/file_ops.py: the atomic copy and move                         *)
(* ===================================================================== *)

Module FileOps.

Import Py.
Local Open Scope string_scope.

  (** ** Exceptions.  [FileNotFoundError], [FilePermissionError] and
      [FileIntegrityError] are the module's subclasses of
      [FileOperationError]; [OSError] is the built-in class every failing
      system call raises, [AttributeError] the one the lookup of a name a
      module does not define raises.  [raise X(...) from e] records [e] as
      the cause.
      [OutOfFuel] is no Python exception: it marks a loop of the model that
      was unfolded too few times, and no handler catches it. *)
Inductive error : Type :=
  | OSError
  | ValueError
  | FileOperationError (cause : error)
  | FileNotFoundError
  | FilePermissionError (cause : error)
  | FileIntegrityError
  | AttributeError
  | OutOfFuel.

Definition is_OSError (e : error) : bool :=
    match e with OSError => true | _ => false end.

Definition is_OutOfFuel (e : error) : bool :=
    match e with OutOfFuel => true | _ => false end.

  (** ** The world: regular files with their content, directories, and the
      faults the environment will inject, one entry per system call in the
      order the calls are made (an exhausted script injects nothing).
      [Fail] makes the call raise [OSError] without effect; [Garble bs]
      makes a write store [bs] in place of the data passed (a write that
      silently stores other bytes) and lets any other call pass. *)
Inductive fault : Type :=
  | Pass
  | Fail
  | Garble (stored : list Byte.byte).

Record world : Type := mk_world {
    files : gmap (list string) (list Byte.byte);
    dirs : gset (list string);
    script : list fault
  }.

Inductive res (A : Type) : Type :=
  | Ok (a : A)
  | Exc (e : error).
Arguments Ok {A} a.
Arguments Exc {A} e.

Definition M (A : Type) : Type := world -> res A * world.

Definition ret {A} (a : A) : M A := fun w => (Ok a, w).

Definition raise {A} (e : error) : M A := fun w => (Exc e, w).

Definition bind {A B} (c : M A) (k : A -> M B) : M B :=
    fun w =>
      match c w with
      | (Ok a, w') => k a w'
      | (Exc e, w') => (Exc e, w')
      end.

  (** [try: c except <classes selected by catches> as e: h e]. *)
Definition try_except {A} (c : M A) (catches : error -> bool) (h : error -> M A) : M A :=
    fun w =>
      match c w with
      | (Ok a, w') => (Ok a, w')
      | (Exc e, w') => if catches e then h e w' else (Exc e, w')
      end.

  (** [except Exception]. *)
Definition any_exception (e : error) : bool := negb (is_OutOfFuel e).

Declare Scope fileops_scope.
Delimit Scope fileops_scope with fileops.
Notation "x <- c ;; k" := (bind c (fun x => k))
    (at level 200, c at level 99, k at level 200, only parsing) : fileops_scope.
Notation "c ;;; k" := (bind c (fun _ => k))
    (at level 200, k at level 200, only parsing) : fileops_scope.
Local Open Scope fileops_scope.

  (** ** System calls *)

Definition set_files (w : world) (fs : gmap (list string) (list Byte.byte)) : world :=
    {| files := fs; dirs := dirs w; script := script w |}.

Definition set_dirs (w : world) (ds : gset (list string)) : world :=
    {| files := files w; dirs := ds; script := script w |}.

Definition next_fault : M fault :=
    fun w =>
      match script w with
      | [] => (Ok Pass, w)
      | f :: rest => (Ok f, {| files := files w; dirs := dirs w; script := rest |})
      end.

  (** A call that an injected [Fail] makes raise [OSError]. *)
Definition syscall {A} (body : M A) : M A :=
    f <- next_fault ;;
    match f with
    | Fail => raise OSError
    | _ => body
    end.

Definition is_file (w : world) (p : Path) : bool :=
    match files w !! p with Some _ => true | None => false end.

Definition is_dir (w : world) (p : Path) : bool := bool_decide (p ∈ dirs w).

  (** [aiofiles.os.path.exists]: never raises. *)
Definition path_exists (p : Path) : M bool :=
    fun w => (Ok (is_file w p || is_dir w p), w).

  (** The path itself and its ancestors. *)
Definition with_ancestors (p : Path) : list Path :=
    map (fun k => take k p) (seq 0 (S (List.length p))).

  (** [os.mkdir(p)]: nothing may exist at [p], and its parent must be a
      directory. *)
Definition mkdir (p : Path) : M unit :=
    syscall (fun w =>
      if is_file w p || is_dir w p || negb (is_dir w (parent p)) then (Exc OSError, w)
      else (Ok tt, set_dirs w (dirs w ∪ {[ p ]}))).

  (** [try: mkdir(name) except OSError: if not path.isdir(name): raise], the
      last step of [os.makedirs(name, exist_ok=True)]. *)
Definition mkdir_exist_ok (name : Path) : M unit :=
    try_except (mkdir name) is_OSError
      (fun e w => if is_dir w name then (Ok tt, w) else (Exc e, w)).

  (** [os.makedirs(take k name, exist_ok=True)]: when the head of the path
      is not empty and does not exist it is made first, by the same
      function, and then the path itself; the directories are made one at a
      time, from the top, and those made stay when a later one fails.  (The
      [except FileExistsError] around the recursive call is for a directory
      another process makes in between; the world changes by the calls of
      the program only.) *)
Fixpoint makedirs_prefix (k : nat) (name : Path) : M unit :=
    match k with
    | S (S _ as k') =>
        ex <- path_exists (take k' name) ;;
        (if negb ex then makedirs_prefix k' name else ret tt) ;;;
        mkdir_exist_ok (take k name)
    | _ => mkdir_exist_ok (take k name)
    end.

  (** [aiofiles.os.makedirs(p, exist_ok=True)]. *)
Definition makedirs (p : Path) : M unit := makedirs_prefix (List.length p) p.

  (** [aiofiles.open(p, "rb")]. *)
Definition open_read (p : Path) : M unit :=
    syscall (fun w => if is_file w p then (Ok tt, w) else (Exc OSError, w)).

  (** [aiofiles.open(p, "wb")]: creates the file or truncates it. *)
Definition open_write (p : Path) : M unit :=
    syscall (fun w =>
      if is_dir w p || negb (is_dir w (parent p)) then (Exc OSError, w)
      else (Ok tt, set_files w (<[p := []]> (files w)))).

Definition chunk_size : nat := Z.to_nat 8192.
Arguments chunk_size : simpl never.

  (** [f.read(8192)] on the file opened at [p], [off] bytes already read. *)
Definition read (p : Path) (off : nat) : M (list Byte.byte) :=
    syscall (fun w =>
      match files w !! p with
      | Some content => (Ok (take chunk_size (drop off content)), w)
      | None => (Exc OSError, w)
      end).

  (** [f.write(chunk)] on the file opened for writing at [p]. *)
Definition write (p : Path) (chunk : list Byte.byte) : M unit :=
    f <- next_fault ;;
    match f with
    | Fail => raise OSError
    | Pass | Garble _ =>
        fun w =>
          match files w !! p with
          | Some content =>
              let stored := match f with Garble bs => bs | _ => chunk end in
              (Ok tt, set_files w (<[p := (content ++ stored)%list]> (files w)))
          | None => (Exc OSError, w)
          end
    end.

  (** [aiofiles.os.stat]; the timestamps it returns are not part of the
      world. *)
Definition stat (p : Path) : M unit :=
    syscall (fun w => if is_file w p || is_dir w p then (Ok tt, w) else (Exc OSError, w)).

  (** [aiofiles.os.utime(p, times)]: the module [aiofiles.os] defines no
      [utime], so that evaluating the name raises [AttributeError] and no
      system call is made. *)
Definition utime (p : Path) : M unit := raise AttributeError.

  (** [aiofiles.os.remove]. *)
Definition remove (p : Path) : M unit :=
    syscall (fun w =>
      if is_file w p then (Ok tt, set_files w (delete p (files w)))
      else (Exc OSError, w)).

  (** [aiofiles.os.rename] of a regular file (POSIX: an existing regular
      file at the destination is replaced; a directory there is an error). *)
Definition rename (src dst : Path) : M unit :=
    syscall (fun w =>
      match files w !! src with
      | Some content =>
          if is_dir w dst || negb (is_dir w (parent dst)) then (Exc OSError, w)
          else (Ok tt, set_files w (<[dst := content]> (delete src (files w))))
      | None => (Exc OSError, w)
      end).

  (** Iterations a read loop over the file at [p] is unfolded: one more
      than the bytes the file holds when the loop starts. *)
Definition with_fuel_of {A} (p : Path) (loop : nat -> M A) : M A :=
    fun w => loop (S (List.length (default [] (files w !! p)))) w.

  (** The staging path of a destination and the backup path of one: the
      same directory, the name extended by [".tmp"], respectively
      [".backup"] (what [add_suffix] computes, see [add_suffix_spec]). *)
Definition staging_path (p : Path) : Path := with_name p (name p ++ ".tmp").
Definition backup_path (p : Path) : Path := with_name p (name p ++ ".backup").

  (** No write of the remaining script stores other bytes than those
      passed. *)
Definition reliable (w : world) : Prop :=
    Forall (fun f => match f with Garble _ => False | _ => True end) (script w).

  (** A call that changes no file and raises nothing but [OSError]. *)
Definition inert {A} (c : M A) : Prop :=
    forall w, exists r w',
      c w = (r, w') /\ files w' = files w /\ (reliable w -> reliable w') /\
      (forall e, r = Exc e -> e = OSError).

Section WithHash.

    (** [hashlib.new("md5")] applied to the bytes fed to it, as a hex digest. *)
Variable md5 : list Byte.byte -> string.

    (** [ensure_directory]. *)
Definition ensure_directory (path : Path) : M Path :=
      try_except
        (ex <- path_exists path ;;
         (if negb ex then makedirs path else ret tt) ;;;
         ret path)
        is_OSError
        (fun e => raise (FilePermissionError e)).

    (** The loop [while chunk := await f.read(chunk_size): update(chunk)] of
        [calculate_file_hash]; the bytes fed to the hash object so far are
        [fed]. *)
Fixpoint hash_chunks (fuel : nat) (p : Path) (off : nat) (fed : list Byte.byte)
      : M (list Byte.byte) :=
      match fuel with
      | O => raise OutOfFuel
      | S fuel' =>
          chunk <- read p off ;;
          match chunk with
          | [] => ret fed
          | _ => hash_chunks fuel' p (off + List.length chunk) (fed ++ chunk)%list
          end
      end.

    (** [calculate_file_hash(file_path)] with the default algorithm. *)
Definition calculate_file_hash (file_path : Path) : M string :=
      try_except
        (open_read file_path ;;;
         fed <- with_fuel_of file_path (fun fuel => hash_chunks fuel file_path 0 []) ;;
         ret (md5 fed))
        is_OSError
        (fun e => raise (FileOperationError e)).

    (** The loop [while chunk := await src_f.read(8192): await dst_f.write(chunk)]. *)
Fixpoint copy_chunks (fuel : nat) (source temp_destination : Path) (off : nat)
      : M unit :=
      match fuel with
      | O => raise OutOfFuel
      | S fuel' =>
          chunk <- read source off ;;
          match chunk with
          | [] => ret tt
          | _ =>
              write temp_destination chunk ;;;
              copy_chunks fuel' source temp_destination (off + List.length chunk)
          end
      end.

    (** [destination.with_suffix(destination.suffix + ext)]. *)
Definition add_suffix (destination : Path) (ext : string) : M Path :=
      match with_suffix destination (suffix destination ++ ext) with
      | Some p => ret p
      | None => raise ValueError
      end.

    (** [copy_file_atomic(source, destination, *, verify_integrity,
        preserve_metadata)]. *)
Definition copy_file_atomic (source destination : Path)
        (verify_integrity preserve_metadata : bool) : M Path :=
      ex <- path_exists source ;;
      if negb ex then raise FileNotFoundError
      else
        ensure_directory (parent destination) ;;;
        temp_destination <- add_suffix destination ".tmp" ;;
        try_except
          (open_read source ;;;
           open_write temp_destination ;;;
           with_fuel_of source (fun fuel => copy_chunks fuel source temp_destination 0) ;;;
           (if preserve_metadata
            then stat source ;;; utime temp_destination
            else ret tt) ;;;
           (if verify_integrity
            then
              source_hash <- calculate_file_hash source ;;
              dest_hash <- calculate_file_hash temp_destination ;;
              if negb (String.eqb source_hash dest_hash)
              then remove temp_destination ;;; raise FileIntegrityError
              else ret tt
            else ret tt) ;;;
           rename temp_destination destination ;;;
           ret destination)
          any_exception
          (fun e =>
             ex <- path_exists temp_destination ;;
             (if ex then remove temp_destination else ret tt) ;;;
             raise (FileOperationError e)).

    (** [move_file_atomic(source, destination, *, verify_integrity,
        create_backup)]. *)
Definition move_file_atomic (source destination : Path)
        (verify_integrity create_backup : bool) : M Path :=
      ex <- path_exists source ;;
      if negb ex then raise FileNotFoundError
      else
        ensure_directory (parent destination) ;;;
        (if create_backup
         then
           exd <- path_exists destination ;;
           if exd
           then
             backup_path <- add_suffix destination ".backup" ;;
             copy_file_atomic destination backup_path false true ;;;
             ret tt
           else ret tt
         else ret tt) ;;;
        try_except
          (rename source destination)
          is_OSError
          (fun _ =>
             copy_file_atomic source destination verify_integrity true ;;;
             remove source) ;;;
        ret destination.

    (** The [try] block of [copy_file_atomic] and its [except] clause, by
        name (see [copy_file_atomic_unfold]). *)
Definition copy_attempt (source destination temp_destination : Path)
        (verify_integrity preserve_metadata : bool) : M Path :=
      open_read source ;;;
      open_write temp_destination ;;;
      with_fuel_of source (fun fuel => copy_chunks fuel source temp_destination 0) ;;;
      (if preserve_metadata
       then stat source ;;; utime temp_destination
       else ret tt) ;;;
      (if verify_integrity
       then
         source_hash <- calculate_file_hash source ;;
         dest_hash <- calculate_file_hash temp_destination ;;
         if negb (String.eqb source_hash dest_hash)
         then remove temp_destination ;;; raise FileIntegrityError
         else ret tt
       else ret tt) ;;;
      rename temp_destination destination ;;;
      ret destination.

Definition copy_cleanup (temp_destination : Path) (e : error) : M Path :=
      ex <- path_exists temp_destination ;;
      (if ex then remove temp_destination else ret tt) ;;;
      raise (FileOperationError e).

    (** The backup step and the transfer step of [move_file_atomic], by
        name (see [move_file_atomic_unfold]). *)
Definition backup_step (destination : Path) (create_backup : bool) : M unit :=
      if create_backup
      then
        exd <- path_exists destination ;;
        if exd
        then
          backup_path <- add_suffix destination ".backup" ;;
          copy_file_atomic destination backup_path false true ;;;
          ret tt
        else ret tt
      else ret tt.

Definition transfer_step (source destination : Path) (verify_integrity : bool)
      : M unit :=
      try_except
        (rename source destination)
        is_OSError
        (fun _ =>
           copy_file_atomic source destination verify_integrity true ;;;
           remove source).

End WithHash.

  (** ** Inputs of the examples *)

  (** A stand-in digest for the examples: the bytes themselves, as text.
      Only its values on the files compared matter. *)
Definition sample_md5 (bs : list Byte.byte) : string :=
    string_of_list_byte bs.

  (** [/data] holds [a.mkv] ("ab"); the script passes four calls and makes
      the fifth, the write of the copy loop, store "x" in place of the data. *)
Definition garbling_world : world :=
    {| files := {[ ["data"; "a.mkv"] := [Byte.x61; Byte.x62] ]};
       dirs := {[ []; ["data"] ]};
       script := [Pass; Pass; Pass; Pass; Garble [Byte.x78]] |}.

  (** [/data] holds [x] ("a") and [y] ("b"); no fault is injected. *)
Definition calm_world : world :=
    {| files := {[ ["data"; "x"] := [Byte.x61]; ["data"; "y"] := [Byte.x62] ]};
       dirs := {[ []; ["data"] ]};
       script := [] |}.

  (** The same, the first system call failing: for a move without backup
      that is the direct rename. *)
Definition cross_device_world : world :=
    {| files := {[ ["data"; "x"] := [Byte.x61]; ["data"; "y"] := [Byte.x62] ]};
       dirs := {[ []; ["data"] ]};
       script := [Fail] |}.

  (** [/data] holds [y.tmp] ("a"), and the first system call fails. *)
Definition staging_source_world : world :=
    {| files := {[ ["data"; "y.tmp"] := [Byte.x61] ]};
       dirs := {[ []; ["data"] ]};
       script := [Fail] |}.

  (** Only [/data] exists; the first system call passes and the second
      fails. *)
Definition second_call_fails_world : world :=
    {| files := ∅;
       dirs := {[ []; ["data"] ]};
       script := [Pass; Fail] |}.

  (** ** [safe_filename] *)

  (** The nine characters unsafe in file names; the fourth is the double
      quote. *)
Definition unsafe_chars : string :=
    Eval cbv in ("<>:" ++ String (ascii_of_nat 34) "/\|?*")%string.

Definition safe_filename (filename replacement : string) : string :=
    let safe_name :=
      fold_left (fun safe_name char => Py.replace char replacement safe_name)
                (list_ascii_of_string unsafe_chars) filename in
    let safe_name := Py.strip ". " safe_name in
    let safe_name := if String.eqb safe_name "" then "unnamed"%string else safe_name in
    if (255 <? String.length safe_name)%nat then Py.slice_to 255 safe_name
    else safe_name.

End FileOps.

(* ===================================================================== *)
(** * Properties                                                          *)
(* ===================================================================== *)

(** ** Rational comparisons *)

Lemma Qlt_bool_iff (x y : Q) : Qlt_bool x y = true <-> (x < y)%Q.
Proof.
  unfold Qlt_bool. rewrite negb_true_iff.
  split; intros H.
  - apply Qnot_le_lt. intros Hle. apply Qle_bool_iff in Hle. congruence.
  - destruct (Qle_bool y x) eqn:E; [|reflexivity].
    apply Qle_bool_iff in E. exfalso. apply (Qlt_not_le _ _ H E).
Qed.

Lemma Qlt_bool_false (x y : Q) : Qlt_bool x y = false <-> (y <= x)%Q.
Proof.
  unfold Qlt_bool. rewrite negb_false_iff. apply Qle_bool_iff.
Qed.

Lemma Qle_bool_false (x y : Q) : Qle_bool x y = false <-> (y < x)%Q.
Proof.
  split; intros H.
  - apply Qnot_le_lt. intros Hle. apply Qle_bool_iff in Hle. congruence.
  - destruct (Qle_bool x y) eqn:E; [|reflexivity].
    apply Qle_bool_iff in E. exfalso. apply (Qlt_not_le _ _ H E).
Qed.

Lemma Qmin_cases (x y : Q) :
  ((x <= y)%Q /\ Qmin x y = x) \/ ((y < x)%Q /\ Qmin x y = y).
Proof.
  unfold Qmin, GenericMinMax.gmin.
  destruct (Qcompare_spec x y) as [E|L|G].
  - left. split; [rewrite E; apply Qle_refl | reflexivity].
  - left. split; [apply Qlt_le_weak; exact L | reflexivity].
  - right. split; [exact G | reflexivity].
Qed.

Lemma Qmax_cases (x y : Q) :
  ((y <= x)%Q /\ Qmax x y = x) \/ ((x < y)%Q /\ Qmax x y = y).
Proof.
  unfold Qmax, GenericMinMax.gmax.
  destruct (Qcompare_spec x y) as [E|L|G].
  - left. split; [rewrite E; apply Qle_refl | reflexivity].
  - right. split; [exact L | reflexivity].
  - left. split; [apply Qlt_le_weak; exact G | reflexivity].
Qed.

Ltac q_minmax :=
  repeat match goal with
  | |- context [Qmin ?a ?b] =>
      let H := fresh "Hmin" in let E := fresh "Emin" in
      destruct (Qmin_cases a b) as [[H E]|[H E]]; rewrite E in *
  | |- context [Qmax ?a ?b] =>
      let H := fresh "Hmax" in let E := fresh "Emax" in
      destruct (Qmax_cases a b) as [[H E]|[H E]]; rewrite E in *
  end.

Ltac q_bool :=
  repeat match goal with
  | H : Qlt_bool _ _ = true |- _ => apply Qlt_bool_iff in H
  | H : Qlt_bool _ _ = false |- _ => apply Qlt_bool_false in H
  | H : Qle_bool _ _ = true |- _ => apply Qle_bool_iff in H
  | H : Qle_bool _ _ = false |- _ => apply Qle_bool_false in H
  | H : Qeq_bool _ _ = true |- _ => apply Qeq_bool_iff in H
  | H : Qeq_bool _ _ = false |- _ => apply Qeq_bool_neq in H
  end.

(** ** The token bucket *)

Section TokenBucketFacts.
Import RateLimiter RateLimiter.TokenBucket.

Lemma refill_capacity now s : capacity (_refill now s) = capacity s.
Proof. unfold _refill. destruct (Qlt_bool _ _); reflexivity. Qed.

Lemma refill_rate_refill now s : refill_rate (_refill now s) = refill_rate s.
Proof. unfold _refill. destruct (Qlt_bool _ _); reflexivity. Qed.

Lemma acquire_capacity now n s : capacity (snd (acquire now n s)) = capacity s.
Proof.
    unfold acquire.
    destruct (Qle_bool _ _); [|destruct (Qeq_bool _ _)]; simpl; apply refill_capacity.
Qed.

Lemma acquire_refill_rate now n s : refill_rate (snd (acquire now n s)) = refill_rate s.
Proof.
    unfold acquire.
    destruct (Qle_bool _ _); [|destruct (Qeq_bool _ _)]; simpl; apply refill_rate_refill.
Qed.

Lemma refill_inv now s : bucket_inv s -> bucket_inv (_refill now s).
Proof.
    unfold bucket_inv, _refill. intros (H0 & H1 & H2).
    destruct (Qlt_bool _ _) eqn:E; simpl; [|auto].
    q_bool.
    assert (0 <= (now - last_refill s) * refill_rate s)%Q
      by (apply Qmult_le_0_compat; [apply Qlt_le_weak; exact E | exact H2]).
    q_minmax; repeat split; try lra.
Qed.

Lemma step_inv o s : nonneg_request o -> bucket_inv s -> bucket_inv (step o s).
Proof.
    intros Hn Hs. destruct o as [now n|now|now]; simpl.
    - pose proof (refill_inv now s Hs) as (H0 & H1 & H2).
      unfold acquire.
      destruct (Qle_bool _ _) eqn:E; [|destruct (Qeq_bool _ _)]; simpl;
        try (repeat split; assumption).
      q_bool. simpl in Hn. unfold bucket_inv; simpl. repeat split; lra.
    - apply refill_inv; exact Hs.
    - destruct Hs as (H0 & H1 & H2). unfold bucket_inv, reset; simpl.
      repeat split; lra.
Qed.

Lemma run_inv ops s :
    Forall nonneg_request ops -> bucket_inv s -> bucket_inv (run ops s).
Proof.
    unfold run. revert s. induction ops as [|o ops IH]; intros s Hf Hs; simpl.
    - exact Hs.
    - inversion Hf; subst. apply IH; [assumption|]. apply step_inv; assumption.
Qed.

Lemma run_capacity ops s : capacity (run ops s) = capacity s.
Proof.
    unfold run. revert s. induction ops as [|o ops IH]; intros s; simpl; [reflexivity|].
    rewrite IH. destruct o; simpl.
    - apply acquire_capacity.
    - apply refill_capacity.
    - reflexivity.
Qed.

End TokenBucketFacts.

(** C3, as stated, fails.  A bucket of capacity 10 built with
    [initial_tokens = 20] and asked for one token at the clock reading of its
    construction keeps its 20 tokens (no time has elapsed, so nothing is
    refilled or clamped) and hands out one of them, leaving 19, where the claim
    has it refilled to [min(10, 20 + 0 * 1) = 10] and left with 9.  And when
    the clock reading is below the last refill ([time.time()] is not
    monotonic) the bucket with 5 tokens grants a request for 5, where the
    claim has it refilled to [min(10, 5 + (-1) * 1) = 4] and the request
    rejected. *)
Lemma C3_counterexample :
  (let s := RateLimiter.TokenBucket.init 100 10 1 (Some 20%Q) in
   let elapsed := (100 - RateLimiter.TokenBucket.last_refill s)%Q in
   let claimed :=
     Qmin (RateLimiter.TokenBucket.capacity s)
          (RateLimiter.TokenBucket.tokens s
           + elapsed * RateLimiter.TokenBucket.refill_rate s)%Q in
   let r := RateLimiter.TokenBucket.acquire 100 1 s in
   (claimed == 10)%Q /\ fst r = RateLimiter.Granted /\
   (RateLimiter.TokenBucket.tokens (snd r) == 19)%Q /\
   ~ (RateLimiter.TokenBucket.tokens (snd r) == claimed - 1)%Q)
  /\
  (let s := RateLimiter.TokenBucket.mk 10 1 5 100 in
   let elapsed := (99 - RateLimiter.TokenBucket.last_refill s)%Q in
   let claimed :=
     Qmin (RateLimiter.TokenBucket.capacity s)
          (RateLimiter.TokenBucket.tokens s
           + elapsed * RateLimiter.TokenBucket.refill_rate s)%Q in
   let r := RateLimiter.TokenBucket.acquire 99 5 s in
   (claimed == 4)%Q /\ (claimed < 5)%Q /\ fst r = RateLimiter.Granted /\
   (RateLimiter.TokenBucket.tokens (snd r) == 0)%Q).
Proof.
  split; cbv zeta.
  - split; [reflexivity|]. split; [reflexivity|]. split; [reflexivity|].
    intros H. vm_compute in H. discriminate H.
  - split; [reflexivity|]. split; [reflexivity|]. split; reflexivity.
Qed.

(** C3 (amended).  [acquire(n)] first refills, and does so only when the
    elapsed time is strictly positive: then the count becomes
    [min(capacity, tokens + elapsed * refill_rate)] and the refill time the
    clock reading; otherwise the bucket is left as it is.  If the count after
    that step is at least [n] the call succeeds and exactly [n] tokens are
    deducted; otherwise, for a non-zero refill rate, the call raises
    [RateLimitExceeded] with [retry_after = (n - tokens) / refill_rate] and
    leaves the count at its value after the refill step (with a zero refill
    rate the division raises [ZeroDivisionError]). *)
Theorem C3_token_bucket_acquire (now n : Q) (s : RateLimiter.TokenBucket.t) :
  let elapsed := (now - RateLimiter.TokenBucket.last_refill s)%Q in
  let refilled := RateLimiter.TokenBucket._refill now s in
  let r := RateLimiter.TokenBucket.acquire now n s in
  (((0 < elapsed)%Q /\
    RateLimiter.TokenBucket.tokens refilled =
      Qmin (RateLimiter.TokenBucket.capacity s)
           (RateLimiter.TokenBucket.tokens s
            + elapsed * RateLimiter.TokenBucket.refill_rate s)%Q /\
    RateLimiter.TokenBucket.last_refill refilled = now)
   \/ ((elapsed <= 0)%Q /\ refilled = s))
  /\
  (((n <= RateLimiter.TokenBucket.tokens refilled)%Q /\
    fst r = RateLimiter.Granted /\
    RateLimiter.TokenBucket.tokens (snd r) =
      (RateLimiter.TokenBucket.tokens refilled - n)%Q)
   \/ ((RateLimiter.TokenBucket.tokens refilled < n)%Q /\
       ~ (RateLimiter.TokenBucket.refill_rate s == 0)%Q /\
       fst r = RateLimiter.RateLimitExceeded
                 ((n - RateLimiter.TokenBucket.tokens refilled)
                  / RateLimiter.TokenBucket.refill_rate s)%Q /\
       snd r = refilled)
   \/ ((RateLimiter.TokenBucket.tokens refilled < n)%Q /\
       (RateLimiter.TokenBucket.refill_rate s == 0)%Q /\
       fst r = RateLimiter.ZeroDivisionError /\
       snd r = refilled)).
Proof.
  cbv zeta. split.
  - unfold RateLimiter.TokenBucket._refill.
    destruct (Qlt_bool 0 (now - RateLimiter.TokenBucket.last_refill s)) eqn:E; q_bool.
    + left. simpl. auto.
    + right. auto.
  - unfold RateLimiter.TokenBucket.acquire.
    rewrite (refill_rate_refill now s).
    destruct (Qle_bool n _) eqn:E; q_bool.
    + left. simpl. auto.
    + destruct (Qeq_bool (RateLimiter.TokenBucket.refill_rate s) 0) eqn:Z; q_bool.
      * right; right. simpl. auto.
      * right; left. simpl. auto.
Qed.

(** C4, as stated, fails in the freshly constructed state: [__init__] stores
    [initial_tokens] and [initial_rate] as given.  A bucket of capacity 10
    built with [initial_tokens = 20] holds 20 tokens, one built with
    [initial_tokens = -1] holds -1, and an adaptive limiter built with
    [initial_rate = 1000] under the default [max_rate = 100] runs at 1000. *)
Lemma C4_counterexample :
  (let b := RateLimiter.TokenBucket.init 0 10 1 (Some 20%Q) in
   ~ (RateLimiter.TokenBucket.tokens b <= RateLimiter.TokenBucket.capacity b)%Q)
  /\
  (let b := RateLimiter.TokenBucket.init 0 10 1 (Some (-1)%Q) in
   ~ (0 <= RateLimiter.TokenBucket.tokens b)%Q)
  /\
  (let a := RateLimiter.Adaptive.init_default 1000 in
   ~ (RateLimiter.Adaptive.current_rate a <= RateLimiter.Adaptive.max_rate a)%Q).
Proof.
  repeat split; cbv zeta; intros H; vm_compute in H; apply H; reflexivity.
Qed.

(** ** The adaptive limiter *)

Section AdaptiveFacts.
Import RateLimiter RateLimiter.Adaptive.

Lemma acquire_keeps_rate now after s :
    current_rate (snd (acquire now after s)) = current_rate s /\
    min_rate (snd (acquire now after s)) = min_rate s /\
    max_rate (snd (acquire now after s)) = max_rate s /\
    increase_factor (snd (acquire now after s)) = increase_factor s /\
    decrease_factor (snd (acquire now after s)) = decrease_factor s /\
    consecutive_successes (snd (acquire now after s)) = consecutive_successes s.
Proof. unfold acquire. destruct (Qeq_bool _ _); simpl; auto 10. Qed.

Lemma step_params o s :
    min_rate (step o s) = min_rate s /\ max_rate (step o s) = max_rate s /\
    increase_factor (step o s) = increase_factor s /\
    decrease_factor (step o s) = decrease_factor s.
Proof.
    destruct o as [now after| |]; simpl.
    - pose proof (acquire_keeps_rate now after s). tauto.
    - unfold report_success. destruct (10 <=? _); simpl; auto.
    - unfold report_rate_limited; simpl; auto.
Qed.

Lemma step_well_formed o s : well_formed s -> well_formed (step o s).
Proof.
    unfold well_formed. destruct (step_params o s) as (-> & -> & -> & ->). auto.
Qed.

Lemma step_rate_inv o s : well_formed s -> rate_inv s -> rate_inv (step o s).
Proof.
    unfold well_formed, rate_inv.
    intros (Hmin & Hmm & Hinc & Hdec) (Hlo & Hhi).
    destruct o as [now after| |]; simpl.
    - destruct (acquire_keeps_rate now after s) as (-> & -> & -> & _). auto.
    - unfold report_success. destruct (10 <=? _); simpl; [|auto].
      assert (0 <= current_rate s * (increase_factor s - 1))%Q
        by (apply Qmult_le_0_compat; lra).
      assert (current_rate s * (increase_factor s - 1)
              == current_rate s * increase_factor s - current_rate s)%Q by ring.
      q_minmax; split; lra.
    - unfold report_rate_limited; simpl.
      assert (0 <= current_rate s * (1 - decrease_factor s))%Q
        by (apply Qmult_le_0_compat; lra).
      assert (current_rate s * (1 - decrease_factor s)
              == current_rate s - current_rate s * decrease_factor s)%Q by ring.
      q_minmax; split; lra.
Qed.

Lemma run_rate_inv ops s :
    well_formed s -> rate_inv s ->
    rate_inv (run ops s) /\ min_rate (run ops s) = min_rate s
    /\ max_rate (run ops s) = max_rate s.
Proof.
    unfold run. revert s. induction ops as [|o ops IH]; intros s Hw Hi; simpl.
    - auto.
    - destruct (IH (step o s) (step_well_formed o s Hw) (step_rate_inv o s Hw Hi))
        as (H1 & H2 & H3).
      destruct (step_params o s) as (E1 & E2 & _).
      rewrite H2, H3, E1, E2. auto.
Qed.

Lemma adaptive_run_app ops1 ops2 s : run (ops1 ++ ops2) s = run ops2 (run ops1 s).
Proof. unfold run. apply fold_left_app. Qed.

  (** [k] successes in a row from a streak of 0, for [k] below 10, change
      nothing but the streak counter. *)
Lemma successes_below_ten (k : nat) s :
    consecutive_successes s = 0 -> (k <= 9)%nat ->
    run (repeat OpReportSuccess k) s
    = set_rate s (current_rate s) (Z.of_nat k) \/ (k = 0%nat /\ run (repeat OpReportSuccess k) s = s).
Proof.
    intros H0. induction k as [|k IH]; intros Hk.
    - right. auto.
    - left.
      replace (S k) with (k + 1)%nat by lia.
      rewrite repeat_app. unfold run in *. rewrite fold_left_app.
      destruct IH as [->|[-> ->]]; [lia| |]; simpl.
      + unfold report_success; simpl.
        destruct (10 <=? Z.of_nat k + 1) eqn:E; [apply Z.leb_le in E; lia|].
        unfold set_rate; simpl. f_equal. lia.
      + unfold report_success. rewrite H0; simpl. reflexivity.
Qed.

End AdaptiveFacts.

(** C4 (amended).  When the constructor arguments are in range the
    invariants hold in every reachable state, the freshly constructed one
    included: a bucket of capacity [cap] with a non-negative refill rate,
    built with [initial_tokens] left out or within [[0, cap]], holds between 0
    and [cap] tokens after any sequence of [acquire] (of non-negative
    counts), [_refill] and [reset] calls; an adaptive limiter with
    [0 <= min_rate <= initial_rate <= max_rate], [increase_factor >= 1] and
    [decrease_factor <= 1] has its rate within [[min_rate, max_rate]] after
    any sequence of [acquire], [report_success] and [report_rate_limited]
    calls. *)
Theorem C4_limiter_invariants
    (now cap rate : Q) (initial_tokens : option Q)
    (bucket_ops : list RateLimiter.TokenBucket.op)
    (initial_rate min_rate max_rate increase_factor decrease_factor : Q)
    (adaptive_ops : list RateLimiter.Adaptive.op) :
  (0 <= cap)%Q -> (0 <= rate)%Q ->
  (forall k, initial_tokens = Some k -> (0 <= k)%Q /\ (k <= cap)%Q) ->
  Forall RateLimiter.TokenBucket.nonneg_request bucket_ops ->
  (0 <= min_rate)%Q -> (min_rate <= initial_rate)%Q -> (initial_rate <= max_rate)%Q ->
  (1 <= increase_factor)%Q -> (decrease_factor <= 1)%Q ->
  (let b := RateLimiter.TokenBucket.run bucket_ops
              (RateLimiter.TokenBucket.init now cap rate initial_tokens) in
   (0 <= RateLimiter.TokenBucket.tokens b)%Q /\
   (RateLimiter.TokenBucket.tokens b <= cap)%Q /\
   RateLimiter.TokenBucket.capacity b = cap)
  /\
  (let a := RateLimiter.Adaptive.run adaptive_ops
              (RateLimiter.Adaptive.init initial_rate min_rate max_rate
                 increase_factor decrease_factor) in
   (min_rate <= RateLimiter.Adaptive.current_rate a)%Q /\
   (RateLimiter.Adaptive.current_rate a <= max_rate)%Q /\
   RateLimiter.Adaptive.min_rate a = min_rate /\
   RateLimiter.Adaptive.max_rate a = max_rate).
Proof.
  intros Hcap Hrate Hinit Hops Hmin Hlo Hhi Hinc Hdec. split; cbv zeta.
  - set (b0 := RateLimiter.TokenBucket.init now cap rate initial_tokens).
    assert (Hb0 : RateLimiter.TokenBucket.bucket_inv b0).
    { unfold RateLimiter.TokenBucket.bucket_inv, b0; simpl.
      destruct initial_tokens as [k|].
      - destruct (Hinit k eq_refl). repeat split; assumption.
      - repeat split; try assumption. apply Qle_refl. }
    pose proof (run_inv bucket_ops b0 Hops Hb0) as (H0 & H1 & _).
    pose proof (run_capacity bucket_ops b0) as Hc.
    change (RateLimiter.TokenBucket.capacity b0) with cap in Hc.
    rewrite Hc in H1. auto.
  - set (a0 := RateLimiter.Adaptive.init initial_rate min_rate max_rate
                 increase_factor decrease_factor).
    assert (Hw : RateLimiter.Adaptive.well_formed a0).
    { unfold RateLimiter.Adaptive.well_formed, a0; simpl. repeat split; lra. }
    assert (Hi : RateLimiter.Adaptive.rate_inv a0).
    { unfold RateLimiter.Adaptive.rate_inv, a0; simpl. split; assumption. }
    destruct (run_rate_inv adaptive_ops a0 Hw Hi) as ((H1 & H2) & E1 & E2).
    rewrite E1, E2 in *. auto.
Qed.

(** A bucket built with the default [initial_tokens] and an adaptive limiter
    built with the default bounds and factors, each after a few calls. *)
Lemma C4_limiter_invariants_witness :
  let bucket_ops :=
    [RateLimiter.TokenBucket.OpAcquire 1 3; RateLimiter.TokenBucket.OpRefill 2;
     RateLimiter.TokenBucket.OpAcquire 2 40; RateLimiter.TokenBucket.OpReset 5] in
  let adaptive_ops :=
    [RateLimiter.Adaptive.OpAcquire 1 2; RateLimiter.Adaptive.OpReportRateLimited;
     RateLimiter.Adaptive.OpReportSuccess] in
  (let b := RateLimiter.TokenBucket.run bucket_ops
              (RateLimiter.TokenBucket.init 0 40 4 None) in
   (0 <= RateLimiter.TokenBucket.tokens b)%Q /\
   (RateLimiter.TokenBucket.tokens b <= 40)%Q /\
   RateLimiter.TokenBucket.capacity b = 40%Q)
  /\
  (let a := RateLimiter.Adaptive.run adaptive_ops
              (RateLimiter.Adaptive.init 1 (1 # 10) 100 (11 # 10) (1 # 2)) in
   ((1 # 10) <= RateLimiter.Adaptive.current_rate a)%Q /\
   (RateLimiter.Adaptive.current_rate a <= 100)%Q /\
   RateLimiter.Adaptive.min_rate a = (1 # 10)%Q /\
   RateLimiter.Adaptive.max_rate a = 100%Q).
Proof.
  cbv zeta.
  apply (C4_limiter_invariants 0 40 4 None _ 1 (1 # 10) 100 (11 # 10) (1 # 2)).
  - vm_compute; discriminate.
  - vm_compute; discriminate.
  - intros k H; discriminate H.
  - repeat constructor; simpl; vm_compute; discriminate.
  - vm_compute; discriminate.
  - vm_compute; discriminate.
  - vm_compute; discriminate.
  - vm_compute; discriminate.
  - vm_compute; discriminate.
Defined.

(** C6.  Counted from a streak of 0 (a fresh limiter, or one that just
    changed its rate), the first nine [report_success()] calls in a row leave
    the rate as it is and only count, and the tenth multiplies the rate by the
    increase factor, clamped to [max_rate], and resets the streak to 0.  In
    any state one [report_rate_limited()] call multiplies the rate by the
    decrease factor, clamped to [min_rate], and resets the streak to 0.  The
    factors default to 1.1 and 0.5. *)
Theorem C6_adaptive_feedback (s : RateLimiter.Adaptive.t) :
  RateLimiter.Adaptive.consecutive_successes s = 0 ->
  (forall k : nat, (k <= 9)%nat ->
     let sk := RateLimiter.Adaptive.run
                 (repeat RateLimiter.Adaptive.OpReportSuccess k) s in
     RateLimiter.Adaptive.current_rate sk = RateLimiter.Adaptive.current_rate s /\
     RateLimiter.Adaptive.consecutive_successes sk = Z.of_nat k)
  /\
  (let s10 := RateLimiter.Adaptive.run
                (repeat RateLimiter.Adaptive.OpReportSuccess 10) s in
   RateLimiter.Adaptive.current_rate s10 =
     Qmin (RateLimiter.Adaptive.max_rate s)
          (RateLimiter.Adaptive.current_rate s
           * RateLimiter.Adaptive.increase_factor s)%Q /\
   RateLimiter.Adaptive.consecutive_successes s10 = 0)
  /\
  (forall s' : RateLimiter.Adaptive.t,
     let s1 := RateLimiter.Adaptive.report_rate_limited s' in
     RateLimiter.Adaptive.current_rate s1 =
       Qmax (RateLimiter.Adaptive.min_rate s')
            (RateLimiter.Adaptive.current_rate s'
             * RateLimiter.Adaptive.decrease_factor s')%Q /\
     RateLimiter.Adaptive.consecutive_successes s1 = 0)
  /\
  (forall initial_rate : Q,
     let s0 := RateLimiter.Adaptive.init_default initial_rate in
     RateLimiter.Adaptive.increase_factor s0 = (11 # 10)%Q /\
     RateLimiter.Adaptive.decrease_factor s0 = (1 # 2)%Q /\
     RateLimiter.Adaptive.consecutive_successes s0 = 0).
Proof.
  intros H0.
  assert (Hten :
    RateLimiter.Adaptive.run (repeat RateLimiter.Adaptive.OpReportSuccess 10) s
    = RateLimiter.Adaptive.report_success
        (RateLimiter.Adaptive.set_rate s (RateLimiter.Adaptive.current_rate s) 9)).
  { replace (repeat RateLimiter.Adaptive.OpReportSuccess 10)
      with (repeat RateLimiter.Adaptive.OpReportSuccess 9
            ++ [RateLimiter.Adaptive.OpReportSuccess]) by reflexivity.
    rewrite (adaptive_run_app (repeat RateLimiter.Adaptive.OpReportSuccess 9)
               [RateLimiter.Adaptive.OpReportSuccess] s).
    destruct (successes_below_ten 9 s H0 (le_n 9)) as [E|[E _]]; [|discriminate E].
    rewrite E. reflexivity. }
  split; [|split; [|split]].
  - intros k Hk. cbv zeta.
    destruct (successes_below_ten k s H0 Hk) as [E|[-> E]]; rewrite E.
    + split; reflexivity.
    + split; [reflexivity|]. simpl. exact H0.
  - cbv zeta. rewrite Hten. split; reflexivity.
  - intros s'. cbv zeta. split; reflexivity.
  - intros initial_rate. cbv zeta. repeat split.
Qed.

(** The limiter the module builds for the Hugging Face API, fresh. *)
Lemma C6_adaptive_feedback_witness :
  let s := RateLimiter.Adaptive.init 1 (1 # 10) 10 (11 # 10) (1 # 2) in
  let s10 := RateLimiter.Adaptive.run
               (repeat RateLimiter.Adaptive.OpReportSuccess 10) s in
  RateLimiter.Adaptive.current_rate s10 =
    Qmin (RateLimiter.Adaptive.max_rate s)
         (RateLimiter.Adaptive.current_rate s
          * RateLimiter.Adaptive.increase_factor s)%Q /\
  RateLimiter.Adaptive.consecutive_successes s10 = 0.
Proof.
  cbv zeta.
  exact (proj1 (proj2 (C6_adaptive_feedback
           (RateLimiter.Adaptive.init 1 (1 # 10) 10 (11 # 10) (1 # 2)) eq_refl))).
Defined.

(** ** The sliding window *)

Section SlidingWindowFacts.
Import RateLimiter RateLimiter.SlidingWindow.

Lemma popleft_while_split cutoff reqs :
    exists evicted,
      reqs = evicted ++ popleft_while cutoff reqs /\
      Forall (fun r => (r <= cutoff)%Q) evicted.
Proof.
    induction reqs as [|r rest IH]; simpl.
    - exists []. split; [reflexivity|constructor].
    - destruct (Qle_bool r cutoff) eqn:E.
      + destruct IH as (ev & Heq & Hall). exists (r :: ev). split.
        * simpl. f_equal. exact Heq.
        * constructor; [apply Qle_bool_iff; exact E | exact Hall].
      + exists []. split; [reflexivity|constructor].
Qed.

Lemma popleft_while_head cutoff reqs r rest :
    popleft_while cutoff reqs = r :: rest -> (cutoff < r)%Q.
Proof.
    induction reqs as [|a l IH]; simpl; [discriminate|].
    destruct (Qle_bool a cutoff) eqn:E; [exact IH|].
    intros [= -> ->]. apply Qle_bool_false. exact E.
Qed.

Lemma popleft_while_sorted cutoff reqs :
    StronglySorted Qle reqs -> StronglySorted Qle (popleft_while cutoff reqs).
Proof.
    induction 1 as [|a l Hs IH Ha]; simpl; [constructor|].
    destruct (Qle_bool a cutoff); [exact IH | constructor; assumption].
Qed.

Lemma popleft_while_fresh cutoff reqs :
    StronglySorted Qle reqs ->
    Forall (fun r => (cutoff < r)%Q) (popleft_while cutoff reqs).
Proof.
    intros Hs. pose proof (popleft_while_sorted cutoff reqs Hs) as Hs'.
    destruct (popleft_while cutoff reqs) as [|r rest] eqn:E; [constructor|].
    pose proof (popleft_while_head _ _ _ _ E) as Hr.
    inversion Hs' as [|? ? _ Hall]; subst.
    constructor; [exact Hr|].
    eapply Forall_impl; [exact Hall|]. simpl. intros x Hx. lra.
Qed.

Lemma popleft_while_keep cutoff t k :
    (cutoff < t)%Q -> popleft_while cutoff (repeat t k) = repeat t k.
Proof.
    intros H. destruct k as [|k]; simpl; [reflexivity|].
    destruct (Qle_bool t cutoff) eqn:E; [|reflexivity].
    apply Qle_bool_iff in E. lra.
Qed.

Lemma popleft_while_all cutoff t k :
    (t <= cutoff)%Q -> popleft_while cutoff (repeat t k) = [].
Proof.
    intros H. induction k as [|k IH]; simpl; [reflexivity|].
    destruct (Qle_bool t cutoff) eqn:E; [exact IH|].
    apply Qle_bool_false in E. lra.
Qed.

Lemma burst_from N W t (k j : nat) :
    (0 < W)%Q -> (Z.of_nat (j + k) <= N)%Z ->
    burst k t (mk N W (repeat t j))
    = (repeat Granted k, mk N W (repeat t (j + k))).
Proof.
    intros HW. revert j. induction k as [|k IH]; intros j Hj; simpl.
    - rewrite Nat.add_0_r. reflexivity.
    - unfold acquire, _cleanup_old_requests; simpl.
      rewrite popleft_while_keep by lra.
      rewrite repeat_length.
      destruct (N <=? Z.of_nat j) eqn:E; [apply Z.leb_le in E; lia|].
      replace (repeat t j ++ [t]) with (repeat t (S j))
        by (rewrite <- (repeat_cons j t); reflexivity).
      rewrite IH by lia.
      replace (S j + k)%nat with (j + S k)%nat by lia. reflexivity.
Qed.

End SlidingWindowFacts.

(** C5.  For a limit [N >= 1] over a window of [W > 0] seconds.  On a
    time-ordered deque every [acquire] first pops, from the front, the
    timestamps at or before [now - W], so that none older than [now - W] is
    kept; it then grants and records [now] when fewer than [N] are kept, and
    otherwise raises [RateLimitExceeded] with
    [retry_after = oldest + W - now], which is positive.  From a fresh limiter
    a burst of exactly [N] acquires at one instant all succeed, the next
    acquire at that instant is rejected with a positive [retry_after], and an
    acquire made once the window has passed succeeds. *)
Theorem C5_sliding_window (N : Z) (W : Q) :
  (1 <= N)%Z -> (0 < W)%Q ->
  (forall (reqs : list Q) (now : Q),
     StronglySorted Qle reqs ->
     let s := RateLimiter.SlidingWindow.mk N W reqs in
     let kept := RateLimiter.SlidingWindow.requests
                   (RateLimiter.SlidingWindow._cleanup_old_requests now s) in
     let r := RateLimiter.SlidingWindow.acquire now s in
     (exists evicted,
        reqs = evicted ++ kept /\ Forall (fun x => (x <= now - W)%Q) evicted) /\
     Forall (fun x => (now - W < x)%Q) kept /\
     ((Z.of_nat (List.length kept) < N /\ fst r = RateLimiter.Granted /\
       RateLimiter.SlidingWindow.requests (snd r) = kept ++ [now])
      \/
      (exists oldest rest,
         kept = oldest :: rest /\ N <= Z.of_nat (List.length kept) /\
         fst r = RateLimiter.RateLimitExceeded (oldest + W - now)%Q /\
         (0 < oldest + W - now)%Q /\
         RateLimiter.SlidingWindow.requests (snd r) = kept)))
  /\
  (forall t : Q,
     let b := RateLimiter.SlidingWindow.burst (Z.to_nat N) t
                (RateLimiter.SlidingWindow.init N W) in
     fst b = repeat RateLimiter.Granted (Z.to_nat N) /\
     RateLimiter.SlidingWindow.requests (snd b) = repeat t (Z.to_nat N) /\
     fst (RateLimiter.SlidingWindow.acquire t (snd b))
       = RateLimiter.RateLimitExceeded (t + W - t)%Q /\
     (0 < t + W - t)%Q /\
     (forall t' : Q, (t + W <= t')%Q ->
        fst (RateLimiter.SlidingWindow.acquire t' (snd b)) = RateLimiter.Granted)).
Proof.
  intros HN HW. split.
  - intros reqs now Hs. cbv zeta.
    unfold RateLimiter.SlidingWindow.acquire,
      RateLimiter.SlidingWindow._cleanup_old_requests; simpl.
    split; [apply popleft_while_split|].
    split; [apply popleft_while_fresh; exact Hs|].
    destruct (N <=? _) eqn:E.
    + apply Z.leb_le in E. right.
      destruct (RateLimiter.SlidingWindow.popleft_while (now - W) reqs)
        as [|oldest rest] eqn:K; [simpl in E; lia|].
      exists oldest, rest. simpl.
      pose proof (popleft_while_head _ _ _ _ K).
      repeat split; [exact E | lra].
    + apply Z.leb_gt in E. left. simpl. auto.
  - intros t. cbv zeta.
    unfold RateLimiter.SlidingWindow.init.
    change (@nil Q) with (repeat t 0).
    rewrite (burst_from N W t (Z.to_nat N) 0 HW) by lia. simpl.
    split; [reflexivity|]. split; [reflexivity|].
    unfold RateLimiter.SlidingWindow.acquire,
      RateLimiter.SlidingWindow._cleanup_old_requests; simpl.
    split; [|split; [lra|]].
    + rewrite popleft_while_keep by lra. rewrite repeat_length.
      destruct (N <=? _) eqn:E; [|apply Z.leb_gt in E; lia].
      destruct (Z.to_nat N) as [|n] eqn:K; [lia|]. reflexivity.
    + intros t' Ht'. rewrite popleft_while_all by lra. simpl.
      change (Z.of_nat 0) with 0.
      destruct (N <=? 0) eqn:E; [apply Z.leb_le in E; lia|]. reflexivity.
Qed.

(** The limiter [create_general_api_rate_limiter(3)]: three requests per
    sixty seconds, a burst at clock reading 1000. *)
Lemma C5_sliding_window_witness :
  let b := RateLimiter.SlidingWindow.burst 3 1000
             (RateLimiter.SlidingWindow.init 3 60) in
  fst b = repeat RateLimiter.Granted 3 /\
  RateLimiter.SlidingWindow.requests (snd b) = repeat 1000%Q 3 /\
  fst (RateLimiter.SlidingWindow.acquire 1000 (snd b))
    = RateLimiter.RateLimitExceeded (1000 + 60 - 1000)%Q /\
  (0 < 1000 + 60 - 1000)%Q /\
  (forall t' : Q, (1000 + 60 <= t')%Q ->
     fst (RateLimiter.SlidingWindow.acquire t' (snd b)) = RateLimiter.Granted).
Proof.
  cbv zeta.
  refine (proj2 (C5_sliding_window 3 60 _ _) 1000%Q).
  - lia.
  - reflexivity.
Defined.

(** ** The retry loop *)

Section RetryFacts.
Import Retry.
Context {A : Type}.
Variable func : nat -> call_result A.
Variable errs : nat -> exn.
Variable rnd : nat -> Q.
Variable s : RetryStrategy.

Hypothesis always_fails : forall k, func k = Raised (errs k).
Hypothesis all_retryable :
    forall k, isinstance (errs k) (retryable_exceptions s) = true.
Hypothesis delays_computed :
    forall k, (Z.of_nat k < max_attempts s)%Z ->
      exists d, get_delay s (Z.of_nat k) (errs k) (rnd k) = inr d.

  (** With [n] retries left the loop makes [n + 1] more calls and raises
      [RetryError] with the attempt count at its maximum. *)
Lemma retry_loop_exhausts (n : nat) :
    forall (fuel calls : nat) (slept : list Q) (ctx : RetryContext),
      strategy ctx = s ->
      attempt ctx = Z.of_nat calls ->
      max_attempts s = Z.of_nat (calls + n) ->
      (n < fuel)%nat ->
      exists r,
        retry_loop fuel func rnd calls slept ctx = Some (Finished r) /\
        invocations r = (calls + n + 1)%nat /\
        result r = inr {| attempts := max_attempts s;
                          last_exception := errs (calls + n)%nat |} /\
        List.length (sleeps r) = (List.length slept + n)%nat.
Proof using always_fails all_retryable delays_computed.
    induction n as [|n IH]; intros fuel calls slept ctx Hs Ha Hm Hf.
    - destruct fuel as [|fuel]; [lia|]. simpl.
      rewrite always_fails. unfold context_should_retry, should_retry.
      rewrite Hs.
      destruct (max_attempts s <=? attempt ctx) eqn:E;
        [|apply Z.leb_gt in E; lia].
      eexists. split; [reflexivity|]. simpl.
      split; [lia|]. split; [|lia].
      unfold get_final_exception; simpl. rewrite last_last.
      rewrite Nat.add_0_r. f_equal. f_equal. lia.
    - destruct fuel as [|fuel]; [lia|]. simpl.
      rewrite always_fails. unfold context_should_retry, should_retry.
      rewrite Hs.
      destruct (max_attempts s <=? attempt ctx) eqn:E;
        [apply Z.leb_le in E; lia|].
      rewrite all_retryable.
      destruct (delays_computed calls) as (d & Hd); [lia|].
      rewrite Ha, Hd.
      match goal with
      | |- context [retry_loop fuel func rnd (S calls) ?sl ?c] =>
          destruct (IH fuel (S calls) sl c) as (r & H1 & H2 & H3 & H4);
            [reflexivity | simpl; lia | simpl; lia | lia |]
      end.
      exists r. split; [exact H1|].
      split; [lia|]. split.
      + rewrite H3. replace (S calls + n)%nat with (calls + S n)%nat by lia.
        reflexivity.
      + rewrite H4. rewrite length_app. simpl. lia.
Qed.

End RetryFacts.

(** C2, as stated, fails for a strategy whose whitelist does not hold the
    error raised.  Under [create_file_operation_retry_strategy()]
    ([max_attempts = 3], retryable: [OSError], [IOError], [PermissionError])
    an operation that always raises [ValueError] is invoked once, not four
    times, and the [RetryError] raised records 0 attempts, not 3. *)
Lemma C2_counterexample :
  let e := Retry.mk_exn Retry.ValueError "bad input" in
  let func := fun _ : nat => @Retry.Raised unit e in
  let s := Retry.create_file_operation_retry_strategy in
  Retry.max_attempts s = 3 /\
  Retry.retry_async 10 func (fun _ => 0%Q) (Some s)
  = Some (Retry.Finished
            (Retry.mk_run
               (inr {| Retry.attempts := 0; Retry.last_exception := e |})
               1 []
               {| Retry.strategy := s; Retry.attempt := 0;
                  Retry.exceptions := [e]; Retry.total_delay := 0 |})).
Proof. split; reflexivity. Qed.

(** C2 (amended).  For every strategy of the module with
    [max_attempts = N >= 0] and every operation that fails on all
    invocations with errors the strategy's whitelist accepts (the default
    whitelist accepts every [Exception]), the delay of each of the [N]
    retries being computed without an arithmetic error, [retry_async] invokes
    the operation exactly [N + 1] times, sleeping [N] times in between, and
    then raises a [RetryError] whose attempt count is [N] and whose
    [last_exception] is the error of the last invocation.  With
    [max_attempts = 0] that is one invocation, whose failure is terminal. *)
Theorem C2_retry_exhaustion {A : Type} (s : Retry.RetryStrategy)
    (func : nat -> Retry.call_result A) (errs : nat -> Retry.exn)
    (rnd : nat -> Q) (N : Z) (fuel : nat) :
  Retry.max_attempts s = N ->
  (0 <= N)%Z ->
  (forall k, func k = Retry.Raised (errs k)) ->
  (forall k, Retry.isinstance (errs k) (Retry.retryable_exceptions s) = true) ->
  (forall k, (Z.of_nat k < N)%Z ->
     exists d, Retry.get_delay s (Z.of_nat k) (errs k) (rnd k) = inr d) ->
  (Z.to_nat N < fuel)%nat ->
  exists r,
    Retry.retry_async fuel func rnd (Some s) = Some (Retry.Finished r) /\
    Retry.invocations r = (Z.to_nat N + 1)%nat /\
    Retry.result r = inr {| Retry.attempts := N;
                            Retry.last_exception := errs (Z.to_nat N) |} /\
    List.length (Retry.sleeps r) = Z.to_nat N.
Proof.
  intros HN H0 Hfail Hretry Hdelay Hfuel.
  unfold Retry.retry_async.
  destruct (retry_loop_exhausts func errs rnd s Hfail Hretry
              ltac:(rewrite HN; exact Hdelay) (Z.to_nat N)
              fuel 0%nat [] (Retry.new_context s))
    as (r & H1 & H2 & H3 & H4); simpl; try reflexivity; try lia.
  exists r. rewrite HN in H3. auto.
Qed.

(** Three retries with the delays 1, 2 and 4 of the default exponential
    backoff (capped at 3, no jitter), then [RetryError(3, e)]. *)
Lemma C2_retry_exhaustion_witness :
  let e := Retry.mk_exn Retry.RuntimeError "boom" in
  exists r,
    Retry.retry_async 5 (fun _ => @Retry.Raised unit e) (fun _ => 0%Q)
      (Some (Retry.ExponentialBackoffStrategy 3 1 3 2 false [Retry.Exception]))
    = Some (Retry.Finished r) /\
    Retry.invocations r = 4%nat /\
    Retry.result r = inr {| Retry.attempts := 3; Retry.last_exception := e |} /\
    List.length (Retry.sleeps r) = 3%nat.
Proof.
  cbv zeta.
  apply (C2_retry_exhaustion
           (Retry.ExponentialBackoffStrategy 3 1 3 2 false [Retry.Exception])
           (fun _ => @Retry.Raised unit (Retry.mk_exn Retry.RuntimeError "boom"))
           (fun _ => Retry.mk_exn Retry.RuntimeError "boom")
           (fun _ => 0%Q) 3 5).
  - reflexivity.
  - lia.
  - intros k; reflexivity.
  - intros k; reflexivity.
  - intros k Hk. destruct k as [|[|[|k]]]; [eexists; vm_compute; reflexivity..|lia].
  - simpl; lia.
Defined.

(** ** The scanner *)

Section ScannerFacts.
Import Py Scanner.

Lemma analyze_file_spec self fs p mf :
    _analyze_file self fs p = Some mf <->
    exists size, accepted self fs p size /\ mf = record_of p size.
Proof.
    unfold _analyze_file, accepted, record_of, get_file_size_limits.
    destruct (should_skip_file (settings self) p) eqn:Hskip.
    { split; [discriminate|]. intros (size & (H & _) & _). discriminate H. }
    destruct (_is_potential_media_file p) eqn:Hext; simpl.
    2:{ split; [discriminate|]. intros (size & (_ & H & _) & _). discriminate H. }
    destruct (get_file_info fs p) as [size|] eqn:Hstat.
    2:{ split; [discriminate|]. intros (size & (_ & _ & H & _) & _). discriminate H. }
    destruct (size <? min_file_size_mb (settings self) * 1024 * 1024)%Z eqn:Hmin.
    { apply Z.ltb_lt in Hmin. split; [discriminate|].
      intros (size' & (_ & _ & H & Hle & _) & _). injection H as <-. lia. }
    apply Z.ltb_ge in Hmin.
    destruct (0 <? max_file_size_gb (settings self))%Z eqn:Hgb.
    - apply Z.ltb_lt in Hgb.
      destruct (max_file_size_gb (settings self) * 1024 * 1024 * 1024 =? 0)%Z eqn:Hz;
        [apply Z.eqb_eq in Hz; lia|]. simpl.
      destruct (max_file_size_gb (settings self) * 1024 * 1024 * 1024 <? size)%Z eqn:Hmax.
      { apply Z.ltb_lt in Hmax. split; [discriminate|].
        intros (size' & (_ & _ & H & _ & Hle & _) & _). injection H as <-.
        specialize (Hle Hgb). lia. }
      apply Z.ltb_ge in Hmax.
      destruct (_verify_media_file self fs p) eqn:Hv; simpl.
      + split.
        * intros [= <-]. exists size. repeat split; auto.
        * intros (size' & (_ & _ & H & _) & ->). injection H as <-. reflexivity.
      + split; [discriminate|].
        intros (size' & (_ & _ & _ & _ & _ & H) & _). discriminate H.
    - apply Z.ltb_ge in Hgb.
      destruct (_verify_media_file self fs p) eqn:Hv; simpl.
      + split.
        * intros [= <-]. exists size. repeat split; auto. lia.
        * intros (size' & (_ & _ & H & _) & ->). injection H as <-. reflexivity.
      + split; [discriminate|].
        intros (size' & (_ & _ & _ & _ & _ & H) & _). discriminate H.
Qed.

Lemma analyze_file_path self fs p mf :
    _analyze_file self fs p = Some mf -> file_path (info mf) = p.
Proof.
    intros H. apply analyze_file_spec in H as (size & _ & ->). reflexivity.
Qed.

  (** What discovery finds, whatever the enumeration order. *)
Lemma discover_files_spec listing fs directory recursive p :
    (forall l, Permutation (listing l) l) ->
    p ∈ _discover_files listing fs directory recursive <->
    in_scope fs directory recursive p.
Proof.
    intros Hl. unfold _discover_files, in_scope, rglob, glob.
    assert (Hdom : p ∈ (map_to_list fs).*1 <-> is_Some (fs !! p)).
    { rewrite list_elem_of_fmap. split.
      - intros ([q e] & -> & H). apply elem_of_map_to_list in H. simpl. eauto.
      - intros [e H]. exists (p, e). split; [reflexivity|].
        apply elem_of_map_to_list. exact H. }
    assert (Hfile : isfile fs p = true -> is_Some (fs !! p)).
    { unfold isfile. destruct (fs !! p); [eauto|discriminate]. }
    destruct recursive;
      rewrite list_elem_of_filter, Hl, list_elem_of_filter, Hdom.
    - split; [intros (? & ? & ?)|intros (? & ? & ?)]; repeat split; auto; discriminate.
    - split; [intros (? & (? & ?) & ?)|intros (? & ? & ?)]; repeat split; auto.
Qed.

Lemma discover_files_NoDup listing fs directory recursive :
    (forall l, Permutation (listing l) l) ->
    NoDup (_discover_files listing fs directory recursive).
Proof.
    intros Hl. unfold _discover_files, rglob, glob.
    destruct recursive; apply NoDup_filter; rewrite Hl; apply NoDup_filter;
      apply NoDup_fst_map_to_list.
Qed.

Lemma discover_files_perm l1 l2 fs directory recursive :
    (forall l, Permutation (l1 l) l) -> (forall l, Permutation (l2 l) l) ->
    _discover_files l1 fs directory recursive
    ≡ₚ _discover_files l2 fs directory recursive.
Proof.
    intros H1 H2. unfold _discover_files, rglob, glob.
    destruct recursive; rewrite H1, H2; reflexivity.
Qed.

Lemma omap_analyze_NoDup self fs (l : list Path) :
    NoDup l -> NoDup (omap id (_analyze_file self fs <$> l)).
Proof.
    induction 1 as [|p l Hp Hl IH]; simpl; [constructor|].
    destruct (_analyze_file self fs p) as [mf|] eqn:E; simpl; [|exact IH].
    constructor; [|exact IH].
    intros Hin. apply list_elem_of_omap in Hin as (o & Ho & Hid).
    simpl in Hid. subst o.
    apply list_elem_of_fmap in Ho as (q & Hq & Hql).
    symmetry in Hq.
    apply analyze_file_path in Hq. apply analyze_file_path in E.
    apply Hp. congruence.
Qed.

  (** The scan with an explicit positive concurrency limit on an existing
      directory. *)
Lemma scan_directory_unfold self sch fs directory recursive n :
    isdir fs directory = true -> (0 < n)%Z ->
    scan_directory self sch fs directory recursive (Some n)
    = inr (omap id (as_completed sch
             (_analyze_file self fs
                <$> _discover_files (listing sch) fs directory recursive))).
Proof.
    intros Hd Hn. unfold scan_directory.
    assert (He : exists_ fs directory = true).
    { unfold exists_, isdir in *. destruct (fs !! directory); [reflexivity|discriminate]. }
    rewrite He, Hd. simpl.
    destruct (n =? 0)%Z eqn:E0; [apply Z.eqb_eq in E0; lia|].
    destruct (n <? 0)%Z eqn:E1; [apply Z.ltb_lt in E1; lia|].
    reflexivity.
Qed.

End ScannerFacts.

(** C1, as stated, fails: the scan yields a file only when it has a
    recognized media extension and, besides, passes the content check.  Under
    the default settings a 20 MiB [movie.mkv] that holds text is not
    skip-matched, has a recognized extension and is within the size window,
    and a 20 MiB [clip.bin] that holds a Matroska stream is not skip-matched,
    passes the content check and is within the size window; the scan yields
    neither. *)
Lemma C1_counterexample :
  let self := Scanner.sample_scanner in
  let fs := Scanner.mismatch_fs in
  let movie := ["library"; "movie.mkv"]%string in
  let clip := ["library"; "clip.bin"]%string in
  (Scanner.should_skip_file (Scanner.settings self) movie = false /\
   Scanner._is_potential_media_file movie = true /\
   Scanner.get_file_info fs movie = Some Scanner.twenty_mib /\
   Scanner.get_file_size_limits (Scanner.settings self) = (10485760, None) /\
   (10485760 <= Scanner.twenty_mib)%Z)
  /\
  (Scanner.should_skip_file (Scanner.settings self) clip = false /\
   Scanner._verify_media_file self fs clip = true /\
   Scanner.get_file_info fs clip = Some Scanner.twenty_mib)
  /\
  Scanner.scan_directory self Scanner.in_order fs ["library"%string] true (Some 10)
  = inr [].
Proof.
  cbv zeta. repeat split; try (vm_compute; reflexivity).
  vm_compute. discriminate.
Qed.

(** C1 (amended).  For every file system, scanner and schedule, a scan of an
    existing directory with an explicit positive [max_concurrent] yields,
    once each, exactly the records of the regular files below the directory
    (directly inside it when not recursive) that (a) are not matched by any
    case-insensitive substring skip pattern, (b) have a recognized media
    extension and pass the content check as well, and (c) answer [stat] with
    a size of at least the configured minimum and at most the configured
    maximum, if one is set.  Which files are yielded does not depend on the
    order in which the directory is enumerated or the analyses complete: any
    two schedules yield the same records up to order. *)
Theorem C1_scan_yields (self : Scanner.MediaFileScanner) (sch : Scanner.Schedule)
    (fs : gmap (list string) Scanner.entry) (directory : Py.Path)
    (recursive : bool) (n : Z) :
  Scanner.fair sch ->
  Scanner.isdir fs directory = true ->
  (0 < n)%Z ->
  exists yielded,
    Scanner.scan_directory self sch fs directory recursive (Some n) = inr yielded /\
    (forall mf,
       mf ∈ yielded <->
       exists p size,
         Scanner.in_scope fs directory recursive p /\
         Scanner.accepted self fs p size /\
         mf = Scanner.record_of p size) /\
    NoDup yielded /\
    (forall sch', Scanner.fair sch' ->
       exists yielded',
         Scanner.scan_directory self sch' fs directory recursive (Some n)
         = inr yielded' /\
         yielded ≡ₚ yielded').
Proof.
  intros [Hl Hc] Hd Hn.
  rewrite (scan_directory_unfold self sch fs directory recursive n Hd Hn).
  eexists. split; [reflexivity|]. split; [|split].
  - intros mf. rewrite Hc. rewrite list_elem_of_omap. split.
    + intros (o & Ho & Hid). simpl in Hid. subst o.
      apply list_elem_of_fmap in Ho as (p & Hp & Hin). symmetry in Hp.
      apply discover_files_spec in Hin; [|exact Hl].
      apply analyze_file_spec in Hp as (size & Hacc & ->).
      exists p, size. auto.
    + intros (p & size & Hscope & Hacc & ->).
      exists (Some (Scanner.record_of p size)). split; [|reflexivity].
      apply list_elem_of_fmap. exists p. split.
      * symmetry. apply analyze_file_spec. exists size. auto.
      * apply discover_files_spec; assumption.
  - rewrite Hc. apply omap_analyze_NoDup. apply discover_files_NoDup. exact Hl.
  - intros sch' [Hl' Hc'].
    rewrite (scan_directory_unfold self sch' fs directory recursive n Hd Hn).
    eexists. split; [reflexivity|].
    rewrite Hc, Hc'.
    rewrite (discover_files_perm (Scanner.listing sch) (Scanner.listing sch')
               fs directory recursive Hl Hl').
    reflexivity.
Qed.

Lemma reversed_fair : Scanner.fair Scanner.reversed.
Proof.
  split; intros l; simpl; symmetry; apply Permutation_rev.
Defined.

Lemma in_order_fair : Scanner.fair Scanner.in_order.
Proof. split; intros l; reflexivity. Defined.

(** The scenario directory with a 20 MiB [movie.mkv], enumerated and
    completed in reverse. *)
Lemma C1_scan_yields_witness :
  let movie := {| Scanner.st_size := Some Scanner.twenty_mib;
                  Scanner.header := Some Scanner.mkv_header |} in
  let other := {| Scanner.st_size := Some 120;
                  Scanner.header := Some Scanner.text_header |} in
  let fs := Scanner.scenario_fs movie movie other in
  exists yielded,
    Scanner.scan_directory Scanner.sample_scanner Scanner.reversed fs
      ["library"%string] true (Some 10) = inr yielded /\
    (forall mf,
       mf ∈ yielded <->
       exists p size,
         Scanner.in_scope fs ["library"%string] true p /\
         Scanner.accepted Scanner.sample_scanner fs p size /\
         mf = Scanner.record_of p size) /\
    NoDup yielded /\
    (forall sch', Scanner.fair sch' ->
       exists yielded',
         Scanner.scan_directory Scanner.sample_scanner sch' fs
           ["library"%string] true (Some 10) = inr yielded' /\
         yielded ≡ₚ yielded').
Proof.
  cbv zeta.
  apply (C1_scan_yields Scanner.sample_scanner Scanner.reversed).
  - exact reversed_fair.
  - vm_compute. reflexivity.
  - lia.
Defined.

(** C9, as stated, fails: the default [min_file_size_mb] is 10, so the
    2 MiB [movie.mkv] is rejected as too small and the scan yields nothing.
    (Called without [max_concurrent], the scan does not get that far: it reads
    [settings.max_concurrent_api_calls], which [Settings] does not declare.) *)
Lemma C9_counterexample :
  let movie := {| Scanner.st_size := Some Scanner.two_mib;
                  Scanner.header := Some Scanner.mkv_header |} in
  let readme := {| Scanner.st_size := Some 120;
                   Scanner.header := Some Scanner.text_header |} in
  let fs := Scanner.scenario_fs movie movie readme in
  Scanner.two_mib = 2097152 /\
  Scanner.get_file_size_limits Scanner.default_settings = (10485760, None) /\
  Scanner._verify_media_file Scanner.sample_scanner fs
    ["library"; "movie.mkv"]%string = true /\
  Scanner.scan_directory Scanner.sample_scanner Scanner.in_order fs
    ["library"%string] true (Some 10) = inr [] /\
  Scanner.scan_directory Scanner.sample_scanner Scanner.in_order fs
    ["library"%string] true None
  = inl (Scanner.AttributeError "max_concurrent_api_calls").
Proof. cbv zeta. repeat split; vm_compute; reflexivity. Qed.

(** C9 (amended).  For the directory holding [movie.mkv] (valid video magic
    bytes), [movie.sample.mkv] and [readme.txt], a recursive scan under the
    default settings with an explicit positive [max_concurrent] yields exactly
    one result, for [movie.mkv], a video file by its extension, provided
    [movie.mkv] is at least 10 MiB (the default minimum size) large. *)
Theorem C9_scenario (magic : list Byte.byte -> option string)
    (sch : Scanner.Schedule) (size n : Z) (hdr : list Byte.byte)
    (mime : string) (sample readme : Scanner.FileEntry) :
  Scanner.fair sch ->
  (0 < n)%Z ->
  (10 * 1024 * 1024 <= size)%Z ->
  hdr <> [] ->
  magic hdr = Some mime ->
  Py.startswith "video/" mime = true ->
  let self := {| Scanner.settings := Scanner.default_settings;
                 Scanner.magic_mime := magic |} in
  let movie := {| Scanner.st_size := Some size; Scanner.header := Some hdr |} in
  let fs := Scanner.scenario_fs movie sample readme in
  Scanner.scan_directory self sch fs ["library"%string] true (Some n)
  = inr [Scanner.record_of ["library"; "movie.mkv"]%string size] /\
  Scanner.is_video_file ["library"; "movie.mkv"]%string = true /\
  Scanner.file_extension
    (Scanner.info (Scanner.record_of ["library"; "movie.mkv"]%string size))
  = ".mkv"%string.
Proof.
  intros [Hl Hc] Hn Hsize Hhdr Hmagic Hmime. cbv zeta.
  split; [|split; vm_compute; reflexivity].
  rewrite scan_directory_unfold; [|vm_compute; reflexivity|exact Hn].
  f_equal. apply Permutation_singleton_r.
  rewrite Hc.
  rewrite (discover_files_perm (Scanner.listing sch) (fun l => l)) by auto.
  set (self := {| Scanner.settings := Scanner.default_settings;
                  Scanner.magic_mime := magic |}).
  set (fs := Scanner.scenario_fs _ sample readme).
  assert (Hd : Scanner._discover_files (fun l => l) fs ["library"%string] true
               = [["library"; "movie.sample.mkv"]%string;
                  ["library"; "movie.mkv"]%string;
                  ["library"; "readme.txt"]%string])
    by (vm_compute; reflexivity).
  rewrite Hd. simpl fmap.
  assert (Hs : Scanner._analyze_file self fs ["library"; "movie.sample.mkv"]%string = None)
    by (vm_compute; reflexivity).
  assert (Hr : Scanner._analyze_file self fs ["library"; "readme.txt"]%string = None)
    by (vm_compute; reflexivity).
  assert (Hm : Scanner._analyze_file self fs ["library"; "movie.mkv"]%string
               = Some (Scanner.record_of ["library"; "movie.mkv"]%string size)).
  { apply analyze_file_spec. exists size. split; [|reflexivity].
    unfold Scanner.accepted.
    split; [vm_compute; reflexivity|].
    split; [vm_compute; reflexivity|].
    split; [vm_compute; reflexivity|].
    split; [simpl; lia|].
    split; [simpl; lia|].
    unfold Scanner._verify_media_file.
    replace (fs !! ["library"; "movie.mkv"]%string)
      with (Some (Scanner.File {| Scanner.st_size := Some size;
                                  Scanner.header := Some hdr |}))
      by (vm_compute; reflexivity).
    unfold self. cbn [Scanner.header Scanner.magic_mime].
    destruct hdr as [|b hdr']; [congruence|].
    rewrite Hmagic. unfold Scanner.media_mimes. cbn [existsb]. rewrite Hmime. reflexivity. }
  rewrite Hs, Hr, Hm. reflexivity.
Qed.

(** A 20 MiB [movie.mkv] opening with the EBML magic number, scanned with
    the reversed schedule. *)
Lemma C9_scenario_witness :
  let movie := {| Scanner.st_size := Some Scanner.twenty_mib;
                  Scanner.header := Some Scanner.mkv_header |} in
  let readme := {| Scanner.st_size := Some 120;
                   Scanner.header := Some Scanner.text_header |} in
  let fs := Scanner.scenario_fs movie movie readme in
  Scanner.scan_directory Scanner.sample_scanner Scanner.reversed fs
    ["library"%string] true (Some 10)
  = inr [Scanner.record_of ["library"; "movie.mkv"]%string Scanner.twenty_mib] /\
  Scanner.is_video_file ["library"; "movie.mkv"]%string = true /\
  Scanner.file_extension
    (Scanner.info (Scanner.record_of ["library"; "movie.mkv"]%string
                     Scanner.twenty_mib))
  = ".mkv"%string.
Proof.
  cbv zeta.
  apply (C9_scenario Scanner.sample_magic Scanner.reversed Scanner.twenty_mib 10
           Scanner.mkv_header "video/x-matroska").
  - exact reversed_fair.
  - lia.
  - vm_compute. discriminate.
  - discriminate.
  - reflexivity.
  - reflexivity.
Defined.

(** ** Strings and paths *)

Section PathFacts.
Import Py.
Local Open Scope string_scope.

Lemma append_cons (x : ascii) (a b : string) : String x a ++ b = String x (a ++ b).
Proof. reflexivity. Qed.

Lemma append_nil (b : string) : "" ++ b = b.
Proof. reflexivity. Qed.

Lemma append_assoc (a b c : string) : (a ++ b) ++ c = a ++ (b ++ c).
Proof.
    induction a as [|x a IH]; [reflexivity|].
    rewrite !append_cons, IH. reflexivity.
Qed.

Lemma append_length (a b : string) :
    String.length (a ++ b) = (String.length a + String.length b)%nat.
Proof.
    induction a as [|x a IH]; [reflexivity|].
    rewrite append_cons. cbn [String.length]. rewrite IH. reflexivity.
Qed.

Lemma append_ne_self (a b : string) : b <> "" -> a ++ b <> a.
Proof.
    intros Hb E. apply (f_equal String.length) in E. rewrite append_length in E.
    destruct b; [congruence|]. cbn [String.length] in E. lia.
Qed.

Lemma slice_to_from (n : nat) (s : string) : slice_to n s ++ slice_from n s = s.
Proof.
    revert s. induction n as [|n IH]; intros [|c s]; cbn [slice_to slice_from];
      try reflexivity.
    rewrite append_cons, IH. reflexivity.
Qed.

Lemma slice_from_length (n : nat) (s : string) :
    String.length (slice_from n s) = (String.length s - n)%nat.
Proof.
    revert s. induction n as [|n IH]; intros [|c s]; cbn; try reflexivity; try lia.
    apply IH.
Qed.

Lemma name_with_name (p : Path) (n : string) : name (with_name p n) = n.
Proof. unfold name, with_name. apply last_last. Qed.

Lemma with_name_inj (p : Path) (a b : string) :
    with_name p a = with_name p b -> a = b.
Proof.
    intros E. apply (f_equal name) in E. rewrite !name_with_name in E. exact E.
Qed.

Lemma with_name_again (p : Path) (a b : string) :
    with_name (with_name p a) b = with_name p b.
Proof. unfold with_name. rewrite removelast_last. reflexivity. Qed.

  (** [destination.with_suffix(destination.suffix + ext)] is the
      destination with [ext] appended to its name. *)
Lemma with_suffix_add (p : Path) (ext : string) (q : Path) :
    with_suffix p (suffix p ++ ext) = Some q -> q = with_name p (name p ++ ext).
Proof.
    unfold with_suffix.
    destruct (contains "/" (suffix p ++ ext)); [discriminate|].
    destruct (_ || _); [discriminate|].
    destruct (String.eqb (name p) ""); [discriminate|].
    destruct (String.eqb (suffix p) "") eqn:E.
    - apply String.eqb_eq in E. rewrite E. intros [= <-]. reflexivity.
    - intros [= <-]. f_equal.
      rewrite <- append_assoc. f_equal.
      unfold suffix in *.
      destruct (rfind "." (name p)) as [i|]; [|discriminate E].
      destruct (_ && _) eqn:C; [|discriminate E].
      apply andb_true_iff in C as [_ C]. apply Nat.ltb_lt in C.
      rewrite slice_from_length.
      replace (String.length (name p) - (String.length (name p) - i))%nat
        with i by lia.
      apply slice_to_from.
Qed.

End PathFacts.

Section StagingFacts.
Import Py FileOps.
Local Open Scope string_scope.

Lemma staging_ne_self p : staging_path p <> p.
Proof.
    unfold staging_path. intros E. apply (f_equal name) in E.
    rewrite name_with_name in E. revert E. apply append_ne_self. discriminate.
Qed.

Lemma backup_ne_self p : backup_path p <> p.
Proof.
    unfold backup_path. intros E. apply (f_equal name) in E.
    rewrite name_with_name in E. revert E. apply append_ne_self. discriminate.
Qed.

Lemma staging_ne_backup p : staging_path p <> backup_path p.
Proof.
    unfold staging_path, backup_path. intros E. apply with_name_inj in E.
    apply String.app_inj in E. discriminate E.
Qed.

Lemma staging_backup_eq p :
    staging_path (backup_path p) = with_name p (name p ++ ".backup.tmp").
Proof.
    unfold staging_path, backup_path.
    rewrite with_name_again, name_with_name, append_assoc. reflexivity.
Qed.

Lemma staging_backup_ne p :
    staging_path (backup_path p) <> p /\
    staging_path (backup_path p) <> backup_path p /\
    staging_path (backup_path p) <> staging_path p.
Proof.
    rewrite staging_backup_eq. unfold staging_path, backup_path. repeat split.
    - intros E. apply (f_equal name) in E. rewrite name_with_name in E.
      revert E. apply append_ne_self. discriminate.
    - intros E. apply with_name_inj, String.app_inj in E. discriminate E.
    - intros E. apply with_name_inj, String.app_inj in E. discriminate E.
Qed.

Lemma add_suffix_tmp p w :
    (add_suffix p ".tmp" w = (Ok (staging_path p), w)) \/
    (add_suffix p ".tmp" w = (Exc ValueError, w)).
Proof.
    unfold add_suffix.
    destruct (with_suffix p (suffix p ++ ".tmp")) as [q|] eqn:E; [|right; reflexivity].
    apply with_suffix_add in E. subst q. left. reflexivity.
Qed.

Lemma add_suffix_backup p w :
    (add_suffix p ".backup" w = (Ok (backup_path p), w)) \/
    (add_suffix p ".backup" w = (Exc ValueError, w)).
Proof.
    unfold add_suffix.
    destruct (with_suffix p (suffix p ++ ".backup")) as [q|] eqn:E; [|right; reflexivity].
    apply with_suffix_add in E. subst q. left. reflexivity.
Qed.

End StagingFacts.

(** ** System calls: what each one does to the files *)

Section SyscallFacts.
Import Py FileOps.

Lemma next_fault_world w :
    files (snd (next_fault w)) = files w /\
    dirs (snd (next_fault w)) = dirs w /\
    (reliable w -> reliable (snd (next_fault w))).
Proof.
    unfold next_fault, reliable. destruct (script w) as [|f rest] eqn:E; simpl.
    - rewrite E. auto.
    - repeat split. intros H. inversion H; assumption.
Qed.

Lemma reliable_head w f rest :
    reliable w -> script w = f :: rest -> forall bs, f <> Garble bs.
Proof.
    unfold reliable. intros H E bs ->. rewrite E in H. inversion H; subst. assumption.
Qed.

  (** A system call either raises [OSError] at once or runs its body, in
      both cases on a world with the same files and directories. *)
Lemma syscall_cases {A} (body : M A) w :
    exists w1,
      files w1 = files w /\ dirs w1 = dirs w /\ (reliable w -> reliable w1) /\
      (syscall body w = (Exc OSError, w1) \/ syscall body w = body w1).
Proof.
    exists (snd (next_fault w)).
    destruct (next_fault_world w) as (Hf & Hd & Hr).
    repeat split; try assumption.
    unfold syscall, bind. destruct (next_fault w) as [[f|e] w1] eqn:E; simpl.
    - destruct f; auto.
    - unfold next_fault in E. destruct (script w); discriminate E.
Qed.

Lemma syscall_inert {A} (body : M A) :
    (forall w, exists r, body w = (r, w) /\ forall e, r = Exc e -> e = OSError) ->
    inert (syscall body).
Proof.
    intros Hb w. destruct (syscall_cases body w) as (w1 & Hf & _ & Hr & [E|E]).
    - exists (Exc OSError), w1. repeat split; auto. intros e [= <-]. reflexivity.
    - destruct (Hb w1) as (r & Er & He). exists r, w1.
      rewrite E, Er. auto.
Qed.

Lemma mkdir_cases p w :
    exists w', files w' = files w /\ (reliable w -> reliable w') /\
      ((mkdir p w = (Exc OSError, w') /\ dirs w' = dirs w) \/
       (mkdir p w = (Ok tt, w') /\ dirs w' = dirs w ∪ {[ p ]})).
Proof.
    unfold mkdir.
    match goal with |- context [syscall ?b] =>
      destruct (syscall_cases b w) as (w1 & Hf & Hd & Hr & [E|E]) end.
    - exists w1. auto.
    - rewrite E. destruct (_ || _).
      + exists w1. auto.
      + eexists. split; [|split; [|right; split; [reflexivity|]]].
        * exact Hf.
        * exact Hr.
        * cbn [dirs set_dirs]. rewrite Hd. reflexivity.
Qed.

  (** The last step of [makedirs]: it fails and changes nothing, or the
      directory is there afterwards, made by the call or found. *)
Lemma mkdir_exist_ok_cases p w :
    exists r w',
      mkdir_exist_ok p w = (r, w') /\ files w' = files w /\
      (reliable w -> reliable w') /\
      ((r = Exc OSError /\ dirs w' = dirs w) \/
       (r = Ok tt /\ dirs w' = dirs w /\ p ∈ dirs w) \/
       (r = Ok tt /\ dirs w' = dirs w ∪ {[ p ]})).
Proof.
    unfold mkdir_exist_ok, try_except.
    destruct (mkdir_cases p w) as (w1 & Hf & Hr & [[E Hd]|[E Hd]]); rewrite E.
    - change (is_OSError OSError) with true. cbv iota.
      unfold is_dir. destruct (bool_decide (p ∈ dirs w1)) eqn:K.
      + apply bool_decide_eq_true in K. rewrite Hd in K.
        eexists _, _. split; [reflexivity|]. auto 10.
      + eexists _, _. split; [reflexivity|]. auto 10.
    - eexists _, _. split; [reflexivity|]. auto 10.
Qed.

  (** [makedirs]: it changes no file and removes no directory; those it
      makes are prefixes of the path, proper ones when it raises; and when
      it returns the path is a directory. *)
Lemma makedirs_prefix_spec (k : nat) (name : Path) :
    forall w, exists r w',
      makedirs_prefix k name w = (r, w') /\ files w' = files w /\
      (reliable w -> reliable w') /\
      dirs w ⊆ dirs w' /\
      match r with
      | Ok _ =>
          take k name ∈ dirs w' /\
          (forall q, q ∈ dirs w' ->
             q ∈ dirs w \/ exists j, (j <= k)%nat /\ q = take j name)
      | Exc e =>
          e = OSError /\
          (forall q, q ∈ dirs w' ->
             q ∈ dirs w \/ exists j, (j < k)%nat /\ q = take j name)
      end.
Proof.
    assert (Hlast : forall k w (w0 : world),
      files w = files w0 -> (reliable w0 -> reliable w) -> dirs w0 ⊆ dirs w ->
      (forall q, q ∈ dirs w ->
         q ∈ dirs w0 \/ exists j, (j < k)%nat /\ q = take j name) ->
      exists r w',
        mkdir_exist_ok (take k name) w = (r, w') /\ files w' = files w0 /\
        (reliable w0 -> reliable w') /\
        dirs w0 ⊆ dirs w' /\
        match r with
        | Ok _ =>
            take k name ∈ dirs w' /\
            (forall q, q ∈ dirs w' ->
               q ∈ dirs w0 \/ exists j, (j <= k)%nat /\ q = take j name)
        | Exc e =>
            e = OSError /\
            (forall q, q ∈ dirs w' ->
               q ∈ dirs w0 \/ exists j, (j < k)%nat /\ q = take j name)
        end).
    { intros k0 w w0 Hf Hr Hd Hq.
      destruct (mkdir_exist_ok_cases (take k0 name) w)
        as (r & w' & E & Hf' & Hr' & [(-> & Hd')|[(-> & Hd' & Hin)|(-> & Hd')]]);
        (eexists _, _; split; [exact E|]).
      - split; [congruence|]. split; [auto|].
        rewrite Hd'. split; [exact Hd|]. split; [reflexivity|exact Hq].
      - split; [congruence|]. split; [auto|].
        rewrite Hd'. split; [exact Hd|]. split; [exact Hin|].
        intros q Hq'. destruct (Hq q Hq') as [H|(j & Hj & ->)]; [left; exact H|].
        right. exists j. split; [lia|reflexivity].
      - split; [congruence|]. split; [auto|].
        rewrite Hd'. split; [etrans; [exact Hd|apply union_subseteq_l]|].
        split; [apply elem_of_union_r, elem_of_singleton; reflexivity|].
        intros q Hq'. apply elem_of_union in Hq' as [Hq'|Hq'].
        + destruct (Hq q Hq') as [H|(j & Hj & ->)]; [left; exact H|].
          right. exists j. split; [lia|reflexivity].
        + apply elem_of_singleton in Hq'. right. exists k0. split; [lia|exact Hq']. }
    induction k as [|k IH]; intros w.
    - apply (Hlast 0%nat w w); auto.
    - destruct k as [|k].
      + apply (Hlast 1%nat w w); auto.
      + change (makedirs_prefix (S (S k)) name)
          with (bind (path_exists (take (S k) name)) (fun ex =>
                  bind (if negb ex then makedirs_prefix (S k) name else ret tt)
                       (fun _ => mkdir_exist_ok (take (S (S k)) name)))).
        unfold bind at 1. unfold path_exists at 1.
        destruct (negb _).
        * unfold bind. destruct (IH w) as (r1 & w1 & E1 & Hf1 & Hr1 & Hd1 & Hres1).
          rewrite E1. destruct r1 as [[]|e].
          -- destruct Hres1 as (_ & Hq1).
             apply (Hlast (S (S k)) w1 w); auto.
             intros q Hq. destruct (Hq1 q Hq) as [H|(j & Hj & ->)]; [left; exact H|].
             right. exists j. split; [lia|reflexivity].
          -- destruct Hres1 as (-> & Hq1).
             exists (Exc OSError), w1. split; [reflexivity|]. split; [exact Hf1|].
             split; [exact Hr1|]. split; [exact Hd1|]. split; [reflexivity|].
             intros q Hq. destruct (Hq1 q Hq) as [H|(j & Hj & ->)]; [left; exact H|].
             right. exists j. split; [lia|reflexivity].
        * unfold bind, ret.
          apply (Hlast (S (S k)) w w); auto.
Qed.

Lemma makedirs_files p w :
    exists r w', makedirs p w = (r, w') /\ files w' = files w /\
      (reliable w -> reliable w') /\ (forall e, r = Exc e -> e = OSError).
Proof.
    unfold makedirs.
    destruct (makedirs_prefix_spec (List.length p) p w)
      as (r & w' & E & Hf & Hr & _ & Hres).
    exists r, w'. split; [exact E|]. split; [exact Hf|]. split; [exact Hr|].
    intros e ->. apply Hres.
Qed.

Lemma open_read_inert p : inert (open_read p).
Proof.
    apply syscall_inert. intros w. destruct (is_file w p); eexists; split;
      try reflexivity; intros e [= <-]; reflexivity.
Qed.

Lemma stat_inert p : inert (stat p).
Proof.
    apply syscall_inert. intros w. destruct (_ || _); eexists; split;
      try reflexivity; intros e [= <-]; reflexivity.
Qed.

Lemma read_cases p off w :
    exists w', files w' = files w /\ (reliable w -> reliable w') /\
      (read p off w = (Exc OSError, w') \/
       exists content, files w !! p = Some content /\
         read p off w = (Ok (take chunk_size (drop off content)), w')).
Proof.
    unfold read.
    match goal with |- context [syscall ?b] => destruct (syscall_cases b w) as (w1 & Hf & _ & Hr & [E|E]) end.
    - exists w1. auto.
    - exists w1. rewrite E, Hf. destruct (files w !! p) as [c|]; eauto 10.
Qed.

Lemma open_write_cases p w :
    exists w', (reliable w -> reliable w') /\
      ((open_write p w = (Exc OSError, w') /\ files w' = files w) \/
       (open_write p w = (Ok tt, w') /\ files w' = <[p := []]> (files w))).
Proof.
    unfold open_write.
    match goal with |- context [syscall ?b] => destruct (syscall_cases b w) as (w1 & Hf & _ & Hr & [E|E]) end.
    - exists w1. auto.
    - rewrite E. destruct (_ || _).
      + exists w1. auto.
      + eexists. split; [|right; split; [reflexivity|]]; simpl; [exact Hr|].
        rewrite Hf. reflexivity.
Qed.

Lemma remove_cases p w :
    exists w', (reliable w -> reliable w') /\
      ((remove p w = (Exc OSError, w') /\ files w' = files w) \/
       (remove p w = (Ok tt, w') /\ files w' = delete p (files w))).
Proof.
    unfold remove.
    match goal with |- context [syscall ?b] => destruct (syscall_cases b w) as (w1 & Hf & _ & Hr & [E|E]) end.
    - exists w1. auto.
    - rewrite E. destruct (is_file w1 p).
      + eexists. split; [|right; split; [reflexivity|]]; simpl; [exact Hr|].
        rewrite Hf. reflexivity.
      + exists w1. auto.
Qed.

Lemma rename_cases src dst w :
    exists w', (reliable w -> reliable w') /\
      ((rename src dst w = (Exc OSError, w') /\ files w' = files w) \/
       (exists content, files w !! src = Some content /\
          rename src dst w = (Ok tt, w') /\
          files w' = <[dst := content]> (delete src (files w)))).
Proof.
    unfold rename.
    match goal with |- context [syscall ?b] => destruct (syscall_cases b w) as (w1 & Hf & _ & Hr & [E|E]) end.
    - exists w1. auto.
    - rewrite E, Hf. destruct (files w !! src) as [c|] eqn:Hs.
      + destruct (_ || _).
        * exists w1. auto.
        * eexists. split; [|right; exists c; split; [reflexivity|split; [reflexivity|]]];
            simpl; [exact Hr|]. reflexivity.
      + exists w1. auto.
Qed.

Lemma write_cases p chunk w :
    exists w' stored,
      (reliable w -> reliable w' /\ stored = chunk) /\
      ((write p chunk w = (Exc OSError, w') /\ files w' = files w) \/
       (exists content, files w !! p = Some content /\
          write p chunk w = (Ok tt, w') /\
          files w' = <[p := content ++ stored]> (files w))).
Proof.
    unfold write, bind.
    destruct (next_fault_world w) as (Hf & _ & Hr).
    destruct (next_fault w) as [[f|e] w1] eqn:E; simpl in *.
    2:{ unfold next_fault in E. destruct (script w); discriminate E. }
    assert (Hg : reliable w -> forall bs, f <> Garble bs).
    { intros Hrel. unfold next_fault in E. destruct (script w) as [|g rest] eqn:Es.
      - injection E as <- _. discriminate.
      - injection E as <- _. eapply reliable_head; eauto. }
    destruct f as [| |bs].
    - rewrite Hf. destruct (files w !! p) as [c|] eqn:Hp.
      + exists (set_files w1 (<[p := c ++ chunk]> (files w))), chunk. split.
        * intros Hrel. split; [exact (Hr Hrel)|reflexivity].
        * right; exists c; split; [reflexivity|split; reflexivity].
      + exists w1, chunk. auto.
    - exists w1, chunk. auto.
    - rewrite Hf. destruct (files w !! p) as [c|] eqn:Hp.
      + exists (set_files w1 (<[p := c ++ bs]> (files w))), bs. split.
        * intros Hrel. exfalso. eapply (Hg Hrel). reflexivity.
        * right; exists c; split; [reflexivity|split; reflexivity].
      + exists w1, chunk. split; [auto|]. left. auto.
Qed.

End SyscallFacts.

(** ** The read loops *)

Section LoopFacts.
Import Py FileOps.
Variable md5 : list Byte.byte -> string.

Lemma chunk_size_pos : (0 < chunk_size)%nat.
Proof. unfold chunk_size. lia. Qed.

Lemma take_chunk_nil {A} (l : list A) : take chunk_size l = [] -> l = [].
Proof.
    pose proof chunk_size_pos. destruct chunk_size; [lia|].
    destruct l; [reflexivity|discriminate].
Qed.

Lemma chunk_then_rest {A} (l : list A) (off : nat) :
    take chunk_size (drop off l)
      ++ drop (off + List.length (take chunk_size (drop off l))) l
    = drop off l.
Proof.
    rewrite <- drop_drop.
    set (t := drop off l).
    rewrite length_take.
    destruct (Nat.min_spec chunk_size (List.length t)) as [[? ->]|[? ->]].
    - apply take_drop.
    - rewrite take_ge by lia. rewrite drop_all. apply app_nil_r.
Qed.

Lemma open_read_cases p w :
    exists w', files w' = files w /\ (reliable w -> reliable w') /\
      (open_read p w = (Exc OSError, w') \/
       (is_Some (files w !! p) /\ open_read p w = (Ok tt, w'))).
Proof.
    unfold open_read.
    match goal with |- context [syscall ?b] =>
      destruct (syscall_cases b w) as (w1 & Hf & _ & Hr & [E|E]) end.
    - exists w1. auto.
    - exists w1. rewrite E. unfold is_file. rewrite Hf.
      destruct (files w !! p); eauto 10.
Qed.

Lemma hash_chunks_spec (fuel : nat) :
    forall p off fed w c,
      files w !! p = Some c ->
      (List.length c - off < fuel)%nat ->
      exists r w',
        hash_chunks fuel p off fed w = (r, w') /\
        files w' = files w /\ (reliable w -> reliable w') /\
        (r = Exc OSError \/ r = Ok (fed ++ drop off c)).
Proof.
    induction fuel as [|fuel IH]; intros p off fed w c Hc Hfuel; [lia|].
    simpl. unfold bind.
    destruct (read_cases p off w) as (w1 & Hf1 & Hr1 & [E|(c' & Hc' & E)]).
    - rewrite E. eauto 10.
    - rewrite E. rewrite Hc in Hc'. injection Hc' as <-.
      destruct (take chunk_size (drop off c)) as [|b chunk] eqn:K.
      + apply take_chunk_nil in K. rewrite K, app_nil_r.
        eexists _, _. split; [reflexivity|]. auto.
      + assert (Hlen : (off < List.length c)%nat).
        { destruct (decide (off < List.length c)%nat); [assumption|].
          rewrite drop_ge in K by lia. discriminate K. }
        destruct (IH p (off + List.length (b :: chunk))%nat (fed ++ b :: chunk) w1 c)
          as (r & w' & E' & Hf' & Hr' & Hres).
        * rewrite Hf1. exact Hc.
        * simpl. lia.
        * exists r, w'. split; [exact E'|]. split; [congruence|]. split; [auto|].
          destruct Hres as [->| ->]; [left; reflexivity|right].
          rewrite <- app_assoc. rewrite <- K. rewrite chunk_then_rest. reflexivity.
Qed.

Lemma calculate_file_hash_spec p w :
    exists r w',
      calculate_file_hash md5 p w = (r, w') /\
      files w' = files w /\ (reliable w -> reliable w') /\
      (r = Exc (FileOperationError OSError) \/
       exists c, files w !! p = Some c /\ r = Ok (md5 c)).
Proof.
    unfold calculate_file_hash, try_except, bind.
    destruct (open_read_cases p w) as (w1 & Hf1 & Hr1 & [E|([c Hc] & E)]); rewrite E.
    - simpl. eexists _, _. split; [reflexivity|]. auto.
    - unfold with_fuel_of. rewrite Hf1, Hc. simpl default.
      destruct (hash_chunks_spec (S (List.length c)) p 0 [] w1 c)
        as (r & w' & E' & Hf' & Hr' & Hres); [congruence|lia|].
      rewrite E'. destruct Hres as [->| ->]; simpl.
      + eexists _, _. split; [reflexivity|]. split; [congruence|]. auto.
      + eexists _, _. split; [reflexivity|]. split; [congruence|]. split; [auto|].
        right. exists c. auto.
Qed.

  (** The copy loop, source and staging file being different files: only
      the staging file changes, the loop ends within the iterations
      unfolded, and on a reliable medium the staging file receives the rest
      of the source. *)
Lemma copy_chunks_spec (fuel : nat) :
    forall src tmp off w cs,
      src <> tmp ->
      files w !! src = Some cs ->
      (List.length cs - off < fuel)%nat ->
      exists r w',
        copy_chunks fuel src tmp off w = (r, w') /\
        (forall q, q <> tmp -> files w' !! q = files w !! q) /\
        (is_Some (files w !! tmp) -> is_Some (files w' !! tmp)) /\
        (r = Exc OSError \/ r = Ok tt) /\
        (reliable w ->
         reliable w' /\
         (r = Ok tt ->
          forall ct, files w !! tmp = Some ct ->
                     files w' !! tmp = Some (ct ++ drop off cs))).
Proof.
    induction fuel as [|fuel IH]; intros src tmp off w cs Hne Hs Hfuel; [lia|].
    simpl. unfold bind.
    destruct (read_cases src off w) as (w1 & Hf1 & Hr1 & [E|(c' & Hc' & E)]).
    - rewrite E. eexists _, _. split; [reflexivity|].
      rewrite Hf1. split; [auto|]. split; [auto|]. split; [auto|].
      intros Hrel. split; [auto|]. discriminate.
    - rewrite E. rewrite Hs in Hc'. injection Hc' as <-.
      destruct (take chunk_size (drop off cs)) as [|b chunk] eqn:K.
      + apply take_chunk_nil in K.
        eexists _, _. split; [reflexivity|]. rewrite Hf1.
        split; [auto|]. split; [auto|]. split; [auto|]. intros Hrel. split; [auto|].
        intros _ ct Hct. rewrite K, app_nil_r. exact Hct.
      + assert (Hlen : (off < List.length cs)%nat).
        { destruct (decide (off < List.length cs)%nat); [assumption|].
          rewrite drop_ge in K by lia. discriminate K. }
        destruct (write_cases tmp (b :: chunk) w1)
          as (w2 & stored & Hr2 & [[Ew Hf2]|(ct & Hct & Ew & Hf2)]); rewrite Ew.
        * eexists _, _. split; [reflexivity|]. rewrite Hf2, Hf1.
          split; [auto|]. split; [auto|]. split; [auto|]. intros Hrel.
          split; [apply Hr2; auto|]. discriminate.
        * destruct (IH src tmp (off + List.length (b :: chunk))%nat w2 cs)
            as (r & w' & E' & Hfr & Hex & Hres & Hrel'); try assumption.
          { rewrite Hf2, lookup_insert_ne by congruence. rewrite Hf1. exact Hs. }
          { simpl. lia. }
          exists r, w'. split; [exact E'|].
          split.
          { intros q Hq. rewrite Hfr by exact Hq.
            rewrite Hf2, lookup_insert_ne by congruence. rewrite Hf1. reflexivity. }
          split.
          { intros _. apply Hex. rewrite Hf2, lookup_insert_eq. eauto. }
          split; [exact Hres|].
          intros Hrel. destruct (Hr2 (Hr1 Hrel)) as [Hrel2 ->].
          destruct (Hrel' Hrel2) as [Hrel3 Hcont]. split; [exact Hrel3|].
          intros Hok ct0 Hct0.
          rewrite Hf1 in Hct. rewrite Hct0 in Hct. injection Hct as <-.
          rewrite (Hcont Hok (ct0 ++ b :: chunk)).
          -- rewrite <- app_assoc, <- K, chunk_then_rest. reflexivity.
          -- rewrite Hf2, lookup_insert_eq. reflexivity.
Qed.

  (** The copy loop on an empty source: one read, no write. *)
Lemma copy_chunks_empty (fuel : nat) src tmp w :
    files w !! src = Some [] ->
    exists r w',
      copy_chunks (S fuel) src tmp 0 w = (r, w') /\
      files w' = files w /\ (reliable w -> reliable w') /\
      (r = Exc OSError \/ r = Ok tt).
Proof.
    intros Hs. simpl. unfold bind.
    destruct (read_cases src 0 w) as (w1 & Hf1 & Hr1 & [E|(c' & Hc' & E)]); rewrite E.
    - eexists _, _. split; [reflexivity|]. auto.
    - rewrite Hs in Hc'. injection Hc' as <-. rewrite drop_0, take_nil.
      eexists _, _. split; [reflexivity|]. auto.
Qed.

End LoopFacts.

(** ** The atomic copy *)

Section CopyFacts.
Import Py FileOps.
Variable md5 : list Byte.byte -> string.

Lemma copy_file_atomic_unfold source destination verify_integrity preserve_metadata :
    copy_file_atomic md5 source destination verify_integrity preserve_metadata
    = bind (path_exists source) (fun ex =>
        if negb ex then raise FileNotFoundError
        else
          bind (ensure_directory (parent destination)) (fun _ =>
          bind (add_suffix destination ".tmp") (fun temp_destination =>
            try_except
              (copy_attempt md5 source destination temp_destination
                 verify_integrity preserve_metadata)
              any_exception
              (copy_cleanup temp_destination)))).
Proof. reflexivity. Qed.

  (** The streaming part of the [try] block. *)
Lemma stream_spec src tmp w :
    exists r w',
      bind (open_read src) (fun _ =>
      bind (open_write tmp) (fun _ =>
        with_fuel_of src (fun fuel => copy_chunks fuel src tmp 0))) w = (r, w') /\
      (forall q, q <> tmp -> files w' !! q = files w !! q) /\
      (reliable w -> reliable w') /\
      (r = Exc OSError \/
       (r = Ok tt /\ is_Some (files w' !! tmp) /\
        (src <> tmp -> reliable w ->
         exists cs, files w !! src = Some cs /\ files w' !! tmp = Some cs))).
Proof.
    unfold bind.
    destruct (open_read_cases src w) as (w1 & Hf1 & Hr1 & [E|([cs Hcs] & E)]); rewrite E.
    { eexists _, _. split; [reflexivity|]. rewrite Hf1. auto. }
    destruct (open_write_cases tmp w1) as (w2 & Hr2 & [[Ew Hf2]|[Ew Hf2]]); rewrite Ew.
    { eexists _, _. split; [reflexivity|]. rewrite Hf2, Hf1. auto. }
    unfold with_fuel_of.
    destruct (decide (src = tmp)) as [->|Hne].
    - rewrite Hf2, lookup_insert_eq. simpl default.
      destruct (copy_chunks_empty 0 tmp tmp w2) as (r & w3 & E3 & Hf3 & Hr3 & Hres).
      { rewrite Hf2. apply lookup_insert_eq. }
      simpl List.length. rewrite E3. exists r, w3. split; [reflexivity|].
      split.
      { intros q Hq. rewrite Hf3, Hf2, lookup_insert_ne by congruence.
        rewrite Hf1. reflexivity. }
      split; [auto|].
      destruct Hres as [->| ->]; [left; reflexivity|right].
      split; [reflexivity|]. split.
      + rewrite Hf3, Hf2, lookup_insert_eq. eauto.
      + intros Hc. congruence.
    - rewrite Hf2, lookup_insert_ne by congruence. rewrite Hf1, Hcs. simpl default.
      destruct (copy_chunks_spec (S (List.length cs)) src tmp 0 w2 cs)
        as (r & w3 & E3 & Hf3 & Hex3 & Hres & Hrel3); [exact Hne| |lia|].
      { rewrite Hf2, lookup_insert_ne by congruence. rewrite Hf1. exact Hcs. }
      rewrite E3. exists r, w3. split; [reflexivity|].
      split.
      { intros q Hq. rewrite Hf3 by exact Hq.
        rewrite Hf2, lookup_insert_ne by congruence. rewrite Hf1. reflexivity. }
      split; [intros Hrel; apply Hrel3; auto|].
      destruct Hres as [->| ->]; [left; reflexivity|right].
      split; [reflexivity|].
      assert (Htmp : files w2 !! tmp = Some []) by (rewrite Hf2; apply lookup_insert_eq).
      split.
      + apply Hex3. rewrite Htmp. eauto.
      + intros _ Hrel. exists cs. split; [reflexivity|].
        destruct (Hrel3 (Hr2 (Hr1 Hrel))) as [_ Hc].
        rewrite (Hc eq_refl [] Htmp). rewrite drop_0. reflexivity.
Qed.

  (** The metadata step changes no file, and never completes: when asked
      for, it ends with the [OSError] of [stat] or the [AttributeError] of
      [utime]. *)
Lemma preserve_spec (preserve_metadata : bool) src tmp w :
    exists r w',
      (if preserve_metadata then bind (stat src) (fun _ => utime tmp) else ret tt) w
      = (r, w') /\
      files w' = files w /\ (reliable w -> reliable w') /\
      ((r = Ok tt /\ preserve_metadata = false) \/
       ((r = Exc OSError \/ r = Exc AttributeError) /\ preserve_metadata = true)).
Proof.
    destruct preserve_metadata; [|eexists _, _; split; [reflexivity|]; auto].
    unfold bind.
    destruct (stat_inert src w) as (r1 & w1 & E1 & Hf1 & Hr1 & He1). rewrite E1.
    destruct r1 as [[]|e].
    - unfold utime, raise. eexists _, _. split; [reflexivity|]. auto 10.
    - exists (Exc e), w1. split; [reflexivity|]. split; [exact Hf1|]. split; [exact Hr1|].
      right. rewrite (He1 e eq_refl). auto.
Qed.

  (** The verification step: it passes, or a hash cannot be computed, or
      the hashes differ and the staging file is removed before
      [FileIntegrityError] is raised (unless the removal fails). *)
Lemma verify_spec (verify_integrity : bool) src tmp w :
    exists r w',
      (if verify_integrity
       then
         bind (calculate_file_hash md5 src) (fun source_hash =>
         bind (calculate_file_hash md5 tmp) (fun dest_hash =>
           if negb (String.eqb source_hash dest_hash)
           then bind (remove tmp) (fun _ => raise FileIntegrityError)
           else ret tt))
       else ret tt) w = (r, w') /\
      (reliable w -> reliable w') /\
      ((files w' = files w /\
        (r = Ok tt \/ r = Exc OSError \/ r = Exc (FileOperationError OSError))) \/
       (files w' = delete tmp (files w) /\ r = Exc FileIntegrityError /\
        verify_integrity = true /\
        exists cs ct, files w !! src = Some cs /\ files w !! tmp = Some ct /\
                      md5 cs <> md5 ct)).
Proof.
    destruct verify_integrity; [|eexists _, _; split; [reflexivity|]; auto].
    unfold bind.
    destruct (calculate_file_hash_spec md5 src w)
      as (r1 & w1 & E1 & Hf1 & Hr1 & [->|(cs & Hcs & ->)]); rewrite E1.
    { eexists _, _. split; [reflexivity|]. auto 10. }
    destruct (calculate_file_hash_spec md5 tmp w1)
      as (r2 & w2 & E2 & Hf2 & Hr2 & [->|(ct & Hct & ->)]); rewrite E2.
    { eexists _, _. split; [reflexivity|]. split; [auto|]. left.
      split; [congruence|auto]. }
    destruct (String.eqb (md5 cs) (md5 ct)) eqn:Eh; simpl.
    { eexists _, _. split; [reflexivity|]. split; [auto|]. left.
      split; [congruence|auto]. }
    apply String.eqb_neq in Eh.
    destruct (remove_cases tmp w2) as (w3 & Hr3 & [[E3 Hf3]|[E3 Hf3]]); rewrite E3.
    - eexists _, _. split; [reflexivity|]. split; [auto|]. left.
      split; [congruence|auto].
    - eexists _, _. split; [reflexivity|]. split; [auto|]. right.
      split; [congruence|]. split; [reflexivity|]. split; [reflexivity|].
      exists cs, ct. rewrite Hf1 in Hct. auto.
Qed.

Lemma bind_run {A B} (c : M A) (k : A -> M B) w :
    bind c k w = match c w with
                 | (Ok a, w') => k a w'
                 | (Exc e, w') => (Exc e, w')
                 end.
Proof. reflexivity. Qed.

  (** The [try] block as a whole. *)
Lemma copy_attempt_spec src dst tmp (v pm : bool) w :
    tmp <> dst ->
    exists r w',
      copy_attempt md5 src dst tmp v pm w = (r, w') /\
      (forall q, q <> dst -> q <> tmp -> files w' !! q = files w !! q) /\
      (reliable w -> reliable w') /\
      match r with
      | Ok p =>
          p = dst /\ files w' !! tmp = None /\ is_Some (files w' !! dst) /\
          (src <> tmp -> reliable w ->
           exists cs, files w !! src = Some cs /\ files w' !! dst = Some cs) /\
          pm = false
      | Exc e =>
          files w' !! dst = files w !! dst /\
          (e = OSError \/ e = FileOperationError OSError \/
           (e = FileIntegrityError /\ v = true /\ files w' !! tmp = None) \/
           (e = AttributeError /\ pm = true))
      end.
Proof.
    intros Hne. unfold copy_attempt.
    set (STREAM := bind (open_read src) (fun _ =>
                   bind (open_write tmp) (fun _ =>
                     with_fuel_of src (fun fuel => copy_chunks fuel src tmp 0)))).
    set (REST := bind (if pm then bind (stat src) (fun _ => utime tmp) else ret tt)
                   (fun _ => _)).
    assert (Hsplit :
      bind (open_read src) (fun _ =>
        bind (open_write tmp) (fun _ =>
          bind (with_fuel_of src (fun fuel => copy_chunks fuel src tmp 0))
               (fun _ => REST))) w
      = bind STREAM (fun _ => REST) w).
    { unfold STREAM, bind.
      destruct (open_read src w) as [[[]|?] ?]; [|reflexivity].
      destruct (open_write tmp _) as [[[]|?] ?]; reflexivity. }
    rewrite Hsplit. clear Hsplit. rewrite bind_run.
    destruct (stream_spec src tmp w) as (r0 & w1 & E0 & Hf0 & Hr0 & Hres0).
    fold STREAM in E0. rewrite E0.
    destruct Hres0 as [->|(-> & Htmp1 & Hcs1)].
    { eexists _, _. split; [reflexivity|]. split; [auto|]. split; [auto|].
      split; [apply Hf0; congruence|auto]. }
    unfold REST. rewrite bind_run.
    destruct (preserve_spec pm src tmp w1) as (r2 & w2 & E2 & Hf2 & Hr2 & Hres2).
    rewrite E2.
    destruct Hres2 as [[-> Hpm]|[[->| ->] Hpm]].
    2,3: eexists _, _; (split; [reflexivity|]); rewrite Hf2;
         (split; [auto|]); (split; [auto|]); (split; [apply Hf0; congruence|auto 10]).
    rewrite bind_run.
    destruct (verify_spec v src tmp w2) as (r3 & w3 & E3 & Hr3 & Hres3).
    rewrite E3.
    destruct Hres3 as [[Hf3 Hres3]|(Hf3 & -> & Hv & _)].
    2:{ eexists _, _. split; [reflexivity|].
        split.
        { intros q Hq1 Hq2. rewrite Hf3, lookup_delete_ne by congruence.
          rewrite Hf2. apply Hf0. exact Hq2. }
        split; [auto|]. split.
        - rewrite Hf3, lookup_delete_ne by congruence. rewrite Hf2.
          apply Hf0. congruence.
        - right; right; left. rewrite Hf3, lookup_delete_eq. auto. }
    destruct Hres3 as [->|[->| ->]].
    2,3: eexists _, _; (split; [reflexivity|]); rewrite Hf3, Hf2;
         (split; [auto|]); (split; [auto|]); (split; [apply Hf0; congruence|auto]).
    rewrite bind_run.
    destruct (rename_cases tmp dst w3) as (w4 & Hr4 & [[E4 Hf4]|(c & Hc & E4 & Hf4)]);
      rewrite E4.
    { eexists _, _. split; [reflexivity|]. rewrite Hf4, Hf3, Hf2.
      split; [auto|]. split; [auto|]. split; [apply Hf0; congruence|auto]. }
    eexists _, _. split; [reflexivity|].
    split.
    { intros q Hq1 Hq2. rewrite Hf4, lookup_insert_ne by congruence.
      rewrite lookup_delete_ne by congruence. rewrite Hf3, Hf2. apply Hf0. exact Hq2. }
    split; [auto 10|].
    split; [reflexivity|]. split.
    { rewrite Hf4, lookup_insert_ne by congruence. apply lookup_delete_eq. }
    split.
    { rewrite Hf4, lookup_insert_eq. eauto. }
    split; [|exact Hpm].
    intros Hal Hrel. destruct (Hcs1 Hal Hrel) as (cs & Hcs & Hcs').
    exists cs. split; [exact Hcs|].
    rewrite Hf4, lookup_insert_eq. rewrite Hf3, Hf2, Hcs' in Hc. congruence.
Qed.

Lemma copy_cleanup_spec tmp e w :
    exists r w',
      copy_cleanup tmp e w = (r, w') /\
      (reliable w -> reliable w') /\
      ((r = Exc (FileOperationError e) /\ files w' = delete tmp (files w)) \/
       (r = Exc OSError /\ files w' = files w)).
Proof.
    unfold copy_cleanup, bind, path_exists.
    destruct (is_file w tmp || is_dir w tmp) eqn:Ex.
    - destruct (remove_cases tmp w) as (w1 & Hr1 & [[E1 Hf1]|[E1 Hf1]]); rewrite E1.
      + eexists _, _. split; [reflexivity|]. auto.
      + eexists _, _. split; [reflexivity|]. auto.
    - eexists _, _. split; [reflexivity|]. split; [auto|]. left.
      split; [reflexivity|]. simpl.
      apply orb_false_iff in Ex as [Ex _]. unfold is_file in Ex.
      destruct (files w !! tmp) eqn:K; [discriminate|].
      symmetry. apply delete_id. exact K.
Qed.

Lemma ensure_directory_spec path w :
    exists r w',
      ensure_directory path w = (r, w') /\
      files w' = files w /\ (reliable w -> reliable w') /\
      (r = Ok path \/ r = Exc (FilePermissionError OSError)).
Proof.
    unfold ensure_directory, try_except, bind, path_exists.
    destruct (negb _).
    - destruct (makedirs_files path w) as (r & w1 & E & Hf & Hr & He). rewrite E.
      destruct r as [[]|e].
      + eexists _, _. split; [reflexivity|]. auto.
      + rewrite (He e eq_refl). simpl.
        eexists _, _. split; [reflexivity|]. auto.
    - eexists _, _. split; [reflexivity|]. auto.
Qed.

Lemma ensure_directory_dirs path w :
    dirs w ⊆ dirs (snd (ensure_directory path w)).
Proof.
    unfold ensure_directory, try_except, bind, path_exists.
    destruct (negb _); [|reflexivity].
    unfold makedirs.
    destruct (makedirs_prefix_spec (List.length path) path w)
      as (r & w1 & E & _ & _ & Hd & Hres).
    rewrite E. destruct r as [[]|e]; [exact Hd|].
    destruct Hres as [-> _]. exact Hd.
Qed.

  (** [copy_file_atomic], every outcome. *)
Lemma copy_file_atomic_spec src dst (v pm : bool) w :
    exists r w',
      copy_file_atomic md5 src dst v pm w = (r, w') /\
      (forall q, q <> dst -> q <> staging_path dst ->
                 files w' !! q = files w !! q) /\
      (reliable w -> reliable w') /\
      match r with
      | Ok p =>
          p = dst /\ files w' !! staging_path dst = None /\
          is_Some (files w' !! dst) /\
          (src <> staging_path dst -> reliable w ->
           exists cs, files w !! src = Some cs /\ files w' !! dst = Some cs) /\
          pm = false
      | Exc e =>
          files w' !! dst = files w !! dst /\
          ((e = FileNotFoundError /\ files w' = files w /\ files w !! src = None) \/
           (e = FilePermissionError OSError /\ files w' = files w) \/
           (e = ValueError /\ files w' = files w) \/
           e = OSError \/
           (exists c, e = FileOperationError c /\
              (c = OSError \/ c = FileOperationError OSError \/
               (c = FileIntegrityError /\ v = true) \/
               (c = AttributeError /\ pm = true)) /\
              files w' !! staging_path dst = None))
      end.
Proof.
    rewrite copy_file_atomic_unfold. rewrite bind_run. unfold path_exists.
    destruct (is_file w src || is_dir w src) eqn:Ex; cbv beta iota;
      [change (negb true) with false | change (negb false) with true]; cbv beta iota.
    2:{ eexists _, _. split; [reflexivity|]. split; [auto|]. split; [auto|].
        split; [reflexivity|]. left. split; [reflexivity|]. split; [reflexivity|].
        apply orb_false_iff in Ex as [Ex _]. unfold is_file in Ex.
        destruct (files w !! src); [discriminate|reflexivity]. }
    rewrite bind_run.
    destruct (ensure_directory_spec (parent dst) w) as (r1 & w1 & E1 & Hf1 & Hr1 & [->| ->]);
      rewrite E1.
    2:{ eexists _, _. split; [reflexivity|]. rewrite Hf1.
        split; [auto|]. split; [auto|]. split; [reflexivity|]. auto. }
    rewrite bind_run.
    destruct (add_suffix_tmp dst w1) as [E2|E2]; rewrite E2.
    2:{ eexists _, _. split; [reflexivity|]. rewrite Hf1.
        split; [auto|]. split; [auto|]. split; [reflexivity|]. auto. }
    unfold try_except.
    destruct (copy_attempt_spec src dst (staging_path dst) v pm w1 (staging_ne_self dst))
      as (r3 & w3 & E3 & Hf3 & Hr3 & Hres3).
    rewrite E3. destruct r3 as [p|e].
    - destruct Hres3 as (-> & Htmp & Hdst & Hcs & Hpm).
      eexists _, _. split; [reflexivity|].
      split; [intros q Hq1 Hq2; rewrite Hf3 by assumption; rewrite Hf1; reflexivity|].
      split; [auto|]. split; [reflexivity|]. split; [exact Htmp|]. split; [exact Hdst|].
      split; [|exact Hpm].
      intros Hal Hrel. destruct (Hcs Hal (Hr1 Hrel)) as (cs & H1 & H2).
      exists cs. rewrite Hf1 in H1. auto.
    - destruct Hres3 as (Hdst & He).
      assert (Hcatch : any_exception e = true)
        by (destruct He as [->|[->|[[-> _]|[-> _]]]]; reflexivity).
      rewrite Hcatch.
      destruct (copy_cleanup_spec (staging_path dst) e w3)
        as (r4 & w4 & E4 & Hr4 & [[-> Hf4]|[-> Hf4]]); rewrite E4.
      + eexists _, _. split; [reflexivity|].
        split.
        { intros q Hq1 Hq2. rewrite Hf4, lookup_delete_ne by congruence.
          rewrite Hf3 by assumption. rewrite Hf1. reflexivity. }
        split; [auto|]. split.
        { rewrite Hf4, lookup_delete_ne by (apply staging_ne_self).
          rewrite Hdst, Hf1. reflexivity. }
        right; right; right; right. exists e. split; [reflexivity|].
        split; [|rewrite Hf4; apply lookup_delete_eq].
        destruct He as [->|[->|[[-> [Hv _]]|[-> Hpm]]]]; auto 10.
      + eexists _, _. split; [reflexivity|].
        split.
        { intros q Hq1 Hq2. rewrite Hf4. rewrite Hf3 by assumption.
          rewrite Hf1. reflexivity. }
        split; [auto|]. split.
        { rewrite Hf4, Hdst, Hf1. reflexivity. }
        auto.
Qed.

End CopyFacts.

(** ** The atomic move *)

Section MoveFacts.
Import Py FileOps.
Variable md5 : list Byte.byte -> string.

Lemma move_file_atomic_unfold source destination verify_integrity create_backup :
    move_file_atomic md5 source destination verify_integrity create_backup
    = bind (path_exists source) (fun ex =>
        if negb ex then raise FileNotFoundError
        else
          bind (ensure_directory (parent destination)) (fun _ =>
          bind (backup_step md5 destination create_backup) (fun _ =>
          bind (transfer_step md5 source destination verify_integrity) (fun _ =>
            ret destination)))).
Proof. reflexivity. Qed.

  (** The backup step changes no file but the staging file of the backup;
      it returns only when there is nothing to back up, and otherwise ends
      with the error of the backup copy, the metadata step of which never
      completes. *)
Lemma backup_step_spec dst (cb : bool) w :
    exists r w',
      backup_step md5 dst cb w = (r, w') /\
      (forall q, q <> staging_path (backup_path dst) -> files w' !! q = files w !! q) /\
      (reliable w -> reliable w') /\
      match r with
      | Ok _ =>
          files w' = files w /\
          (cb = true -> is_file w dst || is_dir w dst = false)
      | Exc e =>
          cb = true /\ is_file w dst || is_dir w dst = true /\
          e <> FileIntegrityError /\ e <> OutOfFuel
      end.
Proof.
    unfold backup_step. destruct cb.
    2:{ eexists _, _. split; [reflexivity|]. split; [auto|]. split; [auto|].
        split; [reflexivity|discriminate]. }
    rewrite bind_run. unfold path_exists.
    destruct (is_file w dst || is_dir w dst) eqn:Ex; cbv beta iota.
    2:{ eexists _, _. split; [reflexivity|]. split; [auto|]. split; [auto|].
        split; [reflexivity|auto]. }
    rewrite bind_run.
    destruct (add_suffix_backup dst w) as [E|E]; rewrite E.
    2:{ eexists _, _. split; [reflexivity|]. split; [auto|]. split; [auto|].
        split; [reflexivity|]. split; [reflexivity|]. split; discriminate. }
    rewrite bind_run.
    destruct (copy_file_atomic_spec md5 dst (backup_path dst) false true w)
      as (r & w1 & E1 & Hf1 & Hr1 & Hres). rewrite E1.
    destruct r as [p|e].
    - destruct Hres as (_ & _ & _ & _ & Hpm). discriminate Hpm.
    - destruct Hres as (Hdst & He).
      eexists _, _. split; [reflexivity|].
      split.
      { intros q Hq. destruct (decide (q = backup_path dst)) as [->|Hqb].
        - exact Hdst.
        - apply Hf1; assumption. }
      split; [exact Hr1|]. split; [reflexivity|]. split; [reflexivity|].
      destruct He as [[-> _]|[[-> _]|[[-> _]|[->|(c' & -> & _)]]]];
        split; discriminate.
Qed.

  (** The transfer step, the source being neither the destination nor its
      staging path. *)
Lemma transfer_step_spec src dst (v : bool) w cs :
    files w !! src = Some cs ->
    src <> dst -> src <> staging_path dst ->
    exists r w',
      transfer_step md5 src dst v w = (r, w') /\
      (forall q, q <> src -> q <> dst -> q <> staging_path dst ->
                 files w' !! q = files w !! q) /\
      (reliable w -> reliable w') /\
      match r with
      | Ok _ =>
          files w' !! src = None /\ is_Some (files w' !! dst) /\
          (reliable w -> files w' !! dst = Some cs)
      | Exc e =>
          files w' !! src = Some cs /\
          (files w' !! dst = files w !! dst \/
           (e = OSError /\ (reliable w -> files w' !! dst = Some cs))) /\
          (forall c, e = FileOperationError c ->
             files w' !! staging_path dst = None /\
             files w' !! dst = files w !! dst) /\
          e <> FileIntegrityError /\ e <> OutOfFuel
      end.
Proof.
    intros Hcs Hsd Hst. unfold transfer_step, try_except.
    destruct (rename_cases src dst w) as (w1 & Hr1 & [[E1 Hf1]|(c & Hc & E1 & Hf1)]);
      rewrite E1.
    - change (is_OSError OSError) with true. cbv iota. rewrite bind_run.
      destruct (copy_file_atomic_spec md5 src dst v true w1)
        as (r2 & w2 & E2 & Hf2 & Hr2 & Hres2). rewrite E2.
      assert (Hsrc2 : files w2 !! src = Some cs).
      { rewrite Hf2 by assumption. rewrite Hf1. exact Hcs. }
      destruct r2 as [p|e].
      + destruct Hres2 as (-> & Htmp & Hdst & Hcont & _).
        destruct (remove_cases src w2) as (w3 & Hr3 & [[E3 Hf3]|[E3 Hf3]]); rewrite E3.
        * eexists _, _. split; [reflexivity|].
          split.
          { intros q H1 H2 H3. rewrite Hf3. rewrite Hf2 by assumption.
            rewrite Hf1. reflexivity. }
          split; [auto|]. split; [rewrite Hf3; exact Hsrc2|].
          split.
          { right. split; [reflexivity|]. intros Hrel.
            destruct (Hcont Hst (Hr1 Hrel)) as (cs' & H1 & H2).
            rewrite Hf3, H2. rewrite Hf1 in H1. congruence. }
          split; [|split; discriminate].
          intros c [=].
        * eexists _, _. split; [reflexivity|].
          split.
          { intros q H1 H2 H3. rewrite Hf3, lookup_delete_ne by congruence.
            rewrite Hf2 by assumption. rewrite Hf1. reflexivity. }
          split; [auto|]. split; [rewrite Hf3; apply lookup_delete_eq|].
          split.
          { rewrite Hf3, lookup_delete_ne by congruence. exact Hdst. }
          intros Hrel. destruct (Hcont Hst (Hr1 Hrel)) as (cs' & H1 & H2).
          rewrite Hf3, lookup_delete_ne by congruence. rewrite H2.
          rewrite Hf1 in H1. congruence.
      + destruct Hres2 as (Hdst & He).
        eexists _, _. split; [reflexivity|].
        split.
        { intros q H1 H2 H3. rewrite Hf2 by assumption. rewrite Hf1. reflexivity. }
        split; [auto|]. split; [exact Hsrc2|].
        split; [left; rewrite Hdst, Hf1; reflexivity|].
        split.
        { intros c ->.
          destruct He as [[H _]|[[H _]|[[H _]|[H|(c' & H & _ & Hstg)]]]];
            try discriminate H.
          split; [exact Hstg|]. rewrite Hdst, Hf1. reflexivity. }
        destruct He as [[-> _]|[[-> _]|[[-> _]|[->|(c' & -> & _)]]]];
          split; discriminate.
    - rewrite Hcs in Hc. injection Hc as <-.
      eexists _, _. split; [reflexivity|].
      split.
      { intros q H1 H2 H3. rewrite Hf1, lookup_insert_ne by congruence.
        apply lookup_delete_ne. congruence. }
      split; [auto|].
      split.
      { rewrite Hf1, lookup_insert_ne by congruence. apply lookup_delete_eq. }
      split; [rewrite Hf1, lookup_insert_eq; eauto|].
      intros _. rewrite Hf1. apply lookup_insert_eq.
Qed.

  (** [move_file_atomic], every outcome, the source being none of the paths
      the call writes to. *)
Lemma move_file_atomic_spec src dst (v cb : bool) w cs :
    files w !! src = Some cs ->
    src <> dst -> src <> staging_path dst ->
    (cb = true -> src <> staging_path (backup_path dst)) ->
    exists r w',
      move_file_atomic md5 src dst v cb w = (r, w') /\
      (reliable w -> reliable w') /\
      match r with
      | Ok p =>
          p = dst /\ files w' !! src = None /\ is_Some (files w' !! dst) /\
          (reliable w -> files w' !! dst = Some cs) /\
          (cb = true -> files w !! dst = None)
      | Exc e =>
          files w' !! src = Some cs /\
          e <> FileIntegrityError /\ e <> OutOfFuel /\
          (cb = false ->
           (files w' !! dst = files w !! dst \/
            (e = OSError /\ (reliable w -> files w' !! dst = Some cs))) /\
           forall c, e = FileOperationError c ->
             files w' !! staging_path dst = None /\
             files w' !! dst = files w !! dst) /\
          (cb = true ->
           forall cd, files w !! dst = Some cd -> files w' !! dst = Some cd)
      end.
Proof.
    intros Hcs Hsd Hst Hal.
    rewrite move_file_atomic_unfold, bind_run. unfold path_exists.
    assert (Ex : is_file w src || is_dir w src = true)
      by (unfold is_file; rewrite Hcs; reflexivity).
    rewrite Ex. cbv beta iota. change (negb true) with false. cbv beta iota.
    rewrite bind_run.
    destruct (ensure_directory_spec (parent dst) w)
      as (r1 & w1 & E1 & Hf1 & Hr1 & [->| ->]); rewrite E1.
    2:{ eexists _, _. split; [reflexivity|]. split; [auto|]. rewrite Hf1.
        split; [exact Hcs|]. split; [discriminate|]. split; [discriminate|].
        split.
        - intros _. split; [auto|]. intros c [=].
        - intros _ cd Hcd. exact Hcd. }
    rewrite bind_run.
    destruct (backup_step_spec dst cb w1) as (r2 & w2 & E2 & Hf2 & Hr2 & Hres2).
    rewrite E2.
    assert (Hsrc2 : files w2 !! src = Some cs).
    { destruct cb.
      - rewrite Hf2 by auto. rewrite Hf1. exact Hcs.
      - destruct r2 as [[]|e].
        + destruct Hres2 as [-> _]. rewrite Hf1. exact Hcs.
        + destruct Hres2 as (H & _). discriminate H. }
    assert (Hdst2 : files w2 !! dst = files w !! dst).
    { rewrite Hf2.
      - rewrite Hf1. reflexivity.
      - apply not_eq_sym, (proj1 (staging_backup_ne dst)). }
    destruct r2 as [[]|e].
    2:{ destruct Hres2 as (-> & _ & He1 & He2).
        eexists _, _. split; [reflexivity|]. split; [auto|].
        split; [exact Hsrc2|]. split; [exact He1|]. split; [exact He2|].
        split; [discriminate|].
        intros _ cd Hcd. rewrite Hdst2. exact Hcd. }
    destruct Hres2 as (Hw2 & Hno).
    assert (Hw : files w2 = files w) by (rewrite Hw2; exact Hf1).
    assert (Hnone : cb = true -> files w !! dst = None).
    { intros Hcb. specialize (Hno Hcb). apply orb_false_iff in Hno as [Hno _].
      unfold is_file in Hno. rewrite Hf1 in Hno.
      destruct (files w !! dst); [discriminate|reflexivity]. }
    rewrite bind_run.
    destruct (transfer_step_spec src dst v w2 cs Hsrc2 Hsd Hst)
      as (r3 & w3 & E3 & Hf3 & Hr3 & Hres3).
    rewrite E3.
    destruct r3 as [[]|e].
    - destruct Hres3 as (Hs3 & Hd3 & Hc3).
      eexists _, _. split; [reflexivity|]. split; [auto|].
      split; [reflexivity|]. split; [exact Hs3|]. split; [exact Hd3|].
      split; [auto|]. exact Hnone.
    - destruct Hres3 as (Hs3 & Hd3 & Hfo & He1 & He2).
      eexists _, _. split; [reflexivity|]. split; [auto|].
      split; [exact Hs3|]. split; [exact He1|]. split; [exact He2|].
      split.
      + intros Hcb. split.
        * destruct Hd3 as [Hd3|[-> Hd3]].
          -- left. rewrite Hd3, Hw. reflexivity.
          -- right. split; [reflexivity|]. intros Hrel. apply Hd3. auto.
        * intros c Hc. destruct (Hfo c Hc) as [H1 H2]. split; [exact H1|].
          rewrite H2, Hw. reflexivity.
      + intros Hcb cd Hcd. rewrite (Hnone Hcb) in Hcd. discriminate Hcd.
Qed.

  (** With [create_backup] and something at the destination the move ends
      in the backup step at the latest, and with an error. *)
Lemma move_file_atomic_backup_spec src dst (v : bool) w :
    is_file w dst || is_dir w dst = true ->
    exists e w',
      move_file_atomic md5 src dst v true w = (Exc e, w') /\
      (forall q, q <> staging_path (backup_path dst) -> files w' !! q = files w !! q) /\
      (reliable w -> reliable w') /\
      e <> FileIntegrityError /\ e <> OutOfFuel.
Proof.
    intros Hex.
    rewrite move_file_atomic_unfold, bind_run. unfold path_exists.
    destruct (is_file w src || is_dir w src); cbv beta iota;
      [change (negb true) with false | change (negb false) with true]; cbv beta iota.
    2:{ eexists _, _. split; [reflexivity|]. split; [auto|]. split; [auto|].
        split; discriminate. }
    rewrite bind_run.
    pose proof (ensure_directory_dirs (parent dst) w) as Hd1.
    destruct (ensure_directory_spec (parent dst) w)
      as (r1 & w1 & E1 & Hf1 & Hr1 & [->| ->]); rewrite E1 in *.
    2:{ eexists _, _. split; [reflexivity|]. rewrite Hf1. split; [auto|].
        split; [auto|]. split; discriminate. }
    cbn [snd] in Hd1.
    assert (Hex1 : is_file w1 dst || is_dir w1 dst = true).
    { apply orb_true_iff in Hex as [H|H]; apply orb_true_iff.
      - left. unfold is_file in *. rewrite Hf1. exact H.
      - right. unfold is_dir in *. apply bool_decide_eq_true in H.
        apply bool_decide_eq_true. apply Hd1. exact H. }
    rewrite bind_run.
    destruct (backup_step_spec dst true w1) as (r2 & w2 & E2 & Hf2 & Hr2 & Hres2).
    rewrite E2. destruct r2 as [[]|e].
    - destruct Hres2 as (_ & Hno). rewrite (Hno eq_refl) in Hex1. discriminate Hex1.
    - destruct Hres2 as (_ & _ & He1 & He2).
      eexists _, _. split; [reflexivity|].
      split; [intros q Hq; rewrite Hf2 by exact Hq; rewrite Hf1; reflexivity|].
      split; [auto|]. split; assumption.
Qed.

End MoveFacts.

(** ** utils/file_ops.py: what the copy and the move guarantee *)

(** X1.  [calculate_file_hash] reads the file in chunks of 8192 bytes and
    yet returns the digest of its whole content, whatever its length; it
    changes no file; and any [OSError] on the way reaches the caller as a
    [FileOperationError] whose cause is that [OSError]. *)
Theorem calculate_file_hash_whole_content
    (md5 : list Byte.byte -> string) (p : Py.Path) (w : FileOps.world) :
  let r := FileOps.calculate_file_hash md5 p w in
  FileOps.files (snd r) = FileOps.files w /\
  ((exists c, FileOps.files w !! p = Some c /\ fst r = FileOps.Ok (md5 c)) \/
   fst r = FileOps.Exc (FileOps.FileOperationError FileOps.OSError)).
Proof.
  cbv zeta.
  destruct (calculate_file_hash_spec md5 p w) as (r & w' & E & Hf & _ & Hres).
  rewrite E. simpl. split; [exact Hf|].
  destruct Hres as [->|(c & Hc & ->)]; [right; reflexivity|left; eauto].
Qed.

(** X2.  [copy_file_atomic] is atomic on the destination: whenever it
    raises, the destination path holds exactly what it held before (it is
    not created if it did not exist); and in every outcome the only paths
    whose content can differ afterwards are the destination and its staging
    path. *)
Theorem copy_file_atomic_destination_untouched_on_error
    (md5 : list Byte.byte -> string) (src dst : Py.Path) (v pm : bool)
    (w : FileOps.world) :
  let r := FileOps.copy_file_atomic md5 src dst v pm w in
  (forall q, q <> dst -> q <> FileOps.staging_path dst ->
     FileOps.files (snd r) !! q = FileOps.files w !! q) /\
  (forall e, fst r = FileOps.Exc e ->
     FileOps.files (snd r) !! dst = FileOps.files w !! dst).
Proof.
  cbv zeta.
  destruct (copy_file_atomic_spec md5 src dst v pm w) as (r & w' & E & Hf & _ & Hres).
  rewrite E. simpl. split; [exact Hf|].
  intros e ->. apply Hres.
Qed.

(** X3.  [copy_file_atomic] returns with [preserve_metadata] off only; and
    when it returns, on a medium that stores what is written and for a source
    that is not the staging path of the destination: it returns the
    destination, the destination holds the content of the source, the staging
    file is gone, and the source is kept. *)
Theorem copy_file_atomic_success
    (md5 : list Byte.byte -> string) (src dst p : Py.Path) (v pm : bool)
    (w w' : FileOps.world) (cs : list Byte.byte) :
  FileOps.reliable w ->
  FileOps.files w !! src = Some cs ->
  src <> FileOps.staging_path dst ->
  FileOps.copy_file_atomic md5 src dst v pm w = (FileOps.Ok p, w') ->
  p = dst /\
  pm = false /\
  FileOps.files w' !! dst = Some cs /\
  FileOps.files w' !! FileOps.staging_path dst = None /\
  (src <> dst -> FileOps.files w' !! src = Some cs).
Proof.
  intros Hrel Hcs Hst E.
  destruct (copy_file_atomic_spec md5 src dst v pm w) as (r & w1 & E1 & Hf & _ & Hres).
  rewrite E in E1. injection E1 as <- <-.
  destruct Hres as (-> & Htmp & _ & Hcont & Hpm).
  destruct (Hcont Hst Hrel) as (cs' & H1 & H2).
  split; [reflexivity|]. split; [exact Hpm|]. split; [congruence|].
  split; [exact Htmp|].
  intros Hsd. rewrite Hf by assumption. exact Hcs.
Qed.

Lemma calm_world_reliable : FileOps.reliable FileOps.calm_world.
Proof. constructor. Defined.

(** [x] copied onto [y] with verification and without the metadata. *)
Lemma copy_file_atomic_success_witness :
  let x := ["data"; "x"]%string in
  let y := ["data"; "y"]%string in
  let w' := snd (FileOps.copy_file_atomic FileOps.sample_md5 x y true false
                   FileOps.calm_world) in
  y = y /\
  false = false /\
  FileOps.files w' !! y = Some [Byte.x61] /\
  FileOps.files w' !! FileOps.staging_path y = None /\
  (x <> y -> FileOps.files w' !! x = Some [Byte.x61]).
Proof.
  cbv zeta.
  apply (copy_file_atomic_success FileOps.sample_md5
           ["data"; "x"]%string ["data"; "y"]%string ["data"; "y"]%string
           true false FileOps.calm_world).
  - exact calm_world_reliable.
  - vm_compute. reflexivity.
  - vm_compute. discriminate.
  - vm_compute. reflexivity.
Defined.

(** X4.  [copy_file_atomic] never raises [FileIntegrityError] to its
    caller, although its docstring lists it: a hash mismatch is raised inside
    the [try] block, caught by its own [except Exception] clause and re-raised
    as a plain [FileOperationError] whose cause is the [FileIntegrityError].
    Every error it raises is [FileNotFoundError], [FilePermissionError],
    [ValueError], a wrapping [FileOperationError], or the [OSError] of a
    failed cleanup; what a [FileOperationError] wraps is an [OSError], the
    [FileOperationError] of a hash that could not be computed, the
    [FileIntegrityError] (with [verify_integrity] only) or the
    [AttributeError] of the metadata step (with [preserve_metadata] only);
    whenever it is a [FileOperationError] no staging file is left; and the
    mismatch case does occur (a copy without the metadata step, a write of
    which stores other bytes). *)
Theorem copy_file_atomic_wraps_integrity_error :
  (forall (md5 : list Byte.byte -> string) (src dst : Py.Path) (v pm : bool)
          (w : FileOps.world) (e : FileOps.error),
     fst (FileOps.copy_file_atomic md5 src dst v pm w) = FileOps.Exc e ->
     e <> FileOps.FileIntegrityError /\ e <> FileOps.OutOfFuel /\
     (e = FileOps.FileNotFoundError \/
      e = FileOps.FilePermissionError FileOps.OSError \/
      e = FileOps.ValueError \/
      e = FileOps.OSError \/
      (exists c,
         e = FileOps.FileOperationError c /\
         (c = FileOps.OSError \/
          c = FileOps.FileOperationError FileOps.OSError \/
          (c = FileOps.FileIntegrityError /\ v = true) \/
          (c = FileOps.AttributeError /\ pm = true)) /\
         FileOps.files (snd (FileOps.copy_file_atomic md5 src dst v pm w))
           !! FileOps.staging_path dst = None)))
  /\
  (let r := FileOps.copy_file_atomic FileOps.sample_md5
              ["data"; "a.mkv"]%string ["out"; "a.mkv"]%string true false
              FileOps.garbling_world in
   fst r = FileOps.Exc (FileOps.FileOperationError FileOps.FileIntegrityError) /\
   FileOps.files (snd r) !! ["out"; "a.mkv"]%string = None /\
   FileOps.files (snd r) !! ["out"; "a.mkv.tmp"]%string = None /\
   FileOps.files (snd r) !! ["data"; "a.mkv"]%string = Some [Byte.x61; Byte.x62]).
Proof.
  split.
  - intros md5 src dst v pm w e E.
    destruct (copy_file_atomic_spec md5 src dst v pm w) as (r & w' & E1 & _ & _ & Hres).
    rewrite E1 in *. simpl in E. subst r. simpl. destruct Hres as (_ & He).
    destruct He as [[-> _]|[[-> _]|[[-> _]|[->|(c & -> & Hc & Hs)]]]];
      (split; [discriminate|]); (split; [discriminate|]); eauto 10.
  - cbv zeta. repeat split; vm_compute; reflexivity.
Qed.

(** X5.  A source that is the staging path of the destination
    ([destination] plus [".tmp"]) is destroyed: the copy opens the staging
    path for writing, which truncates the source, and whenever the copy then
    returns or raises its [FileOperationError] the source file no longer
    exists. *)
Theorem copy_file_atomic_from_staging_path_loses_source
    (md5 : list Byte.byte -> string) (dst : Py.Path) (v pm : bool)
    (w : FileOps.world) :
  let src := FileOps.staging_path dst in
  let r := FileOps.copy_file_atomic md5 src dst v pm w in
  (forall p, fst r = FileOps.Ok p -> FileOps.files (snd r) !! src = None) /\
  (forall c, fst r = FileOps.Exc (FileOps.FileOperationError c) ->
     FileOps.files (snd r) !! src = None).
Proof.
  cbv zeta.
  destruct (copy_file_atomic_spec md5 (FileOps.staging_path dst) dst v pm w)
    as (r & w' & E & _ & _ & Hres).
  rewrite E. simpl. split.
  - intros p ->. apply Hres.
  - intros c ->. destruct Hres as (_ & He).
    destruct He as [[H _]|[[H _]|[[H _]|[H|(c' & _ & _ & Hs)]]]];
      try discriminate H. exact Hs.
Qed.

(** X6.  [move_file_atomic] with [create_backup] never returns when
    something exists at the destination: the backup copy is made with
    [preserve_metadata] on, so that it ends with an error, and the move with
    it, before the rename is tried.  Nothing is moved and no backup is made:
    every path but the staging path of the backup ([destination] plus
    [".backup.tmp"]) holds what it held, the destination, the backup path and
    any other source among them. *)
Theorem move_file_atomic_with_backup_never_returns
    (md5 : list Byte.byte -> string) (src dst : Py.Path) (v : bool)
    (w : FileOps.world) :
  FileOps.is_file w dst || FileOps.is_dir w dst = true ->
  let r := FileOps.move_file_atomic md5 src dst v true w in
  (exists e, fst r = FileOps.Exc e /\ e <> FileOps.FileIntegrityError) /\
  (forall q, q <> FileOps.staging_path (FileOps.backup_path dst) ->
     FileOps.files (snd r) !! q = FileOps.files w !! q).
Proof.
  intros Hex. cbv zeta.
  destruct (move_file_atomic_backup_spec md5 src dst v w Hex)
    as (e & w' & E & Hf & _ & He & _).
  rewrite E. simpl. split; [exists e; auto|exact Hf].
Qed.

(** [x] moved onto the existing [y], no system call failing. *)
Lemma move_file_atomic_with_backup_never_returns_witness :
  let x := ["data"; "x"]%string in
  let y := ["data"; "y"]%string in
  let r := FileOps.move_file_atomic FileOps.sample_md5 x y true true
             FileOps.calm_world in
  (exists e, fst r = FileOps.Exc e /\ e <> FileOps.FileIntegrityError) /\
  (forall q, q <> FileOps.staging_path (FileOps.backup_path y) ->
     FileOps.files (snd r) !! q = FileOps.files FileOps.calm_world !! q).
Proof.
  cbv zeta.
  apply (move_file_atomic_with_backup_never_returns FileOps.sample_md5
           ["data"; "x"]%string ["data"; "y"]%string true FileOps.calm_world).
  vm_compute. reflexivity.
Defined.

(** X7.  [move_file_atomic] deletes the source only once the destination
    holds its content: for a source that is none of the paths the call writes
    to, if the call raises, the source still exists with its content, and if
    it returns, the source is gone and (on a medium that stores what is
    written) the destination holds its content.  The error raised is never
    [FileIntegrityError]; and without [create_backup], when a
    [FileOperationError] is raised (the fallback copy failed), no staging
    file is left and the destination is as it was. *)
Theorem move_file_atomic_keeps_source_until_done
    (md5 : list Byte.byte -> string) (src dst : Py.Path) (v cb : bool)
    (w : FileOps.world) (cs : list Byte.byte) :
  FileOps.files w !! src = Some cs ->
  src <> dst -> src <> FileOps.staging_path dst ->
  (cb = true ->
   src <> FileOps.backup_path dst /\
   src <> FileOps.staging_path (FileOps.backup_path dst)) ->
  let r := FileOps.move_file_atomic md5 src dst v cb w in
  (forall e, fst r = FileOps.Exc e ->
     FileOps.files (snd r) !! src = Some cs /\
     e <> FileOps.FileIntegrityError /\
     (cb = false -> forall c, e = FileOps.FileOperationError c ->
        FileOps.files (snd r) !! FileOps.staging_path dst = None /\
        FileOps.files (snd r) !! dst = FileOps.files w !! dst)) /\
  (forall p, fst r = FileOps.Ok p ->
     p = dst /\ FileOps.files (snd r) !! src = None /\
     is_Some (FileOps.files (snd r) !! dst) /\
     (FileOps.reliable w -> FileOps.files (snd r) !! dst = Some cs)).
Proof.
  intros Hcs H1 H2 H3. cbv zeta.
  destruct (move_file_atomic_spec md5 src dst v cb w cs Hcs H1 H2
              (fun H => proj2 (H3 H)))
    as (r & w1 & E1 & _ & Hres).
  rewrite E1. simpl. split.
  - intros e ->. destruct Hres as (Hs & He & _ & Hno & _).
    split; [exact Hs|]. split; [exact He|].
    intros Hcb c Hc. exact (proj2 (Hno Hcb) c Hc).
  - intros p ->. destruct Hres as (-> & Hs & Hd & Hc & _). auto.
Qed.

(** The direct rename fails and then the fallback copy cannot open the
    source: the move raises and the source is still there. *)
Lemma move_file_atomic_keeps_source_until_done_witness :
  let x := ["data"; "x"]%string in
  let y := ["data"; "y"]%string in
  let w := {| FileOps.files := FileOps.files FileOps.calm_world;
              FileOps.dirs := FileOps.dirs FileOps.calm_world;
              FileOps.script := [FileOps.Fail; FileOps.Fail] |} in
  let r := FileOps.move_file_atomic FileOps.sample_md5 x y true false w in
  fst r = FileOps.Exc (FileOps.FileOperationError FileOps.OSError) /\
  FileOps.files (snd r) !! x = Some [Byte.x61] /\
  FileOps.FileOperationError FileOps.OSError <> FileOps.FileIntegrityError /\
  (false = false -> forall c,
     FileOps.FileOperationError FileOps.OSError = FileOps.FileOperationError c ->
     FileOps.files (snd r) !! FileOps.staging_path y = None /\
     FileOps.files (snd r) !! y = FileOps.files w !! y).
Proof.
  cbv zeta.
  split; [vm_compute; reflexivity|].
  refine (proj1 (move_file_atomic_keeps_source_until_done FileOps.sample_md5
                   ["data"; "x"]%string ["data"; "y"]%string true false _
                   [Byte.x61] _ _ _ _) _ _).
  - vm_compute. reflexivity.
  - discriminate.
  - vm_compute. discriminate.
  - discriminate.
  - vm_compute. reflexivity.
Defined.




(** C7.  The code at the claim's input: [data/a.mkv] copied to
    [out/a.mkv] with [verify_integrity], a write storing other bytes than
    those read.  Without the metadata step the hashes differ, the staging
    file is removed, and the caller receives a [FileOperationError] whose
    cause is the [FileIntegrityError], which is not a [FileIntegrityError];
    with [preserve_metadata] on, the default, the verification is not
    reached: the copy ends before it with the [AttributeError] of
    [aiofiles.os.utime], wrapped alike.  In both runs the destination is not
    created and no staging file is left. *)
Theorem C7_integrity_error_reaches_the_caller_wrapped :
  let src := ["data"; "a.mkv"]%string in
  let dst := ["out"; "a.mkv"]%string in
  let plain := FileOps.copy_file_atomic FileOps.sample_md5 src dst true false
                 FileOps.garbling_world in
  let default := FileOps.copy_file_atomic FileOps.sample_md5 src dst true true
                   FileOps.garbling_world in
  fst plain = FileOps.Exc (FileOps.FileOperationError FileOps.FileIntegrityError) /\
  fst plain <> FileOps.Exc FileOps.FileIntegrityError /\
  FileOps.files (snd plain) !! dst = None /\
  FileOps.files (snd plain) !! FileOps.staging_path dst = None /\
  fst default = FileOps.Exc (FileOps.FileOperationError FileOps.AttributeError) /\
  FileOps.files (snd default) !! dst = None /\
  FileOps.files (snd default) !! FileOps.staging_path dst = None.
Proof.
  cbv zeta. repeat split; try (vm_compute; reflexivity).
  vm_compute. discriminate.
Qed.

(** C8.  The code at the claim's input: [data/x] ("a") moved onto the
    existing [data/y] ("b") with [create_backup], no system call failing.
    The backup copy raises the [AttributeError] of [aiofiles.os.utime],
    wrapped in a [FileOperationError], and the move ends with it: no file is
    at [data/y.backup], [data/y] still holds "b" and [data/x] still holds
    "a". *)
Theorem C8_backup_copy_raises :
  let x := ["data"; "x"]%string in
  let y := ["data"; "y"]%string in
  let r := FileOps.move_file_atomic FileOps.sample_md5 x y true true
             FileOps.calm_world in
  fst r = FileOps.Exc (FileOps.FileOperationError FileOps.AttributeError) /\
  FileOps.files (snd r) !! FileOps.backup_path y = None /\
  FileOps.files (snd r) !! y = Some [Byte.x62] /\
  FileOps.files (snd r) !! x = Some [Byte.x61].
Proof.
  cbv zeta. repeat split; vm_compute; reflexivity.
Qed.

(** C10.  The code at two inputs of the claim, the direct rename raising
    [OSError] in both.  [data/y.tmp] ("a") moved to [data/y]: the fallback
    copy stages at the destination plus [".tmp"], which is the source;
    opening it for writing empties the source, the copy then raises (the
    [AttributeError] of [aiofiles.os.utime], wrapped), and its handler
    removes the staging file: the fallback copy has raised, and the source no
    longer exists.  [data/x] ("a") moved to [data/y] ("b"): the fallback
    copy raises the same error after the content was staged, so that the move
    ends with it; the source and the destination hold what they held and no
    staging file is left. *)
Theorem C10_fallback_copy_raises_and_source_is_lost :
  let src := ["data"; "y.tmp"]%string in
  let x := ["data"; "x"]%string in
  let dst := ["data"; "y"]%string in
  let r := FileOps.move_file_atomic FileOps.sample_md5 src dst true false
             FileOps.staging_source_world in
  let r' := FileOps.move_file_atomic FileOps.sample_md5 x dst true false
              FileOps.cross_device_world in
  (FileOps.staging_path dst = src /\
   FileOps.files FileOps.staging_source_world !! src = Some [Byte.x61] /\
   fst r = FileOps.Exc (FileOps.FileOperationError FileOps.AttributeError) /\
   FileOps.files (snd r) !! src = None /\
   FileOps.files (snd r) !! dst = None) /\
  (fst r' = FileOps.Exc (FileOps.FileOperationError FileOps.AttributeError) /\
   FileOps.files (snd r') !! x = Some [Byte.x61] /\
   FileOps.files (snd r') !! dst = Some [Byte.x62] /\
   FileOps.files (snd r') !! FileOps.staging_path dst = None).
Proof.
  cbv zeta. repeat split; vm_compute; reflexivity.
Qed.

(** ** utils/retry.py: the loop in general *)

Section RetryLoopFacts.
Import Retry.
Context {A : Type}.
Variable func : nat -> call_result A.
Variable rnd : nat -> Q.

Lemma total_sum_snoc (l : list Q) (d : Q) : (total (l ++ [d]) == total l + d)%Q.
Proof.
    induction l as [|x l IH]; simpl.
    - ring.
    - rewrite IH. ring.
Qed.

  (** What the loop keeps true from one iteration to the next. *)
Lemma retry_loop_accounting (fuel : nat) :
    forall (calls : nat) (slept : list Q) (ctx : RetryContext) (r : run A),
      calls = List.length slept ->
      attempt ctx = Z.of_nat (List.length slept) ->
      (total_delay ctx == total slept)%Q ->
      retry_loop fuel func rnd calls slept ctx = Some (Finished r) ->
      strategy (context r) = strategy ctx /\
      invocations r = S (List.length (sleeps r)) /\
      attempt (context r) = Z.of_nat (List.length (sleeps r)) /\
      (total_delay (context r) == total (sleeps r))%Q /\
      (attempt (context r) <= Z.max (attempt ctx) (max_attempts (strategy ctx)))%Z /\
      match result r with
      | inl a => func (List.length (sleeps r)) = Returned a
      | inr err =>
          attempts err = Z.of_nat (List.length (sleeps r)) /\
          func (List.length (sleeps r)) = Raised (last_exception err) /\
          should_retry (strategy ctx) (attempts err) (last_exception err) = false
      end.
Proof.
    induction fuel as [|fuel IH]; intros calls slept ctx r Hc Ha Ht; [discriminate|].
    simpl. destruct (func calls) as [a|e] eqn:Ef.
    - intros [= <-]. simpl. subst calls. repeat split; auto; try congruence. lia.
    - unfold context_should_retry.
      destruct (should_retry (strategy ctx) (attempt ctx) e) eqn:Es.
      + destruct (get_delay (strategy ctx) (attempt ctx) e (rnd calls)) as [err|d];
          [discriminate|].
        intros Hr.
        apply IH in Hr; simpl.
        * simpl in Hr. destruct Hr as (H1 & H2 & H3 & H4 & H5 & H6).
          unfold should_retry in Es.
          destruct (max_attempts (strategy ctx) <=? attempt ctx) eqn:El;
            [discriminate|].
          apply Z.leb_gt in El.
          repeat split; auto; try lia.
        * rewrite length_app. simpl. lia.
        * rewrite length_app. simpl. lia.
        * rewrite total_sum_snoc, Ht. reflexivity.
      + intros [= <-]. simpl. subst calls.
        unfold get_final_exception. simpl. rewrite last_last.
        repeat split; auto; try congruence; try lia.
Qed.

End RetryLoopFacts.

Section RetryPrefixFacts.
Import Retry.
Context {A : Type}.
Variable func : nat -> call_result A.
Variable errs : nat -> exn.
Variable rnd : nat -> Q.

  (** [k] failures in a row that the strategy retries take the loop [k]
      iterations further. *)
Lemma retry_loop_retries (k : nat) :
    forall (fuel calls : nat) (slept : list Q) (ctx : RetryContext),
      (forall j, (j < k)%nat ->
         func (calls + j)%nat = Raised (errs (calls + j)%nat) /\
         should_retry (strategy ctx) (attempt ctx + Z.of_nat j)
           (errs (calls + j)%nat) = true /\
         exists d, get_delay (strategy ctx) (attempt ctx + Z.of_nat j)
                     (errs (calls + j)%nat) (rnd (calls + j)%nat) = inr d) ->
      exists slept' ctx',
        retry_loop (k + fuel) func rnd calls slept ctx
        = retry_loop fuel func rnd (calls + k) slept' ctx' /\
        strategy ctx' = strategy ctx /\
        attempt ctx' = (attempt ctx + Z.of_nat k)%Z /\
        List.length slept' = (List.length slept + k)%nat.
Proof.
    induction k as [|k IH]; intros fuel calls slept ctx H.
    - exists slept, ctx. rewrite Nat.add_0_r, Z.add_0_r, Nat.add_0_r. auto.
    - destruct (H 0%nat ltac:(lia)) as (Hf & Hs & d & Hd).
      rewrite Nat.add_0_r in Hf, Hs, Hd. change (Z.of_nat 0) with 0%Z in Hs, Hd.
      rewrite Z.add_0_r in Hs, Hd.
      change (S k + fuel)%nat with (S (k + fuel)). simpl retry_loop.
      rewrite Hf. unfold context_should_retry. rewrite Hs, Hd.
      match goal with
      | |- context [retry_loop (k + fuel) func rnd (S calls) ?sl ?c] =>
          destruct (IH fuel (S calls) sl c) as (slept' & ctx' & E & H1 & H2 & H3)
      end.
      { intros j Hj. simpl strategy. simpl attempt.
        destruct (H (S j) ltac:(lia)) as (Hf' & Hs' & Hd').
        replace (S calls + j)%nat with (calls + S j)%nat by lia.
        replace (attempt ctx + 1 + Z.of_nat j)%Z
          with (attempt ctx + Z.of_nat (S j))%Z by lia.
        auto. }
      exists slept', ctx'. rewrite E.
      replace (S calls + k)%nat with (calls + S k)%nat by lia.
      split; [reflexivity|]. simpl in H1, H2. split; [exact H1|].
      split; [lia|]. rewrite H3, length_app. simpl. lia.
Qed.

End RetryPrefixFacts.

(** X10.  Whenever [retry_async] ends, with a value or with a
    [RetryError], and for whichever operation: it has called the operation
    once more than it has slept; the
    context's attempt counter equals the number of sleeps and its
    [total_delay] their sum; with a non-negative [max_attempts] it has slept
    at most [max_attempts] times, so the operation is never called more than
    [max_attempts + 1] times; a returned value is the one of the last call;
    and a [RetryError] carries the number of sleeps as its attempt count and
    the error of the last call, which the strategy refused to retry. *)
Theorem retry_async_accounting {A : Type} (fuel : nat)
    (func : nat -> Retry.call_result A) (rnd : nat -> Q)
    (s : Retry.RetryStrategy) (r : Retry.run A) :
  Retry.retry_async fuel func rnd (Some s) = Some (Retry.Finished r) ->
  Retry.invocations r = S (List.length (Retry.sleeps r)) /\
  Retry.attempt (Retry.context r) = Z.of_nat (List.length (Retry.sleeps r)) /\
  (Retry.total_delay (Retry.context r) == Retry.total (Retry.sleeps r))%Q /\
  (Z.of_nat (List.length (Retry.sleeps r)) <= Z.max 0 (Retry.max_attempts s))%Z /\
  match Retry.result r with
  | inl a => func (List.length (Retry.sleeps r)) = Retry.Returned a
  | inr err =>
      Retry.attempts err = Z.of_nat (List.length (Retry.sleeps r)) /\
      func (List.length (Retry.sleeps r)) = Retry.Raised (Retry.last_exception err) /\
      Retry.should_retry s (Retry.attempts err) (Retry.last_exception err) = false
  end.
Proof.
  unfold Retry.retry_async. intros H.
  apply retry_loop_accounting in H; try reflexivity.
  simpl in H. destruct H as (_ & H1 & H2 & H3 & H4 & H5).
  repeat split; try assumption. rewrite <- H2. exact H4.
Qed.

(** Two failures that are retried, then a value. *)
Lemma retry_async_accounting_witness :
  let e := Retry.mk_exn Retry.OSError "busy" in
  let func := fun k : nat =>
    if (k <? 2)%nat then Retry.Raised e else Retry.Returned 7%Z in
  let s := Retry.FixedDelayStrategy 3 (1 # 2) [Retry.OSError] in
  let r := Retry.mk_run (inl 7%Z) 3 [(1 # 2)%Q; (1 # 2)%Q]
             {| Retry.strategy := s; Retry.attempt := 2;
                Retry.exceptions := [e; e]; Retry.total_delay := 0 + (1 # 2) + (1 # 2) |} in
  Retry.invocations r = S (List.length (Retry.sleeps r)) /\
  Retry.attempt (Retry.context r) = Z.of_nat (List.length (Retry.sleeps r)) /\
  (Retry.total_delay (Retry.context r) == Retry.total (Retry.sleeps r))%Q /\
  (Z.of_nat (List.length (Retry.sleeps r)) <= Z.max 0 (Retry.max_attempts s))%Z /\
  match Retry.result r with
  | inl a => func (List.length (Retry.sleeps r)) = Retry.Returned a
  | inr err =>
      Retry.attempts err = Z.of_nat (List.length (Retry.sleeps r)) /\
      func (List.length (Retry.sleeps r)) = Retry.Raised (Retry.last_exception err) /\
      Retry.should_retry s (Retry.attempts err) (Retry.last_exception err) = false
  end.
Proof.
  cbv zeta.
  apply (retry_async_accounting 5
           (fun k : nat =>
              if (k <? 2)%nat then Retry.Raised (Retry.mk_exn Retry.OSError "busy")
              else Retry.Returned 7%Z)
           (fun _ => 0%Q)).
  reflexivity.
Defined.

(** X11.  [retry_async] returns the first value the operation returns: if
    the first [k] calls raise errors of the strategy's whitelist, [k] is at
    most [max_attempts], the delay after each of them is computed without an
    arithmetic error, and the call after them returns [a], then [retry_async]
    returns [a] after exactly [k + 1] invocations and [k] sleeps. *)
Theorem retry_async_returns_first_success {A : Type} (s : Retry.RetryStrategy)
    (func : nat -> Retry.call_result A) (errs : nat -> Retry.exn)
    (rnd : nat -> Q) (k fuel : nat) (a : A) :
  (forall j, (j < k)%nat ->
     func j = Retry.Raised (errs j) /\
     Retry.isinstance (errs j) (Retry.retryable_exceptions s) = true /\
     exists d, Retry.get_delay s (Z.of_nat j) (errs j) (rnd j) = inr d) ->
  func k = Retry.Returned a ->
  (Z.of_nat k <= Retry.max_attempts s)%Z ->
  (k < fuel)%nat ->
  exists r,
    Retry.retry_async fuel func rnd (Some s) = Some (Retry.Finished r) /\
    Retry.result r = inl a /\
    Retry.invocations r = S k /\
    List.length (Retry.sleeps r) = k.
Proof.
  intros Hfail Hok Hmax Hfuel. unfold Retry.retry_async.
  replace fuel with (k + (fuel - k))%nat by lia.
  destruct (retry_loop_retries func errs rnd k (fuel - k) 0 [] (Retry.new_context s))
    as (slept & ctx & E & H1 & H2 & H3).
  { intros j Hj. simpl. destruct (Hfail j Hj) as (Hf & Hi & Hd). split; [exact Hf|].
    rewrite Z.add_0_l. split; [|exact Hd].
    unfold Retry.should_retry.
    destruct (Retry.max_attempts s <=? Z.of_nat j)%Z eqn:El;
      [apply Z.leb_le in El; lia|exact Hi]. }
  rewrite E. simpl Nat.add.
  destruct (fuel - k)%nat as [|f] eqn:Ef; [lia|]. simpl. rewrite Hok.
  eexists. split; [reflexivity|]. simpl. auto.
Qed.

(** Two failures, retried after the delays 1 and 2 of an exponential
    backoff, then a value. *)
Lemma retry_async_returns_first_success_witness :
  let e := Retry.mk_exn Retry.OSError "busy" in
  let func := fun k : nat =>
    if (k <? 2)%nat then Retry.Raised e else Retry.Returned 7%Z in
  exists r,
    Retry.retry_async 5 func (fun _ => 0%Q)
      (Some (Retry.ExponentialBackoffStrategy 3 1 60 2 false [Retry.OSError]))
    = Some (Retry.Finished r) /\
    Retry.result r = inl 7%Z /\
    Retry.invocations r = 3%nat /\
    List.length (Retry.sleeps r) = 2%nat.
Proof.
  cbv zeta.
  apply (retry_async_returns_first_success
           (Retry.ExponentialBackoffStrategy 3 1 60 2 false [Retry.OSError])
           (fun k : nat =>
              if (k <? 2)%nat then Retry.Raised (Retry.mk_exn Retry.OSError "busy")
              else Retry.Returned 7%Z)
           (fun _ => Retry.mk_exn Retry.OSError "busy")
           (fun _ => 0%Q) 2 5 7%Z).
  - intros j Hj. destruct j as [|[|j]];
      [split; [reflexivity|split; [reflexivity|eexists; vm_compute; reflexivity]]..|lia].
  - reflexivity.
  - simpl. lia.
  - lia.
Defined.

(** X12.  [retry_async] stops at the first failure the strategy does not
    retry, be it that the attempts are used up or that the error is not of
    the whitelist: if the first [k] calls raise errors that are retried, the
    delay after each of them being computed without an arithmetic error, and
    the call after them raises [e] with [should_retry(k, e)] false, then
    [retry_async] raises [RetryError(k, e)] after exactly [k + 1] invocations;
    an error outside the whitelist on the first call is raised at once, with
    an attempt count of 0. *)
Theorem retry_async_stops_at_refused_error {A : Type} (s : Retry.RetryStrategy)
    (func : nat -> Retry.call_result A) (errs : nat -> Retry.exn)
    (rnd : nat -> Q) (k fuel : nat) :
  (forall j, (j < k)%nat ->
     func j = Retry.Raised (errs j) /\
     Retry.should_retry s (Z.of_nat j) (errs j) = true /\
     exists d, Retry.get_delay s (Z.of_nat j) (errs j) (rnd j) = inr d) ->
  func k = Retry.Raised (errs k) ->
  Retry.should_retry s (Z.of_nat k) (errs k) = false ->
  (k < fuel)%nat ->
  exists r,
    Retry.retry_async (A := A) fuel func rnd (Some s) = Some (Retry.Finished r) /\
    Retry.result r = inr {| Retry.attempts := Z.of_nat k;
                            Retry.last_exception := errs k |} /\
    Retry.invocations r = S k /\
    List.length (Retry.sleeps r) = k.
Proof.
  intros Hfail Hlast Hstop Hfuel. unfold Retry.retry_async.
  replace fuel with (k + (fuel - k))%nat by lia.
  destruct (retry_loop_retries func errs rnd k (fuel - k) 0 [] (Retry.new_context s))
    as (slept & ctx & E & H1 & H2 & H3).
  { intros j Hj. simpl. rewrite Z.add_0_l. exact (Hfail j Hj). }
  rewrite E. simpl Nat.add.
  destruct (fuel - k)%nat as [|f] eqn:Ef; [lia|]. simpl. rewrite Hlast.
  unfold Retry.context_should_retry. rewrite H1, H2. simpl.
  rewrite Z.add_0_l, Hstop.
  eexists. split; [reflexivity|]. simpl.
  unfold Retry.get_final_exception. simpl. rewrite last_last.
  simpl in H3. auto.
Qed.

(** A network strategy meets a [ValueError] on the second call. *)
Lemma retry_async_stops_at_refused_error_witness :
  let errs := fun k : nat =>
    if (k <? 1)%nat then Retry.mk_exn Retry.TimeoutError "slow"
    else Retry.mk_exn Retry.ValueError "bad" in
  exists r,
    Retry.retry_async (A := unit) 5 (fun k => Retry.Raised (errs k)) (fun _ => 0%Q)
      (Some Retry.create_network_retry_strategy) = Some (Retry.Finished r) /\
    Retry.result r = inr {| Retry.attempts := 1;
                            Retry.last_exception := errs 1%nat |} /\
    Retry.invocations r = 2%nat /\
    List.length (Retry.sleeps r) = 1%nat.
Proof.
  cbv zeta.
  apply (retry_async_stops_at_refused_error (A := unit)
           Retry.create_network_retry_strategy
           (fun k => Retry.Raised
              (if (k <? 1)%nat then Retry.mk_exn Retry.TimeoutError "slow"
               else Retry.mk_exn Retry.ValueError "bad"))
           (fun k : nat =>
              if (k <? 1)%nat then Retry.mk_exn Retry.TimeoutError "slow"
              else Retry.mk_exn Retry.ValueError "bad")
           (fun _ => 0%Q) 1 5).
  - intros j Hj. destruct j as [|j];
      [split; [reflexivity|split; [reflexivity|eexists; vm_compute; reflexivity]]|lia].
  - reflexivity.
  - reflexivity.
  - lia.
Defined.

Section RetryDelayFacts.
Import Retry.

  (** The jittered delay is the capped delay times a factor between 3/4 and
      5/4. *)
Lemma exponential_get_delay_range (n : Z) (b m base : Q) (j : bool)
      (r : list exc_class) (a : Z) (e : exn) (u : Q) :
    (0 <= u)%Q -> (u <= 1)%Q -> (0 <= m)%Q ->
    forall d, get_delay (ExponentialBackoffStrategy n b m base j r) a e u = inr d ->
    (0 <= d)%Q /\ (d <= (5 # 4) * m)%Q /\ (j = false -> (d <= m)%Q).
Proof.
    intros Hu0 Hu1 Hm d. unfold get_delay.
    destruct (float_pow base a) as [err|power]; [discriminate|].
    intros [= <-].
    set (raw := (b * power)%Q).
    assert (Hcap : (Qmin raw m <= m)%Q) by apply Q.le_min_r.
    set (c := Qmin raw m) in *.
    split; [apply Q.le_max_l|].
    destruct j.
    - split; [|discriminate].
      apply Q.max_lub; [lra|].
      destruct (Qlt_le_dec c 0) as [Hneg|Hpos].
      + assert (H : (0 <= (- c) * u)%Q) by (apply Qmult_le_0_compat; lra).
        lra.
      + assert (H : (0 <= c * (1 - u))%Q) by (apply Qmult_le_0_compat; lra).
        lra.
    - split; [|intros _]; apply Q.max_lub; lra.
Qed.

Lemma total_le_length (B : Q) (l : list Q) :
    Forall (fun d => (d <= B)%Q) l ->
    (total l <= inject_Z (Z.of_nat (List.length l)) * B)%Q.
Proof.
    induction 1 as [|d l Hd _ IH].
    - unfold total. cbn [List.length fold_right].
      change (inject_Z (Z.of_nat 0)) with 0%Q. lra.
    - cbn [List.length total fold_right]. fold (total l).
      rewrite Nat2Z.inj_succ. unfold Z.succ. rewrite inject_Z_plus.
      change (inject_Z 1) with 1%Q. lra.
Qed.

Lemma total_nonneg (l : list Q) :
    Forall (fun d => (0 <= d)%Q) l -> (0 <= total l)%Q.
Proof.
    induction 1 as [|d l Hd _ IH]; simpl; [lra|]. fold (total l). lra.
Qed.

Context {A : Type}.
Variable func : nat -> call_result A.
Variable rnd : nat -> Q.
Variable P : Q -> Prop.

  (** Every sleep of the loop is a delay the strategy computed from one of
      the samples. *)
Lemma retry_loop_sleeps (fuel : nat) :
    forall (calls : nat) (slept : list Q) (ctx : RetryContext) (r : run A),
      (forall a e k d, get_delay (strategy ctx) a e (rnd k) = inr d -> P d) ->
      Forall P slept ->
      retry_loop fuel func rnd calls slept ctx = Some (Finished r) ->
      Forall P (sleeps r).
Proof.
    induction fuel as [|fuel IH]; intros calls slept ctx r HP Hs; [discriminate|].
    simpl. destruct (func calls) as [a|e].
    - intros [= <-]. exact Hs.
    - unfold context_should_retry.
      destruct (should_retry (strategy ctx) (attempt ctx) e).
      + destruct (get_delay (strategy ctx) (attempt ctx) e (rnd calls)) as [err|d] eqn:Ed;
          [discriminate|].
        apply IH; [exact HP|]. apply Forall_app. split; [exact Hs|].
        constructor; [eapply HP; exact Ed|constructor].
      + intros [= <-]. exact Hs.
Qed.

End RetryDelayFacts.

(** X13.  With an exponential strategy whose [max_delay] is not negative,
    and jitter samples within [[0, 1]], a [retry_async] that ends with a value
    or a [RetryError] has slept no negative time,
    no single sleep is longer than 1.25 times [max_delay] (the jitter is
    added after the cap, so that a sleep can exceed [max_delay] itself; with
    the jitter off none does), and the time slept in total, which the context
    reports as [total_delay], is at most [max_attempts] times that bound. *)
Theorem retry_async_exponential_sleep_bounds {A : Type} (fuel : nat)
    (func : nat -> Retry.call_result A) (rnd : nat -> Q)
    (n : Z) (b m base : Q) (j : bool) (classes : list Retry.exc_class)
    (r : Retry.run A) :
  (forall k, (0 <= rnd k)%Q /\ (rnd k <= 1)%Q) ->
  (0 <= m)%Q ->
  Retry.retry_async fuel func rnd
    (Some (Retry.ExponentialBackoffStrategy n b m base j classes))
  = Some (Retry.Finished r) ->
  Forall (fun d => (0 <= d)%Q /\ (d <= (5 # 4) * m)%Q /\ (j = false -> (d <= m)%Q))
         (Retry.sleeps r) /\
  (0 <= Retry.total_delay (Retry.context r))%Q /\
  (Retry.total_delay (Retry.context r) <= inject_Z (Z.max 0 n) * ((5 # 4) * m))%Q.
Proof.
  intros Hrnd Hm Hrun.
  assert (Hall : Forall (fun d => (0 <= d)%Q /\ (d <= (5 # 4) * m)%Q /\
                                   (j = false -> (d <= m)%Q)) (Retry.sleeps r)).
  { unfold Retry.retry_async in Hrun.
    eapply retry_loop_sleeps; [|constructor|exact Hrun].
    intros a e k d. simpl. destruct (Hrnd k) as [H0 H1].
    apply (exponential_get_delay_range n b m base j classes a e (rnd k) H0 H1 Hm). }
  split; [exact Hall|].
  unfold Retry.retry_async in Hrun.
  apply retry_loop_accounting in Hrun; try reflexivity.
  simpl in Hrun. destruct Hrun as (_ & _ & Hatt & Htot & Hlen & _).
  rewrite Hatt in Hlen. rewrite Htot. split.
  - apply total_nonneg. eapply Forall_impl; [exact Hall|]. intros d Hd. apply Hd.
  - eapply Qle_trans.
    + apply (total_le_length ((5 # 4) * m)).
      eapply Forall_impl; [exact Hall|]. intros d Hd. apply Hd.
    + apply Qmult_le_compat_r; [|lra].
      rewrite <- Zle_Qle. exact Hlen.
Qed.

(** Three capped failures with the jitter at its upper end. *)
Lemma retry_async_exponential_sleep_bounds_witness :
  exists r,
    Retry.retry_async 5
      (fun _ : nat => @Retry.Raised unit (Retry.mk_exn Retry.TimeoutError "slow"))
      (fun _ => 1%Q)
      (Some (Retry.ExponentialBackoffStrategy 2 8 4 2 true [Retry.OSError]))
    = Some (Retry.Finished r) /\
    (Forall (fun d => (0 <= d)%Q /\ (d <= (5 # 4) * 4)%Q /\ (true = false -> (d <= 4)%Q))
            (Retry.sleeps r) /\
     (0 <= Retry.total_delay (Retry.context r))%Q /\
     (Retry.total_delay (Retry.context r) <= inject_Z (Z.max 0 2) * ((5 # 4) * 4))%Q).
Proof.
  eexists. split; [reflexivity|].
  apply (retry_async_exponential_sleep_bounds 5
           (fun _ : nat => @Retry.Raised unit (Retry.mk_exn Retry.TimeoutError "slow"))
           (fun _ => 1%Q) 2 8 4 2 true [Retry.OSError]).
  - intros k. split; lra.
  - lra.
  - reflexivity.
Defined.

Section RetryOverflowFacts.
Import Retry.

Lemma in_float_range (x : Q) (z : Z) :
    (x == inject_Z z)%Q -> (0 <= z)%Z -> (z <= 2 ^ 1023)%Z ->
    out_of_range x = false.
Proof.
    intros Hx H0 H1. unfold out_of_range.
    destruct (Qle_bool float_limit (Qabs x)) eqn:E; [exfalso|reflexivity].
    apply Qle_bool_iff in E.
    assert (Habs : (Qabs x == inject_Z z)%Q).
    { rewrite Hx. apply Qabs_pos. change (inject_Z 0 <= inject_Z z)%Q.
      rewrite <- Zle_Qle. exact H0. }
    rewrite Habs in E.
    unfold float_limit in E. rewrite <- Zle_Qle in E.
    assert (Hlim : (2 ^ 1023 < 2 ^ 1024 - 2 ^ 970)%Z) by (vm_compute; reflexivity).
    apply (Z.lt_irrefl (2 ^ 1023)%Z).
    eapply Z.lt_le_trans; [exact Hlim|]. eapply Z.le_trans; [exact E|exact H1].
Qed.

  (** Base 2: the powers up to [2 ** 1023] are floats. *)
Lemma float_pow_two (a : Z) :
    (0 <= a)%Z -> (a < 1024)%Z -> exists p, float_pow 2 a = inr p.
Proof.
    intros H0 H1. unfold float_pow, int_to_float.
    assert (Hsmall : (1024 <= 2 ^ 1023)%Z) by (vm_compute; discriminate).
    rewrite (in_float_range (inject_Z a) a); [|reflexivity|exact H0|].
    2:{ eapply Z.le_trans; [|exact Hsmall]. apply Z.lt_le_incl. exact H1. }
    destruct (a =? 0)%Z; [eexists; reflexivity|].
    change (Qeq_bool 2 0) with false. cbn [andb].
    rewrite (in_float_range (2 ^ a)%Q (2 ^ a)%Z).
    - eexists; reflexivity.
    - symmetry. apply (Zpower_Qpower 2 a). exact H0.
    - apply Z.pow_nonneg. discriminate.
    - apply Z.pow_le_mono_r; [reflexivity|].
      apply Z.lt_succ_r. exact H1.
Qed.

End RetryOverflowFacts.

(** X28.  The power of an exponential backoff is computed before the cap
    of [max_delay] is applied, and a float power that is out of range raises.
    With the default base 2.0 the delays of the attempts 0 to 1023 are
    computed, and that of attempt 1024 raises [OverflowError], whatever
    [base_delay] and [max_delay]; so with [max_attempts] above 1024 and an
    operation that keeps failing with errors of the whitelist, [retry_async]
    does not end with a [RetryError]: after 1025 invocations and 1024 sleeps
    the [OverflowError] leaves it. *)
Theorem retry_async_exponential_overflow_escapes {A : Type}
    (n : Z) (b m : Q) (j : bool) (classes : list Retry.exc_class)
    (func : nat -> Retry.call_result A) (errs : nat -> Retry.exn)
    (rnd : nat -> Q) (fuel : nat) :
  (1024 < n)%Z ->
  (forall k, func k = Retry.Raised (errs k)) ->
  (forall k, Retry.isinstance (errs k) classes = true) ->
  (1024 < fuel)%nat ->
  let s := Retry.ExponentialBackoffStrategy n b m 2 j classes in
  (forall k e u, (0 <= k < 1024)%Z -> exists d, Retry.get_delay s k e u = inr d) /\
  (forall e u, Retry.get_delay s 1024 e u = inl Retry.OverflowError) /\
  exists slept ctx,
    Retry.retry_async fuel func rnd (Some s)
    = Some (Retry.Escaped Retry.OverflowError 1025 slept ctx) /\
    List.length slept = 1024%nat /\
    Retry.attempt ctx = 1024%Z.
Proof.
  intros Hn Hfail Hretry Hfuel. cbv zeta.
  assert (Hdelay : forall k e u, (0 <= k < 1024)%Z ->
            exists d, Retry.get_delay
                        (Retry.ExponentialBackoffStrategy n b m 2 j classes) k e u
                      = inr d).
  { intros k e u [H0 H1]. unfold Retry.get_delay.
    destruct (float_pow_two k H0 H1) as (p & ->). eexists; reflexivity. }
  assert (Hover : forall e u,
            Retry.get_delay (Retry.ExponentialBackoffStrategy n b m 2 j classes)
              1024 e u = inl Retry.OverflowError).
  { intros e u. unfold Retry.get_delay.
    assert (Hp : Retry.float_pow 2 1024 = inl Retry.OverflowError)
      by (vm_compute; reflexivity).
    rewrite Hp. reflexivity. }
  split; [exact Hdelay|]. split; [exact Hover|].
  unfold Retry.retry_async.
  set (s := Retry.ExponentialBackoffStrategy n b m 2 j classes) in *.
  set (K := 1024%nat) in *.
  assert (HK : Z.of_nat K = 1024%Z) by (vm_compute; reflexivity).
  replace fuel with (K + (fuel - K))%nat by lia.
  destruct (retry_loop_retries func errs rnd K (fuel - K) 0 [] (Retry.new_context s))
    as (slept & ctx & E & H1 & H2 & H3).
  { intros i Hi. rewrite Nat.add_0_l.
    change (Retry.strategy (Retry.new_context s)) with s.
    change (Retry.attempt (Retry.new_context s)) with 0%Z. rewrite Z.add_0_l.
    split; [apply Hfail|]. split.
    - unfold Retry.should_retry. change (Retry.max_attempts s) with n.
      destruct (n <=? Z.of_nat i)%Z eqn:El; [apply Z.leb_le in El; lia|].
      apply Hretry.
    - apply Hdelay. lia. }
  rewrite E. rewrite Nat.add_0_l.
  change (Retry.strategy (Retry.new_context s)) with s in H1.
  change (Retry.attempt (Retry.new_context s)) with 0%Z in H2.
  rewrite Z.add_0_l, HK in H2.
  change (List.length (@nil Q)) with 0%nat in H3. rewrite Nat.add_0_l in H3.
  destruct (fuel - K)%nat as [|f] eqn:Ef; [lia|].
  cbn [Retry.retry_loop]. rewrite Hfail.
  unfold Retry.context_should_retry. rewrite H1, H2.
  assert (Hs : Retry.should_retry s 1024 (errs K) = true).
  { unfold Retry.should_retry. change (Retry.max_attempts s) with n.
    destruct (n <=? 1024)%Z eqn:El; [apply Z.leb_le in El; lia|].
    apply Hretry. }
  rewrite Hs, Hover.
  eexists _, _. split; [reflexivity|]. split; [exact H3|reflexivity].
Qed.

(** The default strategy with [max_attempts=2000]. *)
Lemma retry_async_exponential_overflow_escapes_witness :
  let e := Retry.mk_exn Retry.TimeoutError "slow" in
  let s := Retry.ExponentialBackoffStrategy 2000 1 60 2 true [Retry.Exception] in
  (forall k e u, (0 <= k < 1024)%Z -> exists d, Retry.get_delay s k e u = inr d) /\
  (forall e u, Retry.get_delay s 1024 e u = inl Retry.OverflowError) /\
  exists slept ctx,
    Retry.retry_async 1100 (fun _ => @Retry.Raised unit e) (fun _ => (1 # 2)%Q) (Some s)
    = Some (Retry.Escaped Retry.OverflowError 1025 slept ctx) /\
    List.length slept = 1024%nat /\
    Retry.attempt ctx = 1024%Z.
Proof.
  cbv zeta.
  apply (retry_async_exponential_overflow_escapes 2000 1 60 true [Retry.Exception]
           (fun _ => @Retry.Raised unit (Retry.mk_exn Retry.TimeoutError "slow"))
           (fun _ => Retry.mk_exn Retry.TimeoutError "slow")
           (fun _ => (1 # 2)%Q) 1100).
  - reflexivity.
  - intros k. reflexivity.
  - intros k. reflexivity.
  - apply Nat.ltb_lt. vm_compute. reflexivity.
Defined.

(** ** utils/rate_limiter.py: waiting calls and series of calls *)

Section TokenBucketWaitFacts.
Import RateLimiter RateLimiter.TokenBucket.

Lemma acquire_enough now n s :
    Qle_bool n (tokens (_refill now s)) = true ->
    acquire now n s
    = (Granted,
       {| capacity := capacity (_refill now s);
          refill_rate := refill_rate (_refill now s);
          tokens := (tokens (_refill now s) - n)%Q;
          last_refill := last_refill (_refill now s) |}).
Proof. unfold acquire. cbv zeta. intros ->. reflexivity. Qed.

Lemma acquire_short now n s :
    Qle_bool n (tokens (_refill now s)) = false ->
    Qeq_bool (refill_rate s) 0 = false ->
    acquire now n s
    = (RateLimitExceeded ((n - tokens (_refill now s)) / refill_rate s)%Q,
       _refill now s).
Proof.
    unfold acquire. cbv zeta. intros -> H.
    rewrite refill_rate_refill, H. reflexivity.
Qed.

Lemma refill_tokens_le_capacity now s :
    (tokens s <= capacity s)%Q -> (tokens (_refill now s) <= capacity s)%Q.
Proof.
    intros H. unfold _refill. destruct (Qlt_bool _ _); simpl; [|exact H].
    apply Q.le_min_l.
Qed.

Lemma refill_last_refill_le now s :
    (last_refill s <= now)%Q -> (last_refill (_refill now s) <= now)%Q.
Proof.
    intros H. unfold _refill. destruct (Qlt_bool _ _); simpl; [lra|exact H].
Qed.

Lemma refill_tokens_nonneg now s :
    (0 <= tokens s)%Q -> (0 <= capacity s)%Q -> (0 <= refill_rate s)%Q ->
    (0 <= tokens (_refill now s))%Q.
Proof.
    intros H0 H1 H2. unfold _refill. destruct (Qlt_bool _ _) eqn:E; simpl; [|exact H0].
    q_bool.
    assert (0 <= (now - last_refill s) * refill_rate s)%Q
      by (apply Qmult_le_0_compat; lra).
    apply Q.min_glb; lra.
Qed.

  (** What a refill adds is at most the rate times the time gone by. *)
Lemma refill_budget now s :
    (tokens (_refill now s) + refill_rate s * (0 - last_refill (_refill now s))
     <= tokens s + refill_rate s * (0 - last_refill s))%Q.
Proof.
    unfold _refill. destruct (Qlt_bool _ _) eqn:E; simpl; [|lra].
    pose proof (Q.le_min_r (capacity s)
                  (tokens s + (now - last_refill s) * refill_rate s)%Q).
    lra.
Qed.

Lemma refill_last_refill_mono now s :
    (last_refill s <= last_refill (_refill now s))%Q.
Proof.
    unfold _refill. destruct (Qlt_bool _ _) eqn:E; simpl; [|lra]. q_bool. lra.
Qed.

Lemma refill_last_refill_below horizon now s :
    (now <= horizon)%Q -> (last_refill s <= horizon)%Q ->
    (last_refill (_refill now s) <= horizon)%Q.
Proof.
    intros H1 H2. unfold _refill. destruct (Qlt_bool _ _); simpl; assumption.
Qed.

End TokenBucketWaitFacts.

(** X14.  A series of [acquire] calls on a token bucket, whatever the
    amounts asked for and the order of the clock readings, hands out no more
    than the tokens the bucket held at the start plus what the refill rate
    yields up to the latest reading: starting from a full bucket of capacity
    [c], at most [c + rate * T] tokens are granted in [T] seconds. *)
Theorem token_bucket_serves_within_budget (horizon : Q) (calls : list (Q * Q))
    (s : RateLimiter.TokenBucket.t) :
  (0 <= RateLimiter.TokenBucket.tokens s)%Q ->
  (0 <= RateLimiter.TokenBucket.capacity s)%Q ->
  (0 <= RateLimiter.TokenBucket.refill_rate s)%Q ->
  (RateLimiter.TokenBucket.last_refill s <= horizon)%Q ->
  Forall (fun c => (fst c <= horizon)%Q) calls ->
  (fst (RateLimiter.TokenBucket.serve calls s)
   <= RateLimiter.TokenBucket.tokens s
      + RateLimiter.TokenBucket.refill_rate s
        * (horizon - RateLimiter.TokenBucket.last_refill s))%Q.
Proof.
  revert s.
  induction calls as [|[now n] rest IH]; intros s H0 Hc Hr Hl Hall.
  - simpl. assert (0 <= RateLimiter.TokenBucket.refill_rate s * (horizon - RateLimiter.TokenBucket.last_refill s))%Q
      by (apply Qmult_le_0_compat; lra). lra.
  - inversion Hall as [|? ? Hnow Hrest]; subst. simpl in Hnow.
    pose proof (refill_tokens_nonneg now s H0 Hc Hr) as Ht.
    pose proof (refill_budget now s) as Hb.
    pose proof (refill_last_refill_below horizon now s Hnow Hl) as Hlb.
    cbn [RateLimiter.TokenBucket.serve].
    destruct (Qle_bool n (RateLimiter.TokenBucket.tokens (RateLimiter.TokenBucket._refill now s))) eqn:E.
    + rewrite acquire_enough by exact E.
      match goal with
      | |- context [RateLimiter.TokenBucket.serve rest ?s1] =>
          specialize (IH s1); destruct (RateLimiter.TokenBucket.serve rest s1) as [handed s2]
      end.
      cbn [fst] in *. cbn [RateLimiter.TokenBucket.tokens RateLimiter.TokenBucket.capacity RateLimiter.TokenBucket.refill_rate RateLimiter.TokenBucket.last_refill] in IH.
      rewrite refill_capacity, refill_rate_refill in IH.
      q_bool. specialize (IH ltac:(lra) Hc Hr Hlb Hrest). lra.
    + assert (Hsame : snd (RateLimiter.TokenBucket.acquire now n s) = RateLimiter.TokenBucket._refill now s).
      { unfold RateLimiter.TokenBucket.acquire. cbv zeta. rewrite E.
        destruct (Qeq_bool _ _); reflexivity. }
      assert (Hout : fst (RateLimiter.TokenBucket.acquire now n s) <> RateLimiter.Granted).
      { unfold RateLimiter.TokenBucket.acquire. cbv zeta. rewrite E.
        destruct (Qeq_bool _ _); discriminate. }
      destruct (RateLimiter.TokenBucket.acquire now n s) as [o s1]. cbn [fst snd] in *. subst s1.
      specialize (IH (RateLimiter.TokenBucket._refill now s)).
      destruct (RateLimiter.TokenBucket.serve rest (RateLimiter.TokenBucket._refill now s)) as [handed s2].
      cbn [fst] in *.
      rewrite refill_capacity, refill_rate_refill in IH.
      specialize (IH Ht Hc Hr Hlb Hrest).
      destruct o; try contradiction; cbn [fst]; lra.
Qed.

(** A bucket of two tokens, one more each second: two units at once, a
    third refused, one more after a second. *)
Lemma token_bucket_serves_within_budget_witness :
  let s := RateLimiter.TokenBucket.init 0 2 1 None in
  let calls := [(0, 1); (0, 1); (0, 1); (1, 1)]%Q in
  (fst (RateLimiter.TokenBucket.serve calls s)
   <= RateLimiter.TokenBucket.tokens s
      + RateLimiter.TokenBucket.refill_rate s
        * (1 - RateLimiter.TokenBucket.last_refill s))%Q.
Proof.
  cbv zeta.
  apply (token_bucket_serves_within_budget 1 [(0, 1); (0, 1); (0, 1); (1, 1)]%Q
           (RateLimiter.TokenBucket.init 0 2 1 None)).
  - simpl. lra.
  - simpl. lra.
  - simpl. lra.
  - simpl. lra.
  - repeat constructor; simpl; lra.
Defined.

(** X15.  [acquire_wait(n)] with [n] at most the capacity, on a bucket with
    a positive refill rate whose last refill is not in the future, used by
    no other task meanwhile, returns after at most one sleep: none when the
    refilled bucket holds [n] tokens, and otherwise one of
    [(n - tokens) / refill_rate] seconds, the [retry_after] of the rejection,
    after which the second [acquire] is granted however late the sleep
    ends. *)
Theorem token_bucket_acquire_wait_one_sleep (fuel : nat) (late : nat -> Q)
    (now n : Q) (s : RateLimiter.TokenBucket.t) :
  (0 < RateLimiter.TokenBucket.refill_rate s)%Q ->
  (n <= RateLimiter.TokenBucket.capacity s)%Q ->
  (RateLimiter.TokenBucket.last_refill s <= now)%Q ->
  (forall k, (0 <= late k)%Q) ->
  let have := RateLimiter.TokenBucket.tokens (RateLimiter.TokenBucket._refill now s) in
  exists w,
    RateLimiter.TokenBucket.acquire_wait (S (S fuel)) late now [] n s = Some w /\
    RateLimiter.ended w = RateLimiter.Granted /\
    RateLimiter.naps w =
      (if Qle_bool n have then []
       else [((n - have) / RateLimiter.TokenBucket.refill_rate s)%Q]) /\
    (0 <= RateLimiter.TokenBucket.tokens (RateLimiter.limiter w))%Q.
Proof.
  intros Hr Hn Hl Hlate. cbv zeta.
  set (r := RateLimiter.TokenBucket._refill now s).
  destruct (Qle_bool n (RateLimiter.TokenBucket.tokens r)) eqn:E.
  - cbn [RateLimiter.TokenBucket.acquire_wait]. rewrite acquire_enough by exact E.
    eexists. split; [reflexivity|]. cbn. q_bool. fold r.
    repeat split; try reflexivity. lra.
  - assert (Hrate : Qeq_bool (RateLimiter.TokenBucket.refill_rate s) 0 = false).
    { destruct (Qeq_bool _ _) eqn:E0; [|reflexivity]. q_bool. lra. }
    cbn [RateLimiter.TokenBucket.acquire_wait].
    rewrite acquire_short by assumption. fold r. q_bool.
    set (ra := ((n - RateLimiter.TokenBucket.tokens r)
                / RateLimiter.TokenBucket.refill_rate s)%Q).
    assert (Hra : (0 < ra)%Q) by (apply Qlt_shift_div_l; lra).
    assert (Hmul : (ra * RateLimiter.TokenBucket.refill_rate s
                    == n - RateLimiter.TokenBucket.tokens r)%Q).
    { unfold ra. field. lra. }
    assert (Hnz : Qeq_bool ra 0 = false).
    { destruct (Qeq_bool ra 0) eqn:E0; [|reflexivity]. q_bool. lra. }
    rewrite Hnz. cbn [List.length].
    set (now' := (now + Qmax 0 ra + late 0%nat)%Q).
    assert (Hnow' : (now + ra <= now')%Q).
    { unfold now'. pose proof (Q.le_max_r 0 ra). pose proof (Hlate 0%nat). lra. }
    assert (Hlr : (RateLimiter.TokenBucket.last_refill r <= now)%Q)
      by (apply refill_last_refill_le; exact Hl).
    assert (Hgot : Qle_bool n (RateLimiter.TokenBucket.tokens
                                 (RateLimiter.TokenBucket._refill now' r)) = true).
    { apply Qle_bool_iff. unfold RateLimiter.TokenBucket._refill.
      destruct (Qlt_bool 0 (now' - RateLimiter.TokenBucket.last_refill r)) eqn:E1;
        [|q_bool; lra].
      cbn [RateLimiter.TokenBucket.tokens].
      replace (RateLimiter.TokenBucket.capacity r)
        with (RateLimiter.TokenBucket.capacity s) by (symmetry; apply refill_capacity).
      replace (RateLimiter.TokenBucket.refill_rate r)
        with (RateLimiter.TokenBucket.refill_rate s)
        by (symmetry; apply refill_rate_refill).
      apply Q.min_glb; [exact Hn|].
      assert (ra * RateLimiter.TokenBucket.refill_rate s
              <= (now' - RateLimiter.TokenBucket.last_refill r)
                 * RateLimiter.TokenBucket.refill_rate s)%Q
        by (apply Qmult_le_compat_r; lra).
      lra. }
    rewrite acquire_enough by exact Hgot.
    eexists. split; [reflexivity|]. cbn. q_bool.
    repeat split; try reflexivity. lra.
Qed.

(** An empty bucket of capacity 5 filling at 2 tokens a second: 3 tokens
    take one sleep of a second and a half. *)
Lemma token_bucket_acquire_wait_one_sleep_witness :
  let s := RateLimiter.TokenBucket.init 0 5 2 (Some 0%Q) in
  let have := RateLimiter.TokenBucket.tokens (RateLimiter.TokenBucket._refill 0 s) in
  exists w,
    RateLimiter.TokenBucket.acquire_wait 2 (fun _ => 0%Q) 0 [] 3 s = Some w /\
    RateLimiter.ended w = RateLimiter.Granted /\
    RateLimiter.naps w =
      (if Qle_bool 3 have then []
       else [((3 - have) / RateLimiter.TokenBucket.refill_rate s)%Q]) /\
    (0 <= RateLimiter.TokenBucket.tokens (RateLimiter.limiter w))%Q.
Proof.
  cbv zeta.
  apply (token_bucket_acquire_wait_one_sleep 0 (fun _ => 0%Q) 0 3
           (RateLimiter.TokenBucket.init 0 5 2 (Some 0%Q))).
  - simpl. lra.
  - simpl. lra.
  - simpl. lra.
  - intros k. lra.
Defined.

(** X16.  [acquire_wait(n)] with [n] above the capacity never returns: on a
    bucket holding at most its capacity, with a refill rate other than zero,
    every [acquire] of the loop raises [RateLimitExceeded], which the loop
    catches to sleep and try again, however long the sleeps last. *)
Theorem token_bucket_acquire_wait_over_capacity_never_returns
    (fuel : nat) (late : nat -> Q) (now n : Q) (s : RateLimiter.TokenBucket.t) :
  (RateLimiter.TokenBucket.tokens s <= RateLimiter.TokenBucket.capacity s)%Q ->
  (RateLimiter.TokenBucket.capacity s < n)%Q ->
  ~ (RateLimiter.TokenBucket.refill_rate s == 0)%Q ->
  RateLimiter.TokenBucket.acquire_wait fuel late now [] n s = None.
Proof.
  generalize (@nil Q) as slept. revert now s.
  induction fuel as [|fuel IH]; intros now s slept Ht Hn Hr; [reflexivity|].
  simpl. rewrite acquire_short.
  - apply IH.
    + rewrite refill_capacity. apply refill_tokens_le_capacity. exact Ht.
    + rewrite refill_capacity. exact Hn.
    + rewrite refill_rate_refill. exact Hr.
  - apply Qle_bool_false.
    pose proof (refill_tokens_le_capacity now s Ht). lra.
  - destruct (Qeq_bool (RateLimiter.TokenBucket.refill_rate s) 0) eqn:E; [|reflexivity].
    apply Qeq_bool_iff in E. contradiction.
Qed.

(** Forty-one tokens from the bucket of capacity 40 that fills at 4 a
    second. *)
Lemma token_bucket_acquire_wait_over_capacity_never_returns_witness :
  RateLimiter.TokenBucket.acquire_wait 100 (fun _ => 0%Q) 0 [] 41
    (RateLimiter.TokenBucket.init 0 40 4 None) = None.
Proof.
  apply (token_bucket_acquire_wait_over_capacity_never_returns 100 (fun _ => 0%Q) 0 41
           (RateLimiter.TokenBucket.init 0 40 4 None)).
  - simpl. lra.
  - simpl. lra.
  - simpl. intros H. discriminate H.
Defined.

Section SlidingWindowTraceFacts.
Import RateLimiter RateLimiter.SlidingWindow.

Lemma popleft_while_length cutoff reqs :
    (List.length (popleft_while cutoff reqs) <= List.length reqs)%nat.
Proof.
    induction reqs as [|r rest IH]; simpl; [lia|].
    destruct (Qle_bool r cutoff); simpl; lia.
Qed.

  (** The two ways an [acquire] can go, on the timestamps kept. *)
Lemma acquire_cases now s :
    let kept := popleft_while (now - window_seconds s) (requests s) in
    ((max_requests s <= Z.of_nat (List.length kept))%Z /\
     fst (acquire now s) <> Granted /\
     snd (acquire now s) = mk (max_requests s) (window_seconds s) kept)
    \/
    ((Z.of_nat (List.length kept) < max_requests s)%Z /\
     acquire now s
     = (Granted, mk (max_requests s) (window_seconds s) (kept ++ [now]))).
Proof.
    cbv zeta. unfold acquire, _cleanup_old_requests. cbn [max_requests requests window_seconds].
    destruct (max_requests s <=? _)%Z eqn:E.
    - left. apply Z.leb_le in E. split; [exact E|].
      destruct (popleft_while _ _); split; try discriminate; reflexivity.
    - right. apply Z.leb_gt in E. split; [exact E|reflexivity].
Qed.

Lemma grants_Forall (P : Q -> Prop) (clock : list Q) :
    forall s, Forall P clock -> Forall P (grants clock s).
Proof.
    induction clock as [|now rest IH]; intros s H; [constructor|].
    inversion H; subst. cbn [grants].
    destruct (acquire now s) as [[] s']; try (apply IH; assumption).
    constructor; [assumption|apply IH; assumption].
Qed.

Lemma filter_none {A : Type} (f : A -> bool) (l : list A) :
    Forall (fun x => f x = false) l -> List.filter f l = [].
Proof.
    induction 1 as [|x l Hx _ IH]; simpl; [reflexivity|]. rewrite Hx. exact IH.
Qed.

  (** The timestamps kept and the grants still to come, seen through any
      window. *)
Lemma grants_window (t : Q) (clock : list Q) :
    forall s,
      StronglySorted Qle clock ->
      (Z.of_nat (List.length (requests s)) <= Z.max 0 (max_requests s))%Z ->
      (Z.of_nat (List.length (List.filter (in_window (window_seconds s) t)
                                (requests s ++ grants clock s)))
       <= Z.max 0 (max_requests s))%Z.
Proof.
    induction clock as [|now rest IH]; intros s Hsorted Hlen.
    - cbn [grants]. rewrite app_nil_r.
      pose proof (List.filter_length_le (in_window (window_seconds s) t) (requests s)).
      lia.
    - inversion Hsorted as [|? ? Hrest Hnow]; subst.
      destruct (Qlt_le_dec t now) as [Hearly|Hlate].
      + (* the window ends before this call: no grant to come lies in it *)
        rewrite List.filter_app, length_app.
        rewrite (filter_none _ (grants (now :: rest) s)).
        * pose proof (List.filter_length_le (in_window (window_seconds s) t)
                        (requests s)).
          simpl. lia.
        * apply grants_Forall. constructor.
          -- unfold in_window. apply andb_false_iff. right.
             apply Qle_bool_false. exact Hearly.
          -- eapply Forall_impl; [exact Hnow|]. intros g Hg. simpl in Hg.
             unfold in_window. apply andb_false_iff. right.
             apply Qle_bool_false. lra.
      + (* what this call evicts is out of the window *)
        destruct (popleft_while_split (now - window_seconds s) (requests s))
          as (evicted & Hsplit & Hold).
        pose proof (popleft_while_length (now - window_seconds s) (requests s)) as Hk.
        assert (Hev : List.filter (in_window (window_seconds s) t) evicted = []).
        { apply filter_none. eapply Forall_impl; [exact Hold|].
          intros e He. simpl in He. unfold in_window. apply andb_false_iff. left.
          apply Qlt_bool_false. lra. }
        cbn [grants].
        destruct (acquire_cases now s) as [(Hfull & Hout & Hst)|(Hroom & Hacq)].
        * destruct (acquire now s) as [o s']. cbn [fst snd] in Hout, Hst. subst s'.
          match goal with
          | |- context [grants rest ?s1] => specialize (IH s1 Hrest)
          end.
          cbn [requests max_requests window_seconds] in IH.
          specialize (IH ltac:(lia)).
          assert (Hgoal :
            (Z.of_nat (List.length (List.filter (in_window (window_seconds s) t)
               (requests s ++ grants rest
                  {| max_requests := max_requests s;
                     window_seconds := window_seconds s;
                     requests := popleft_while (now - window_seconds s) (requests s) |})))
             <= Z.max 0 (max_requests s))%Z).
          { rewrite Hsplit at 1. rewrite <- app_assoc, List.filter_app, Hev.
            exact IH. }
          destruct o; try contradiction; exact Hgoal.
        * rewrite Hacq.
          match goal with
          | |- context [grants rest ?s1] => specialize (IH s1 Hrest)
          end.
          cbn [requests max_requests window_seconds] in IH.
          rewrite length_app in IH. cbn [List.length] in IH.
          specialize (IH ltac:(lia)).
          rewrite Hsplit at 1. rewrite <- app_assoc, List.filter_app, Hev.
          rewrite <- app_assoc in IH. exact IH.
Qed.

End SlidingWindowTraceFacts.

(** X17.  The guarantee of the sliding window: over any series of
    [acquire] calls whose clock readings do not go back, made on a fresh
    limiter of at most [N] requests per [W] seconds, no window of [W] seconds
    (open at its start, closed at its end [t]) holds more than [N] granted
    calls. *)
Theorem sliding_window_never_exceeds_limit (N : Z) (W t : Q) (clock : list Q) :
  StronglySorted Qle clock ->
  (Z.of_nat (List.length
     (List.filter (RateLimiter.SlidingWindow.in_window W t)
        (RateLimiter.SlidingWindow.grants clock (RateLimiter.SlidingWindow.init N W))))
   <= Z.max 0 N)%Z.
Proof.
  intros Hsorted.
  apply (grants_window t clock (RateLimiter.SlidingWindow.init N W) Hsorted).
  simpl. lia.
Qed.

(** Two requests per ten seconds, calls at 0, 1, 2 and 11. *)
Lemma sliding_window_never_exceeds_limit_witness :
  (Z.of_nat (List.length
     (List.filter (RateLimiter.SlidingWindow.in_window 10 11)
        (RateLimiter.SlidingWindow.grants [0; 1; 2; 11]%Q
           (RateLimiter.SlidingWindow.init 2 10))))
   <= Z.max 0 2)%Z.
Proof.
  apply (sliding_window_never_exceeds_limit 2 10 11 [0; 1; 2; 11]%Q).
  repeat constructor; simpl; lra.
Defined.

(** X18.  [acquire_wait()] on a sliding window limiter of [N >= 1] requests
    that holds at most [N] timestamps, used by no other task meanwhile,
    returns after at most one sleep: none when fewer than [N] timestamps are
    kept at the first [acquire], and otherwise one of
    [oldest + W - now] seconds, which is positive and after which the oldest
    timestamp is evicted and the second [acquire] granted, however late the
    sleep ends.  The granted call's clock reading is the last timestamp
    recorded. *)
Theorem sliding_window_acquire_wait_one_sleep (fuel : nat) (late : nat -> Q)
    (now : Q) (s : RateLimiter.SlidingWindow.t) :
  (1 <= RateLimiter.SlidingWindow.max_requests s)%Z ->
  (Z.of_nat (List.length (RateLimiter.SlidingWindow.requests s))
   <= RateLimiter.SlidingWindow.max_requests s)%Z ->
  (forall k, (0 <= late k)%Q) ->
  let kept := RateLimiter.SlidingWindow.requests
                (RateLimiter.SlidingWindow._cleanup_old_requests now s) in
  exists w,
    RateLimiter.SlidingWindow.acquire_wait (S (S fuel)) late now [] s = Some w /\
    RateLimiter.ended w = RateLimiter.Granted /\
    RateLimiter.naps w =
      (if (RateLimiter.SlidingWindow.max_requests s <=? Z.of_nat (List.length kept))%Z
       then [(List.hd 0%Q kept + RateLimiter.SlidingWindow.window_seconds s - now)%Q]
       else []) /\
    Forall (fun d => (0 < d)%Q) (RateLimiter.naps w) /\
    List.last (RateLimiter.SlidingWindow.requests (RateLimiter.limiter w)) 0%Q
    = RateLimiter.ended_at w.
Proof.
  intros HN Hlen Hlate. cbv zeta.
  unfold RateLimiter.SlidingWindow._cleanup_old_requests.
  cbn [RateLimiter.SlidingWindow.requests].
  set (W := RateLimiter.SlidingWindow.window_seconds s).
  set (N := RateLimiter.SlidingWindow.max_requests s) in *.
  set (kept := RateLimiter.SlidingWindow.popleft_while (now - W)
                 (RateLimiter.SlidingWindow.requests s)).
  pose proof (popleft_while_length (now - W) (RateLimiter.SlidingWindow.requests s))
    as Hk. fold kept in Hk.
  cbn [RateLimiter.SlidingWindow.acquire_wait].
  destruct (acquire_cases now s) as [(Hfull & _ & _)|(Hroom & Hacq)].
  - (* full: rejected, one sleep, then granted *)
    fold W N in Hfull. fold kept in Hfull.
    destruct (N <=? Z.of_nat (List.length kept))%Z eqn:E;
      [|apply Z.leb_gt in E; lia].
    destruct kept as [|oldest others] eqn:Ek; [simpl in Hfull; lia|].
    assert (Hfirst : RateLimiter.SlidingWindow.acquire now s
                     = (RateLimiter.RateLimitExceeded (oldest + W - now)%Q,
                        RateLimiter.SlidingWindow.mk N W (oldest :: others))).
    { unfold RateLimiter.SlidingWindow.acquire,
        RateLimiter.SlidingWindow._cleanup_old_requests.
      cbn [RateLimiter.SlidingWindow.max_requests RateLimiter.SlidingWindow.requests
           RateLimiter.SlidingWindow.window_seconds].
      fold W N. unfold kept in Ek. rewrite Ek. rewrite E. reflexivity. }
    rewrite Hfirst.
    assert (Hra : (0 < oldest + W - now)%Q).
    { pose proof (popleft_while_head _ _ _ _ Ek). lra. }
    assert (Hnz : Qeq_bool (oldest + W - now) 0 = false).
    { destruct (Qeq_bool _ _) eqn:E0; [|reflexivity]. q_bool. lra. }
    assert (Hpos : Qlt_bool 0 (oldest + W - now) = true)
      by (apply Qlt_bool_iff; exact Hra).
    rewrite Hnz, Hpos. cbn [negb andb List.length].
    set (now' := (now + Qmax 0 (oldest + W - now) + late 0%nat)%Q).
    assert (Hnow' : (oldest + W <= now')%Q).
    { unfold now'. pose proof (Q.le_max_r 0 (oldest + W - now)).
      pose proof (Hlate 0%nat). lra. }
    destruct (acquire_cases now' (RateLimiter.SlidingWindow.mk N W (oldest :: others)))
      as [(Hfull' & _ & _)|(_ & Hacq')];
      cbn [RateLimiter.SlidingWindow.max_requests RateLimiter.SlidingWindow.requests
           RateLimiter.SlidingWindow.window_seconds
           RateLimiter.SlidingWindow.popleft_while] in *.
    + exfalso.
      assert (Hpop : Qle_bool oldest (now' - W) = true) by (apply Qle_bool_iff; lra).
      rewrite Hpop in Hfull'.
      pose proof (popleft_while_length (now' - W) others).
      simpl in Hk. lia.
    + rewrite Hacq'. eexists. split; [reflexivity|].
      cbn [RateLimiter.ended RateLimiter.naps RateLimiter.limiter RateLimiter.ended_at
           RateLimiter.SlidingWindow.requests List.hd].
      split; [reflexivity|]. split; [reflexivity|].
      split; [repeat constructor; exact Hra|]. apply last_last.
  - fold W N in Hroom, Hacq. fold kept in Hroom, Hacq. rewrite Hacq.
    destruct (N <=? Z.of_nat (List.length kept))%Z eqn:E;
      [apply Z.leb_le in E; lia|].
    eexists. split; [reflexivity|].
    cbn [RateLimiter.ended RateLimiter.naps RateLimiter.limiter RateLimiter.ended_at
         RateLimiter.SlidingWindow.requests].
    split; [reflexivity|]. split; [reflexivity|].
    split; [constructor|]. apply last_last.
Qed.

(** One request per ten seconds, the last one made at 3: a call at 5 sleeps
    8 seconds. *)
Lemma sliding_window_acquire_wait_one_sleep_witness :
  let s := RateLimiter.SlidingWindow.mk 1 10 [3%Q] in
  let kept := RateLimiter.SlidingWindow.requests
                (RateLimiter.SlidingWindow._cleanup_old_requests 5 s) in
  exists w,
    RateLimiter.SlidingWindow.acquire_wait 2 (fun _ => 0%Q) 5 [] s = Some w /\
    RateLimiter.ended w = RateLimiter.Granted /\
    RateLimiter.naps w =
      (if (1 <=? Z.of_nat (List.length kept))%Z
       then [(List.hd 0%Q kept + 10 - 5)%Q]
       else []) /\
    Forall (fun d => (0 < d)%Q) (RateLimiter.naps w) /\
    List.last (RateLimiter.SlidingWindow.requests (RateLimiter.limiter w)) 0%Q
    = RateLimiter.ended_at w.
Proof.
  cbv zeta.
  apply (sliding_window_acquire_wait_one_sleep 0 (fun _ => 0%Q) 5
           (RateLimiter.SlidingWindow.mk 1 10 [3%Q])).
  - simpl. lia.
  - simpl. lia.
  - intros k. lra.
Defined.

(** ** core/scanner.py: the other entry points *)

Section ScannerEntryFacts.
Import Py Scanner.


Lemma count_file_inv fs st p : stats_inv st -> stats_inv (count_file fs st p).
Proof.
    unfold stats_inv, count_file. intros (H & Hv & Hs & Hi & Ho).
    destruct (get_file_info fs p); [|auto].
    destruct (is_video_file p); [|destruct (is_subtitle_file p);
                                   [|destruct (is_image_file p)]];
      cbn [total_files video_files subtitle_files image_files other_files];
      repeat split; lia.
Qed.

Lemma fold_count_inv fs (l : list Path) :
    forall st, stats_inv st -> stats_inv (fold_left (count_file fs) l st).
Proof.
    induction l as [|p l IH]; intros st H; simpl; [exact H|].
    apply IH, count_file_inv, H.
Qed.

Lemma count_file_comm fs st p q :
    count_file fs (count_file fs st p) q = count_file fs (count_file fs st q) p.
Proof.
    unfold count_file.
    destruct (get_file_info fs p), (get_file_info fs q); try reflexivity.
    destruct (is_video_file p), (is_subtitle_file p), (is_image_file p),
             (is_video_file q), (is_subtitle_file q), (is_image_file q);
      cbn [total_files video_files subtitle_files image_files other_files total_size];
      f_equal; lia.
Qed.

Lemma fold_count_perm fs (l1 l2 : list Path) :
    l1 ≡ₚ l2 ->
    forall st, fold_left (count_file fs) l1 st = fold_left (count_file fs) l2 st.
Proof.
    induction 1 as [|x l l' _ IH|x y l|l l' l'' _ IH1 _ IH2]; intros st; simpl.
    - reflexivity.
    - apply IH.
    - rewrite count_file_comm. reflexivity.
    - rewrite IH1. apply IH2.
Qed.

Lemma fold_count_total fs (l : list Path) :
    forall st,
      total_files (fold_left (count_file fs) l st)
      = (total_files st
         + Z.of_nat (List.length (List.filter (answers_stat fs) l)))%Z.
Proof.
    induction l as [|p l IH]; intros st; simpl; [lia|].
    rewrite IH. unfold count_file, answers_stat.
    destruct (get_file_info fs p); [|lia].
    destruct (is_video_file p); [|destruct (is_subtitle_file p);
                                   [|destruct (is_image_file p)]];
      cbn [total_files List.length]; lia.
Qed.

End ScannerEntryFacts.

(** X19.  A scan without [max_concurrent], or with [max_concurrent=0],
    never yields anything: on an existing directory it raises
    [AttributeError], the settings having no [max_concurrent_api_calls], before
    any file is looked at, and otherwise [InvalidDirectoryError]; so the
    module's [scan_for_media] and [get_media_file_count], which call it this
    way, return no list and no count, whatever the settings, the file system
    and the directory.  A negative [max_concurrent] raises [ValueError]. *)
Theorem scan_directory_without_limit_fails
    (magic : list Byte.byte -> option string) (sch : Scanner.Schedule)
    (fs : gmap (list string) Scanner.entry) (directory : Py.Path)
    (s : Scanner.Settings) (recursive : bool) :
  let self := {| Scanner.settings := s; Scanner.magic_mime := magic |} in
  let e := if Scanner.isdir fs directory
           then Scanner.AttributeError "max_concurrent_api_calls"
           else if Scanner.exists_ fs directory
                then Scanner.InvalidDirectoryError "Path is not a directory"
                else Scanner.InvalidDirectoryError "Directory not found" in
  Scanner.scan_directory self sch fs directory recursive None = inl e /\
  Scanner.scan_directory self sch fs directory recursive (Some 0%Z) = inl e /\
  Scanner.scan_for_media magic sch fs directory s recursive = inl e /\
  Scanner.get_media_file_count magic sch fs directory s = inl e /\
  (forall n, (n < 0)%Z -> Scanner.isdir fs directory = true ->
     Scanner.scan_directory self sch fs directory recursive (Some n)
     = inl (Scanner.ValueError "Semaphore initial value must be >= 0")).
Proof.
  cbv zeta.
  unfold Scanner.scan_for_media, Scanner.get_media_file_count, Scanner.scan_directory,
    Scanner.isdir, Scanner.exists_, Scanner.max_concurrent_api_calls.
  destruct (fs !! directory) as [[f|]|]; cbn; repeat split; try reflexivity.
  - intros n _ H. discriminate H.
  - intros n Hn _. destruct (n =? 0)%Z eqn:E0; [apply Z.eqb_eq in E0; lia|].
    destruct (n <? 0)%Z eqn:E1; [reflexivity|apply Z.ltb_ge in E1; lia].
  - intros n _ H. discriminate H.
Qed.



(** X21.  [get_directory_stats] on an existing path returns counts that
    add up: [total_files] is the sum of the four kinds, each of which is
    counted at most once per file and none is negative; it counts the regular
    files below the directory that answer [stat], those that do not being left
    out without an error; and the result does not depend on the order in which
    the directory is enumerated. *)
Theorem get_directory_stats_adds_up (listing : list Py.Path -> list Py.Path)
    (fs : gmap (list string) Scanner.entry) (directory : Py.Path) :
  (forall l, Permutation (listing l) l) ->
  Scanner.exists_ fs directory = true ->
  exists st,
    Scanner.get_directory_stats listing fs directory = inr st /\
    (Scanner.total_files st
     = Scanner.video_files st + Scanner.subtitle_files st
       + Scanner.image_files st + Scanner.other_files st)%Z /\
    (0 <= Scanner.video_files st)%Z /\ (0 <= Scanner.subtitle_files st)%Z /\
    (0 <= Scanner.image_files st)%Z /\ (0 <= Scanner.other_files st)%Z /\
    Scanner.total_files st
    = Z.of_nat (List.length
        (List.filter (Scanner.answers_stat fs)
           (Scanner._discover_files (fun l => l) fs directory true))) /\
    Scanner.get_directory_stats (fun l => l) fs directory = inr st.
Proof.
  intros Hl He. unfold Scanner.get_directory_stats. rewrite He. cbn [negb].
  eexists. split; [reflexivity|].
  assert (Hperm : Scanner._discover_files listing fs directory true
                  ≡ₚ Scanner._discover_files (fun l => l) fs directory true)
    by (apply discover_files_perm; [exact Hl|reflexivity]).
  rewrite (fold_count_perm fs _ _ Hperm).
  destruct (fold_count_inv fs (Scanner._discover_files (fun l => l) fs directory true)
              (Scanner.mk_stats 0 0 0 0 0 0))
    as (H & Hv & Hs & Hi & Ho).
  { unfold Scanner.stats_inv. cbn. repeat split; lia. }
  repeat split; try assumption.
  rewrite fold_count_total. cbn [Scanner.total_files]. lia.
Qed.

(** The scenario directory, enumerated in reverse. *)
Lemma get_directory_stats_adds_up_witness :
  let movie := {| Scanner.st_size := Some Scanner.twenty_mib;
                  Scanner.header := Some Scanner.mkv_header |} in
  let readme := {| Scanner.st_size := None;
                   Scanner.header := Some Scanner.text_header |} in
  let fs := Scanner.scenario_fs movie movie readme in
  exists st,
    Scanner.get_directory_stats (@rev Py.Path) fs ["library"%string] = inr st /\
    (Scanner.total_files st
     = Scanner.video_files st + Scanner.subtitle_files st
       + Scanner.image_files st + Scanner.other_files st)%Z /\
    (0 <= Scanner.video_files st)%Z /\ (0 <= Scanner.subtitle_files st)%Z /\
    (0 <= Scanner.image_files st)%Z /\ (0 <= Scanner.other_files st)%Z /\
    Scanner.total_files st
    = Z.of_nat (List.length
        (List.filter (Scanner.answers_stat fs)
           (Scanner._discover_files (fun l => l) fs ["library"%string] true))) /\
    Scanner.get_directory_stats (fun l => l) fs ["library"%string] = inr st.
Proof.
  cbv zeta.
  apply (get_directory_stats_adds_up (@rev Py.Path)).
  - intros l. symmetry. apply Permutation_rev.
  - vm_compute. reflexivity.
Defined.

(** ** utils/file_ops.py: [safe_filename] *)

Section SafeFilenameFacts.
Import Py.
Local Open Scope string_scope.

Lemma char_in_append c a b : char_in c (a ++ b) = char_in c a || char_in c b.
Proof.
    induction a as [|d a IH]; [reflexivity|].
    rewrite append_cons. simpl. rewrite IH. apply orb_assoc.
Qed.

  (** Replacing [old] removes it, unless the replacement brings it back. *)
Lemma replace_removes old new s :
    char_in old new = false -> char_in old (replace old new s) = false.
Proof.
    intros Hnew. induction s as [|c s IH]; [reflexivity|]. simpl.
    destruct (Ascii.eqb c old) eqn:E.
    - rewrite char_in_append, Hnew, IH. reflexivity.
    - simpl. rewrite IH, Ascii.eqb_sym, E. reflexivity.
Qed.

Lemma replace_keeps_out c old new s :
    char_in c new = false -> char_in c s = false ->
    char_in c (replace old new s) = false.
Proof.
    intros Hnew. induction s as [|d s IH]; [reflexivity|]. simpl.
    intros H. apply orb_false_iff in H as [Hd Hs].
    destruct (Ascii.eqb d old).
    - rewrite char_in_append, Hnew, IH by exact Hs. reflexivity.
    - simpl. rewrite Hd, IH by exact Hs. reflexivity.
Qed.

Lemma replace_all_removes new (todo : list ascii) :
    forall (done : list ascii) (s : string),
      (forall c, In c (done ++ todo) -> char_in c new = false) ->
      (forall c, In c done -> char_in c s = false) ->
      forall c, In c (done ++ todo) ->
        char_in c (fold_left (fun n ch => replace ch new n) todo s) = false.
Proof.
    induction todo as [|d todo IH]; intros done s Hnew Hdone c Hc.
    - rewrite app_nil_r in Hc. simpl. apply Hdone, Hc.
    - simpl.
      apply (IH (done ++ [d])%list).
      + intros c' Hc'. apply Hnew. rewrite <- app_assoc in Hc'. exact Hc'.
      + intros c' Hc'. apply in_app_or in Hc' as [Hc'|[<-|[]]].
        * apply replace_keeps_out; [|apply Hdone, Hc'].
          apply Hnew. apply in_or_app. left. exact Hc'.
        * apply replace_removes. apply Hnew. apply in_or_app. right. left. reflexivity.
      + rewrite <- app_assoc. exact Hc.
Qed.

Lemma lstrip_sub chars c s : char_in c (lstrip chars s) = true -> char_in c s = true.
Proof.
    induction s as [|d s IH]; simpl; [discriminate|].
    destruct (char_in d chars); [|auto].
    intros H. rewrite (IH H). apply orb_true_r.
Qed.

Lemma rstrip_sub chars c s : char_in c (rstrip chars s) = true -> char_in c s = true.
Proof.
    induction s as [|d s IH]; simpl; [discriminate|].
    destruct (rstrip chars s) as [|e r].
    - destruct (char_in d chars); simpl; [discriminate|].
      rewrite orb_false_r. intros ->. reflexivity.
    - simpl. intros H. apply orb_true_iff in H as [H|H].
      + rewrite H. reflexivity.
      + rewrite IH by exact H. apply orb_true_r.
Qed.

Lemma slice_to_sub n c s : char_in c (slice_to n s) = true -> char_in c s = true.
Proof.
    revert s. induction n as [|n IH]; intros [|d s]; simpl; try discriminate.
    intros H. apply orb_true_iff in H as [H|H].
    - rewrite H. reflexivity.
    - rewrite (IH _ H). apply orb_true_r.
Qed.

Lemma lstrip_head chars s c r :
    lstrip chars s = String c r -> char_in c chars = false.
Proof.
    induction s as [|d s IH]; simpl; [discriminate|].
    destruct (char_in d chars) eqn:E; [exact IH|].
    intros [= <- <-]. exact E.
Qed.

Lemma rstrip_head chars c s d r :
    rstrip chars (String c s) = String d r -> d = c.
Proof.
    simpl. destruct (rstrip chars s).
    - destruct (char_in c chars); [discriminate|]. intros [= <- <-]. reflexivity.
    - intros [= <- <-]. reflexivity.
Qed.

Lemma strip_head chars s c r :
    strip chars s = String c r -> char_in c chars = false.
Proof.
    unfold strip. destruct (lstrip chars s) as [|d t] eqn:E; [discriminate|].
    intros H. apply rstrip_head in H. subst c.
    eapply lstrip_head. exact E.
Qed.

Lemma lstrip_clean chars s :
    (forall c r, s = String c r -> char_in c chars = false) -> lstrip chars s = s.
Proof.
    destruct s as [|c r]; [reflexivity|]. intros H. simpl.
    rewrite (H c r eq_refl). reflexivity.
Qed.

Lemma rstrip_idem chars s : rstrip chars (rstrip chars s) = rstrip chars s.
Proof.
    induction s as [|c s IH]; [reflexivity|]. simpl.
    destruct (rstrip chars s) as [|e r] eqn:E.
    - destruct (char_in c chars) eqn:Ec; [reflexivity|]. simpl. rewrite Ec. reflexivity.
    - change (rstrip chars (String c (String e r)))
        with (match rstrip chars (String e r) with
              | EmptyString => if char_in c chars then EmptyString else String c EmptyString
              | rest => String c rest
              end).
      rewrite IH. reflexivity.
Qed.

Lemma char_in_In c s : char_in c s = true <-> In c (list_ascii_of_string s).
Proof.
    induction s as [|d s IH]; simpl; [split; [discriminate|contradiction]|].
    rewrite orb_true_iff, IH, Ascii.eqb_eq. split; intros [H|H]; auto.
Qed.

Lemma slice_to_length_eq n s :
    (n <= String.length s)%nat -> String.length (slice_to n s) = n.
Proof.
    revert s. induction n as [|n IH]; intros [|c s]; simpl; try lia.
    intros H. rewrite IH by lia. reflexivity.
Qed.

Lemma slice_to_length n s : (String.length (slice_to n s) <= n)%nat.
Proof.
    revert s. induction n as [|n IH]; intros [|c s]; simpl; try lia.
    specialize (IH s). lia.
Qed.

End SafeFilenameFacts.

(** X22.  With a replacement that holds none of the nine unsafe characters
    (the default ["_"] is one), [safe_filename] returns a name that is not
    empty, is at most 255 characters long, holds no unsafe character, and does
    not start with a dot or a space; it does not end with one either, unless
    it was cut to 255 characters, the cut being made after the stripping. *)
Theorem safe_filename_is_safe (filename replacement : string) :
  (forall c, Py.char_in c FileOps.unsafe_chars = true ->
             Py.char_in c replacement = false) ->
  let r := FileOps.safe_filename filename replacement in
  r <> ""%string /\
  (String.length r <= 255)%nat /\
  (forall c, Py.char_in c FileOps.unsafe_chars = true -> Py.char_in c r = false) /\
  Py.lstrip ". " r = r /\
  ((String.length r < 255)%nat -> Py.rstrip ". " r = r).
Proof.
  intros Hrep. cbv zeta. unfold FileOps.safe_filename.
  set (folded := fold_left _ _ filename).
  assert (Hfolded : forall c, Py.char_in c FileOps.unsafe_chars = true ->
                              Py.char_in c folded = false).
  { intros c Hc. unfold folded.
    apply (replace_all_removes replacement
             (list_ascii_of_string FileOps.unsafe_chars) [] filename).
    - intros c' Hc'. apply Hrep, char_in_In. exact Hc'.
    - intros c' [].
    - apply char_in_In. exact Hc. }
  set (stripped := Py.strip ". " folded).
  assert (Hstripped : forall c, Py.char_in c FileOps.unsafe_chars = true ->
                                Py.char_in c stripped = false).
  { intros c Hc. destruct (Py.char_in c stripped) eqn:E; [|reflexivity].
    unfold stripped, Py.strip in E.
    apply rstrip_sub, lstrip_sub in E. rewrite (Hfolded c Hc) in E. discriminate. }
  set (named := if String.eqb stripped "" then "unnamed"%string else stripped).
  assert (Hnamed : named <> ""%string /\
                   (forall c, Py.char_in c FileOps.unsafe_chars = true ->
                              Py.char_in c named = false) /\
                   (forall c r, named = String c r -> Py.char_in c ". " = false) /\
                   Py.rstrip ". " named = named).
  { unfold named. destruct (String.eqb stripped "") eqn:E.
    - split; [discriminate|]. split; [|split; [|reflexivity]].
      + intros c Hc. apply char_in_In in Hc. unfold FileOps.unsafe_chars in Hc.
        simpl in Hc.
        repeat (destruct Hc as [<-|Hc]; [reflexivity|]). contradiction.
      + intros c r [= <- <-]. reflexivity.
    - apply String.eqb_neq in E. split; [exact E|]. split; [exact Hstripped|].
      split.
      + intros c r H. eapply strip_head. exact H.
      + unfold stripped, Py.strip. apply rstrip_idem. }
  destruct Hnamed as (Hne & Hsafe & Hhead & Htail).
  destruct (255 <? String.length named)%nat eqn:El.
  - apply Nat.ltb_lt in El.
    destruct named as [|c rest] eqn:En; [congruence|].
    split; [discriminate|]. split; [apply slice_to_length|]. split; [|split].
    + intros d Hd. destruct (Py.char_in d (Py.slice_to 255 (String c rest))) eqn:E;
        [|reflexivity].
      apply slice_to_sub in E. rewrite (Hsafe d Hd) in E. discriminate.
    + apply lstrip_clean. intros d r. simpl. intros [= <- _]. eapply Hhead. reflexivity.
    + rewrite slice_to_length_eq by lia. lia.
  - apply Nat.ltb_ge in El.
    split; [exact Hne|]. split; [exact El|]. split; [exact Hsafe|].
    split; [apply lstrip_clean; exact Hhead|]. intros _. exact Htail.
Qed.

(** [" a<b>.mkv. "] with the default replacement. *)
Lemma safe_filename_is_safe_witness :
  let r := FileOps.safe_filename " a<b>.mkv. " "_" in
  r <> ""%string /\
  (String.length r <= 255)%nat /\
  (forall c, Py.char_in c FileOps.unsafe_chars = true -> Py.char_in c r = false) /\
  Py.lstrip ". " r = r /\
  ((String.length r < 255)%nat -> Py.rstrip ". " r = r).
Proof.
  cbv zeta.
  apply (safe_filename_is_safe " a<b>.mkv. " "_").
  intros c Hc. simpl. rewrite orb_false_r.
  destruct (Ascii.eqb c "_") eqn:E; [|reflexivity].
  apply Ascii.eqb_eq in E. subst c. vm_compute in Hc. discriminate Hc.
Defined.

(** X23.  The adaptive limiter paces without ever refusing: with a
    positive minimum rate and the rate within its bounds, [acquire] raises
    nothing, sleeps no negative time, leaves the rate as it is, and, the sleep
    lasting at least as long as asked, stamps the request at least
    [1 / current_rate] seconds after the one before, hence at least
    [1 / max_rate] seconds after it. *)
Theorem adaptive_acquire_spacing (now after : Q) (s : RateLimiter.Adaptive.t) :
  (0 < RateLimiter.Adaptive.min_rate s)%Q ->
  RateLimiter.Adaptive.rate_inv s ->
  let r := RateLimiter.Adaptive.acquire now after s in
  let slept := snd (fst r) in
  (now + slept <= after)%Q ->
  fst (fst r) = RateLimiter.Granted /\
  (0 <= slept)%Q /\
  RateLimiter.Adaptive.current_rate (snd r) = RateLimiter.Adaptive.current_rate s /\
  RateLimiter.Adaptive.last_request (snd r) = after /\
  (1 / RateLimiter.Adaptive.current_rate s
   <= after - RateLimiter.Adaptive.last_request s)%Q /\
  (1 / RateLimiter.Adaptive.max_rate s <= 1 / RateLimiter.Adaptive.current_rate s)%Q.
Proof.
  intros Hmin [Hlo Hhi]. cbv zeta. unfold RateLimiter.Adaptive.acquire.
  assert (Hrate : (0 < RateLimiter.Adaptive.current_rate s)%Q) by lra.
  destruct (Qeq_bool (RateLimiter.Adaptive.current_rate s) 0) eqn:E0;
    [q_bool; lra|].
  cbn [fst snd RateLimiter.Adaptive.current_rate RateLimiter.Adaptive.last_request].
  intros Hafter.
  split; [reflexivity|].
  assert (Hinv : (1 / RateLimiter.Adaptive.max_rate s
                  <= 1 / RateLimiter.Adaptive.current_rate s)%Q).
  { unfold Qdiv. rewrite !Qmult_1_l.
    apply Qle_shift_inv_l; [exact Hrate|].
    assert (Hm : (0 < RateLimiter.Adaptive.max_rate s)%Q) by lra.
    assert (H1 : (/ RateLimiter.Adaptive.max_rate s * RateLimiter.Adaptive.max_rate s
                  == 1)%Q) by (field; lra).
    assert (H2 : (0 <= / RateLimiter.Adaptive.max_rate s)%Q)
      by (apply Qlt_le_weak, Qinv_lt_0_compat; exact Hm).
    assert (H3 : (/ RateLimiter.Adaptive.max_rate s * RateLimiter.Adaptive.current_rate s
                  <= / RateLimiter.Adaptive.max_rate s * RateLimiter.Adaptive.max_rate s)%Q).
    { rewrite !(Qmult_comm (/ RateLimiter.Adaptive.max_rate s)).
      apply Qmult_le_compat_r; assumption. }
    lra. }
  destruct (Qlt_bool 0 _) eqn:E; q_bool; repeat split; try reflexivity; try lra.
Qed.

(** Two requests a second, the last one a tenth of a second ago. *)
Lemma adaptive_acquire_spacing_witness :
  let s := RateLimiter.Adaptive.mk 2 (1 # 10) 100 (11 # 10) (1 # 2) 10 0 in
  let r := RateLimiter.Adaptive.acquire (101 # 10) (21 # 2) s in
  let slept := snd (fst r) in
  fst (fst r) = RateLimiter.Granted /\
  (0 <= slept)%Q /\
  RateLimiter.Adaptive.current_rate (snd r) = RateLimiter.Adaptive.current_rate s /\
  RateLimiter.Adaptive.last_request (snd r) = (21 # 2)%Q /\
  (1 / RateLimiter.Adaptive.current_rate s
   <= (21 # 2) - RateLimiter.Adaptive.last_request s)%Q /\
  (1 / RateLimiter.Adaptive.max_rate s <= 1 / RateLimiter.Adaptive.current_rate s)%Q.
Proof.
  cbv zeta.
  apply (adaptive_acquire_spacing (101 # 10) (21 # 2)
           (RateLimiter.Adaptive.mk 2 (1 # 10) 100 (11 # 10) (1 # 2) 10 0)).
  - simpl. lra.
  - split; simpl; lra.
  - vm_compute. discriminate.
Defined.

Lemma take_in_with_ancestors (path : Py.Path) (j : nat) :
  (j <= List.length path)%nat -> take j path ∈ FileOps.with_ancestors path.
Proof.
  intros Hj. unfold FileOps.with_ancestors. apply list_elem_of_In.
  apply (in_map (fun k => take k path)). apply in_seq. lia.
Qed.

(** X24.  [ensure_directory] never touches a file and removes no
    directory, and the directories it makes are the path or ancestors of it.
    When the path exists already, be it as a regular file, it returns the path
    and does nothing; otherwise, when it returns, the path is a directory; and
    the only error it raises is [FilePermissionError], wrapping the [OSError]
    of [makedirs], in which case the path did not exist and is no directory
    afterwards either, while ancestors made before the failure stay. *)
Theorem ensure_directory_outcomes (path : Py.Path) (w w' : FileOps.world)
    (r : FileOps.res Py.Path) :
  FileOps.ensure_directory path w = (r, w') ->
  FileOps.files w' = FileOps.files w /\
  FileOps.dirs w ⊆ FileOps.dirs w' /\
  (forall q, q ∈ FileOps.dirs w' ->
     q ∈ FileOps.dirs w \/ q ∈ FileOps.with_ancestors path) /\
  match r with
  | FileOps.Ok p =>
      p = path /\
      if FileOps.is_file w path || FileOps.is_dir w path
      then w' = w
      else FileOps.is_dir w' path = true
  | FileOps.Exc e =>
      e = FileOps.FilePermissionError FileOps.OSError /\
      FileOps.is_file w path || FileOps.is_dir w path = false /\
      FileOps.is_dir w' path = false
  end.
Proof.
  unfold FileOps.ensure_directory, FileOps.try_except, FileOps.bind,
    FileOps.path_exists.
  destruct (FileOps.is_file w path || FileOps.is_dir w path) eqn:Ex; cbn [negb].
  - unfold FileOps.ret. intros [= <- <-].
    split; [reflexivity|]. split; [reflexivity|]. split; [|auto].
    intros q Hq. left. exact Hq.
  - unfold FileOps.makedirs.
    destruct (makedirs_prefix_spec (List.length path) path w)
      as (r1 & w1 & E & Hf & _ & Hd & Hres).
    rewrite E. destruct r1 as [[]|e].
    + unfold FileOps.ret. intros [= <- <-]. destruct Hres as (Hin & Hq).
      split; [exact Hf|]. split; [exact Hd|]. split.
      * intros q Hq'. destruct (Hq q Hq') as [H|(j & Hj & ->)]; [left; exact H|].
        right. apply take_in_with_ancestors. exact Hj.
      * split; [reflexivity|]. unfold FileOps.is_dir. apply bool_decide_eq_true_2.
        rewrite firstn_all in Hin. exact Hin.
    + destruct Hres as (-> & Hq). cbn [FileOps.is_OSError]. unfold FileOps.raise.
      intros [= <- <-].
      split; [exact Hf|]. split; [exact Hd|]. split.
      * intros q Hq'. destruct (Hq q Hq') as [H|(j & Hj & ->)]; [left; exact H|].
        right. apply take_in_with_ancestors. lia.
      * split; [reflexivity|]. split; [reflexivity|].
        unfold FileOps.is_dir. apply bool_decide_eq_false_2. intros Hin.
        destruct (Hq path Hin) as [H|(j & Hj & Hp)].
        -- apply orb_false_iff in Ex as [_ Ex]. unfold FileOps.is_dir in Ex.
           apply bool_decide_eq_false in Ex. exact (Ex H).
        -- apply (f_equal (@List.length string)) in Hp.
           rewrite length_take in Hp. lia.
Qed.

(** [data/in/sub] asked for where only [data] exists, the second [mkdir]
    failing: [data/in] is made and stays. *)
Lemma ensure_directory_outcomes_witness :
  let path := ["data"; "in"; "sub"]%string in
  let w := FileOps.second_call_fails_world in
  let r := FileOps.ensure_directory path w in
  (fst r = FileOps.Exc (FileOps.FilePermissionError FileOps.OSError) /\
   FileOps.is_dir w ["data"; "in"]%string = false /\
   FileOps.is_dir (snd r) ["data"; "in"]%string = true) /\
  FileOps.files (snd r) = FileOps.files w /\
  FileOps.dirs w ⊆ FileOps.dirs (snd r) /\
  (forall q, q ∈ FileOps.dirs (snd r) ->
     q ∈ FileOps.dirs w \/ q ∈ FileOps.with_ancestors path) /\
  match fst r with
  | FileOps.Ok p =>
      p = path /\
      if FileOps.is_file w path || FileOps.is_dir w path
      then snd r = w
      else FileOps.is_dir (snd r) path = true
  | FileOps.Exc e =>
      e = FileOps.FilePermissionError FileOps.OSError /\
      FileOps.is_file w path || FileOps.is_dir w path = false /\
      FileOps.is_dir (snd r) path = false
  end.
Proof.
  cbv zeta. split.
  - repeat split; vm_compute; reflexivity.
  - apply (ensure_directory_outcomes ["data"; "in"; "sub"]%string
             FileOps.second_call_fails_world).
    destruct (FileOps.ensure_directory _ _). reflexivity.
Defined.

(** ** utils/rate_limiter.py: [RateLimitedClient.call] *)

Section ClientFacts.
Import RateLimiter RateLimiter.Client.
Context {A : Type}.
Variable env : Env.
Variable func : nat -> response A.
Variable ar : bool.
Variable mr : Z.

Lemma powers_shift (retries k : nat) :
    ((2 ^ Z.of_nat (S retries))%Z
     :: map (fun i => (2 ^ Z.of_nat (S (S retries + i)))%Z) (seq 0 k))
    = map (fun i => (2 ^ Z.of_nat (S (retries + i)))%Z) (seq 0 (S k)).
Proof.
    cbn [seq map]. rewrite Nat.add_0_r. f_equal.
    rewrite <- seq_shift, map_map. apply map_ext. intros i.
    replace (retries + S i)%nat with (S retries + i)%nat by lia. reflexivity.
Qed.

Lemma account_now (retries made made' : nat) (slept : list Z) (l : any_limiter)
      (out : A + call_error) :
    (made <= made' <= S made)%nat ->
    out <> inr MaxRetriesExceeded ->
    (forall a, out = inl a -> exists j, func j = Answer a /\ made' = S j) ->
    (forall ra, out = inr (Limited ra) -> ar = true -> Z.of_nat retries = mr) ->
    loop_account func ar mr retries made slept (mk_called out made' slept l).
Proof.
    intros Hm Hne Ha Hl. exists 0%nat. cbn [backoff calls answer seq map].
    rewrite app_nil_r, Nat.add_0_r.
    split; [reflexivity|]. split; [left; reflexivity|]. split; [lia|].
    split; [intros H; contradiction|]. split; [exact Ha|exact Hl].
Qed.

Lemma account_later (retries made made' : nat) (slept : list Z) (r : called A) :
    (made <= made' <= S made)%nat ->
    ar = true -> (Z.of_nat (S retries) <= mr)%Z ->
    loop_account func ar mr (S retries) made' (slept ++ [(2 ^ Z.of_nat (S retries))%Z]) r ->
    loop_account func ar mr retries made slept r.
Proof.
    intros Hm Har Hle (k & Hb & Hk & Hc & Hmax & Ha & Hl).
    exists (S k). rewrite Hb, <- app_assoc. cbn [app].
    rewrite powers_shift.
    replace (retries + S k)%nat with (S retries + k)%nat by lia.
    split; [reflexivity|]. split.
    { right. split; [exact Har|]. destruct Hk as [->|[_ Hk]]; [|exact Hk].
      rewrite Nat.add_0_r. exact Hle. }
    split; [lia|]. split.
    { intros H. destruct (Hmax H) as (Hlt & _ & _). lia. }
    split; [exact Ha|exact Hl].
Qed.

Lemma call_loop_account (fuel : nat) :
    forall (retries : nat) (l : any_limiter) (made : nat) (slept : list Z)
           (r : called A),
      call_loop fuel env func ar mr retries l made slept = Some r ->
      loop_account func ar mr retries made slept r.
Proof.
    induction fuel as [|fuel IH]; intros retries l made slept r; [discriminate|].
    cbn [call_loop].
    destruct (Z.of_nat retries <=? mr)%Z eqn:Eloop.
    2:{ apply Z.leb_gt in Eloop. intros [= <-]. exists 0%nat.
        cbn [backoff calls answer seq map]. rewrite app_nil_r.
        split; [reflexivity|]. split; [left; reflexivity|]. split; [lia|].
        split; [intros _; repeat split; lia|].
        split; intros; discriminate. }
    apply Z.leb_le in Eloop.
    assert (Hlimit : forall (ra : option Q) (l1 : any_limiter) (made' : nat),
               (made <= made' <= S made)%nat ->
               (if negb ar || (mr <=? Z.of_nat retries)%Z
                then Some (mk_called (inr (Limited ra)) made' slept l1)
                else call_loop fuel env func ar mr (S retries)
                       (report_rate_limited l1) made'
                       (slept ++ [(2 ^ Z.of_nat (S retries))%Z])) = Some r ->
               loop_account func ar mr retries made slept r).
    { intros ra l1 made' Hm.
      destruct (negb ar || (mr <=? Z.of_nat retries)%Z) eqn:E.
      - intros [= <-].
        apply account_now; try assumption; try discriminate.
        intros ra' _ Har. rewrite Har in E. cbn [negb orb] in E.
        apply Z.leb_le in E. lia.
      - apply orb_false_iff in E as [Har Elast].
        apply negb_false_iff in Har. apply Z.leb_gt in Elast.
        intros H. apply IH in H.
        eapply account_later; [exact Hm|exact Har|lia|exact H]. }
    destruct (permission env retries ar l) as [[o l1]|]; [|discriminate].
    destruct o as [|ra| |].
    - destruct (func made) as [a|ra|msg] eqn:Ef.
      + intros [= <-]. apply account_now; try lia; try discriminate.
        intros a' [= <-]. exists made. auto.
      + apply Hlimit. lia.
      + intros [= <-]. apply account_now; try lia; try discriminate.
    - apply Hlimit. lia.
    - intros [= <-]. apply account_now; try lia; try discriminate.
    - intros [= <-]. apply account_now; try lia; try discriminate.
Qed.

End ClientFacts.

(** X25.  Whenever [RateLimitedClient.call] ends: it has slept the
    back-off times 2, 4, ..., [2 ** k] in this order for some [k] of at most
    [max_retries] retries, none without [auto_retry]; it has called the
    function at most [k + 1] times; a value returned is one the function
    returned on its last call; a [RateLimitExceeded] re-raised with
    [auto_retry] on means that all [max_retries] retries were used; and the
    [RateLimitExceeded("Max retries exceeded")] of its last line is raised
    only for a negative [max_retries], the function not having been called at
    all. *)
Theorem client_call_accounting {A : Type} (fuel : nat) (env : RateLimiter.Client.Env)
    (func : nat -> RateLimiter.Client.response A) (self : RateLimiter.Client.t)
    (r : RateLimiter.Client.called A) :
  RateLimiter.Client.call fuel env func self = Some r ->
  let k := List.length (RateLimiter.Client.backoff r) in
  RateLimiter.Client.backoff r = RateLimiter.Client.powers_of_two k /\
  (Z.of_nat k <= Z.max 0 (RateLimiter.Client.max_retries self))%Z /\
  (RateLimiter.Client.auto_retry self = false -> k = 0%nat) /\
  (RateLimiter.Client.calls r <= S k)%nat /\
  (forall a, RateLimiter.Client.answer r = inl a ->
     exists j, func j = RateLimiter.Client.Answer a /\
               RateLimiter.Client.calls r = S j) /\
  (forall ra, RateLimiter.Client.answer r = inr (RateLimiter.Client.Limited ra) ->
     RateLimiter.Client.auto_retry self = true ->
     Z.of_nat k = RateLimiter.Client.max_retries self) /\
  (RateLimiter.Client.answer r = inr RateLimiter.Client.MaxRetriesExceeded ->
   (RateLimiter.Client.max_retries self < 0)%Z /\
   RateLimiter.Client.calls r = 0%nat /\ k = 0%nat).
Proof.
  unfold RateLimiter.Client.call. intros H.
  apply call_loop_account in H. destruct H as (k & Hb & Hk & Hc & Hmax & Ha & Hl).
  cbn [app] in Hb. cbn [Nat.add] in *.
  assert (Hlen : List.length (RateLimiter.Client.backoff r) = k)
    by (rewrite Hb, length_map, length_seq; reflexivity).
  cbv zeta. rewrite Hlen.
  split; [exact Hb|]. split; [destruct Hk as [->|[_ Hk]]; lia|].
  split.
  { intros Hoff. destruct Hk as [Hk|[Hon _]]; [exact Hk|congruence]. }
  split; [lia|]. split; [exact Ha|]. split; [exact Hl|].
  intros H. destruct (Hmax H) as (H1 & H2 & H3). cbn in H1. auto.
Qed.

(** A function that is rate limited twice and then answers, behind the
    adaptive limiter. *)
Lemma client_call_accounting_witness :
  exists r,
    RateLimiter.Client.call 5
      (RateLimiter.Client.mk_env (fun k => inject_Z (Z.of_nat k) * 10)%Q
         (fun k => inject_Z (Z.of_nat k) * 10 + 1)%Q (fun _ => 0%Q) 3)
      (fun k => if (k <? 2)%nat then RateLimiter.Client.RateLimited None
                else RateLimiter.Client.Answer 7%Z)
      (RateLimiter.Client.init
         (RateLimiter.Client.Adapting (RateLimiter.Adaptive.init_default 1))
         None None) = Some r /\
    (let k := List.length (RateLimiter.Client.backoff r) in
     RateLimiter.Client.backoff r = RateLimiter.Client.powers_of_two k /\
     (Z.of_nat k <= Z.max 0 3)%Z /\
     (true = false -> k = 0%nat) /\
     (RateLimiter.Client.calls r <= S k)%nat /\
     (forall a, RateLimiter.Client.answer r = inl a ->
        exists j, (if (j <? 2)%nat then RateLimiter.Client.RateLimited None
                   else RateLimiter.Client.Answer 7%Z) = RateLimiter.Client.Answer a /\
                  RateLimiter.Client.calls r = S j) /\
     (forall ra, RateLimiter.Client.answer r = inr (RateLimiter.Client.Limited ra) ->
        true = true -> Z.of_nat k = 3%Z) /\
     (RateLimiter.Client.answer r = inr RateLimiter.Client.MaxRetriesExceeded ->
      (3 < 0)%Z /\ RateLimiter.Client.calls r = 0%nat /\ k = 0%nat)).
Proof.
  eexists. split; [vm_compute; reflexivity|].
  apply (client_call_accounting 5
           (RateLimiter.Client.mk_env (fun k => inject_Z (Z.of_nat k) * 10)%Q
              (fun k => inject_Z (Z.of_nat k) * 10 + 1)%Q (fun _ => 0%Q) 3)
           (fun k => if (k <? 2)%nat then RateLimiter.Client.RateLimited None
                     else RateLimiter.Client.Answer 7%Z)
           (RateLimiter.Client.init
              (RateLimiter.Client.Adapting (RateLimiter.Adaptive.init_default 1))
              None None)).
  vm_compute. reflexivity.
Defined.

(** X26.  Behind an adaptive limiter, which has no [acquire_wait],
    [RateLimitedClient.call] always ends, within [max_retries + 1] turns of
    its loop, whatever the function does. *)
Theorem client_call_ends_with_adaptive_limiter {A : Type} (fuel : nat)
    (env : RateLimiter.Client.Env) (func : nat -> RateLimiter.Client.response A)
    (self : RateLimiter.Client.t) :
  RateLimiter.Client.has_acquire_wait (RateLimiter.Client.rate_limiter self) = false ->
  (Z.to_nat (RateLimiter.Client.max_retries self + 1) < fuel)%nat ->
  exists r, RateLimiter.Client.call fuel env func self = Some r.
Proof.
  intros Hkind Hfuel. unfold RateLimiter.Client.call.
  destruct (RateLimiter.Client.rate_limiter self) as [b|s|a] eqn:El;
    try discriminate.
  clear Hkind.
  assert (Hgen : forall (f retries : nat) (made : nat) (slept : list Z)
                        (a : RateLimiter.Adaptive.t),
             (Z.to_nat (RateLimiter.Client.max_retries self - Z.of_nat retries + 1) < f)%nat ->
             is_Some (RateLimiter.Client.call_loop f env func
                        (RateLimiter.Client.auto_retry self)
                        (RateLimiter.Client.max_retries self) retries
                        (RateLimiter.Client.Adapting a) made slept)).
  { clear. induction f as [|f IH]; intros retries made slept a Hf; [lia|].
    cbn [RateLimiter.Client.call_loop].
    destruct (Z.of_nat retries <=? RateLimiter.Client.max_retries self)%Z eqn:Eloop;
      [|eauto].
    apply Z.leb_le in Eloop.
    cbn [RateLimiter.Client.permission].
    destruct (RateLimiter.Adaptive.acquire _ _ a) as [[o slept'] a'].
    assert (Hlimit : forall (ra : option Q) (made' : nat),
               is_Some
                 (if negb (RateLimiter.Client.auto_retry self)
                     || (RateLimiter.Client.max_retries self <=? Z.of_nat retries)%Z
                  then Some (RateLimiter.Client.mk_called
                               (inr (RateLimiter.Client.Limited ra)) made' slept
                               (RateLimiter.Client.Adapting a'))
                  else RateLimiter.Client.call_loop f env func
                         (RateLimiter.Client.auto_retry self)
                         (RateLimiter.Client.max_retries self) (S retries)
                         (RateLimiter.Client.report_rate_limited
                            (RateLimiter.Client.Adapting a')) made'
                         (slept ++ [(2 ^ Z.of_nat (S retries))%Z]))).
    { intros ra made'. destruct (negb _ || _) eqn:E; [eauto|].
      cbn [RateLimiter.Client.report_rate_limited]. apply IH. lia. }
    destruct o as [|ra| |]; [|apply Hlimit|eauto|eauto].
    destruct (func made); [eauto|apply Hlimit|eauto]. }
  apply Hgen. rewrite Z.sub_0_r. exact Hfuel.
Qed.

(** A function that is always rate limited, behind the adaptive limiter
    with the default of three retries. *)
Lemma client_call_ends_with_adaptive_limiter_witness :
  exists r,
    RateLimiter.Client.call 5
      (RateLimiter.Client.mk_env (fun _ => 100%Q) (fun _ => 101%Q) (fun _ => 0%Q) 0)
      (fun _ => @RateLimiter.Client.RateLimited unit None)
      (RateLimiter.Client.init
         (RateLimiter.Client.Adapting (RateLimiter.Adaptive.init_default 1))
         None None) = Some r.
Proof.
  apply (client_call_ends_with_adaptive_limiter 5
           (RateLimiter.Client.mk_env (fun _ => 100%Q) (fun _ => 101%Q) (fun _ => 0%Q) 0)
           (fun _ => @RateLimiter.Client.RateLimited unit None)
           (RateLimiter.Client.init
              (RateLimiter.Client.Adapting (RateLimiter.Adaptive.init_default 1))
              None None)).
  - reflexivity.
  - simpl. lia.
Defined.
